(** * The Ramanujan pi calculator of [pi.py], over a model of Python's [decimal]

    [pi.py] has one function, [calculate_pi_ramanujan(iterations, precision)].
    It sets the precision of the thread's decimal context, sums [iterations]
    terms of Ramanujan's series for 1/pi with [decimal.Decimal] arithmetic,
    takes the reciprocal and quantizes it to [precision] fractional digits.

    The first part of this file models the part of the [decimal] module that
    the function runs: the context, finite decimals, the rounding step
    [_fix], and the operations [*], [/], [+], [**], [sqrt] and [quantize],
    following the reference implementation [_pydecimal.py].  The second part
    embeds the function.  The third part proves the properties. *)

From Stdlib Require Import ZArith List Lia Bool Reals Lra Psatz.
Import ListNotations.
Local Open Scope Z_scope.

(** ** Exceptions and the state-and-exception monad *)

(** The exceptions that the function can let escape.  [InvalidOperation],
    [DivisionByZero] and [Overflow] are the three signals that the default
    context traps; the builtin [ValueError] and [OverflowError] come from the
    setter of [prec]. *)
Inductive exn : Type :=
| ValueError
| OverflowError
| InvalidOperation
| DivisionByZero
| Overflow.

Inductive result (A : Type) : Type :=
| Ok (a : A)
| Raise (e : exn).
Arguments Ok {A} a.
Arguments Raise {A} e.

(** The rounding modes of [decimal]. *)
Inductive Rounding : Type :=
| ROUND_DOWN
| ROUND_HALF_UP
| ROUND_HALF_EVEN
| ROUND_CEILING
| ROUND_FLOOR
| ROUND_UP
| ROUND_HALF_DOWN
| ROUND_05UP.

(** The thread's arithmetic context, [decimal.getcontext()].  [prec] is the
    field that the function writes; [rounding], [Emin] and [Emax] are the
    fields that its arithmetic reads.  [clamp] and [traps] keep the values of
    [decimal.DefaultContext] ([clamp = 0], traps on [InvalidOperation],
    [DivisionByZero] and [Overflow]).  The signal [flags], which the
    arithmetic sets ([Inexact], [Rounded]) and which influence no result, are
    not part of the record: a statement about a context here is a statement
    about these four fields. *)
Record Context : Type := mkContext {
  prec : Z;
  rounding : Rounding;
  Emin : Z;
  Emax : Z
}.

Definition DefaultContext : Context :=
  {| prec := 28; rounding := ROUND_HALF_EVEN; Emin := -999999; Emax := 999999 |}.

(** [decimal.MAX_PREC] on a 64-bit build. *)
Definition MAX_PREC : Z := 999999999999999999.

(** The range of the C type [ssize_t] on a 64-bit build, to which the setter
    of [prec] converts its argument. *)
Definition SSIZE_MIN : Z := - 2 ^ 63.
Definition SSIZE_MAX : Z := 2 ^ 63 - 1.

Definition Etiny (ctx : Context) : Z := Emin ctx - prec ctx + 1.
Definition Etop (ctx : Context) : Z := Emax ctx - prec ctx + 1.

(** A computation runs in the thread's context, may replace it, and either
    returns a value or raises.  The context survives an exception. *)
Definition M (A : Type) : Type := Context -> Context * result A.

Definition ret {A} (a : A) : M A := fun ctx => (ctx, Ok a).

Definition bind {A B} (m : M A) (f : A -> M B) : M B :=
  fun ctx =>
    match m ctx with
    | (ctx', Ok a) => f a ctx'
    | (ctx', Raise e) => (ctx', Raise e)
    end.

(** An operation that reads the context and leaves it as it is. *)
Definition with_context {A} (f : Context -> result A) : M A :=
  fun ctx => (ctx, f ctx).

Notation "x <- m ;; k" := (bind m (fun x => k))
  (at level 61, m at next level, right associativity).
Notation "m ;;; k" := (bind m (fun _ => k))
  (at level 61, right associativity).

(** The context with its [prec] field replaced. *)
Definition with_prec (v : Z) (ctx : Context) : Context :=
  {| prec := v; rounding := rounding ctx; Emin := Emin ctx; Emax := Emax ctx |}.

(** [getcontext().prec = v]: the setter converts the Python integer to
    [ssize_t], which raises [OverflowError] outside that type's range, and
    then checks the range [1 .. MAX_PREC], which raises [ValueError]. *)
Definition setprec (v : Z) : M unit :=
  fun ctx =>
    if (v <? SSIZE_MIN) || (SSIZE_MAX <? v) then (ctx, Raise OverflowError)
    else if (1 <=? v) && (v <=? MAX_PREC)
    then (with_prec v ctx, Ok tt)
    else (ctx, Raise ValueError).

(** Sequencing of results, for definitions that take the context as a plain
    argument. *)
Definition and_then {A B} (r : result A) (f : A -> result B) : result B :=
  match r with
  | Ok a => f a
  | Raise e => Raise e
  end.

Notation "x <-- r ;; k" := (and_then r (fun x => k))
  (at level 61, r at next level, right associativity).

(** ** Finite decimals *)

(** A finite [Decimal] is a sign, a coefficient and an exponent.  Every
    decimal that the function builds is nonnegative (its literals are [0],
    [1], [2], [396], [9801], factorials and [1103 + 26390*k] with [k >= 0],
    and products, quotients, sums and roots of such), so the sign is always
    [0] and the model keeps the coefficient [_int] and the exponent [_exp]. *)
Record Decimal : Type := mkDec {
  _int : Z;
  _exp : Z
}.

(** [Decimal(n)] for a Python integer [n >= 0]: exact, the context is not
    used. *)
Definition Decimal_of_int (n : Z) : Decimal := mkDec n 0.

(** [len(str(c))] for [c >= 0]. *)
Fixpoint ndigits_aux (fuel : nat) (c : Z) : Z :=
  match fuel with
  | O => 1
  | S f => if c <? 10 then 1 else 1 + ndigits_aux f (c / 10)
  end.

Definition ndigits (c : Z) : Z := ndigits_aux (Z.to_nat (Z.log2 c)) c.

(** [self.adjusted()]: the exponent of the leading digit. *)
Definition adjusted (d : Decimal) : Z := _exp d + ndigits (_int d) - 1.

(** The rounding functions of [_pick_rounding_function], for sign [0].  The
    coefficient is split as [q * 10^k + r]; the answer says whether the kept
    part [q] is to be incremented. *)
Definition round_up_p (mode : Rounding) (q r k : Z) : bool :=
  match mode with
  | ROUND_DOWN => false
  | ROUND_FLOOR => false
  | ROUND_UP => negb (r =? 0)
  | ROUND_CEILING => negb (r =? 0)
  | ROUND_HALF_UP => 10 ^ k <=? 2 * r
  | ROUND_HALF_DOWN => 10 ^ k <? 2 * r
  | ROUND_HALF_EVEN => (10 ^ k <? 2 * r) || ((10 ^ k =? 2 * r) && Z.odd q)
  | ROUND_05UP =>
      if (q mod 10 =? 0) || (q mod 10 =? 5) then negb (r =? 0) else false
  end.

(** Drop the last [k >= 1] digits of [c], rounding by [mode]. *)
Definition round_drop (mode : Rounding) (c k : Z) : Z :=
  let q := c / 10 ^ k in
  let r := c mod 10 ^ k in
  if round_up_p mode q r k then q + 1 else q.

(** [self._rescale(exp, rounding)]. *)
Definition _rescale (d : Decimal) (exp : Z) (mode : Rounding) : Decimal :=
  if _int d =? 0 then mkDec 0 exp
  else if exp <=? _exp d then mkDec (_int d * 10 ^ (_exp d - exp)) exp
  else
    let digits := ndigits (_int d) + _exp d - exp in
    if digits <? 0
    then mkDec (round_drop mode 1 1) exp
    else mkDec (round_drop mode (_int d) (exp - _exp d)) exp.

(** [self._fix(context)]: round to the context's precision and exponent
    range.  [Overflow] is trapped, so it raises. *)
Definition _fix (ctx : Context) (d : Decimal) : result Decimal :=
  if _int d =? 0 then
    Ok (mkDec 0 (Z.min (Z.max (_exp d) (Etiny ctx)) (Emax ctx)))
  else
    let exp_min := ndigits (_int d) + _exp d - prec ctx in
    if Etop ctx <? exp_min then Raise Overflow
    else
      let exp_min := Z.max exp_min (Etiny ctx) in
      if _exp d <? exp_min then
        let digits := ndigits (_int d) + _exp d - exp_min in
        let coeff :=
          if digits <? 0
          then round_drop (rounding ctx) 1 1
          else round_drop (rounding ctx) (_int d) (exp_min - _exp d) in
        let carry := prec ctx <? ndigits coeff in
        let coeff := if carry then coeff / 10 else coeff in
        let exp_min := if carry then exp_min + 1 else exp_min in
        if Etop ctx <? exp_min then Raise Overflow
        else Ok (mkDec coeff exp_min)
      else Ok d.

(** ** Arithmetic *)

(** [a * b]. *)
Definition Decimal_mul (a b : Decimal) : M Decimal :=
  with_context (fun ctx => _fix ctx (mkDec (_int a * _int b) (_exp a + _exp b))).

(** The loop of [__truediv__] that brings an exact quotient toward the ideal
    exponent: at most [n] trailing zeros are removed. *)
Fixpoint strip_zeros (n : nat) (coeff exp : Z) : Z * Z :=
  match n with
  | O => (coeff, exp)
  | S n' =>
      if coeff mod 10 =? 0 then strip_zeros n' (coeff / 10) (exp + 1)
      else (coeff, exp)
  end.

(** The unrounded quotient that [__truediv__] hands to [_fix], for nonzero
    [b]: [prec + 1] or [prec + 2] digits, the last one made sticky when the
    quotient is inexact. *)
Definition div_raw (ctx : Context) (a b : Decimal) : Decimal :=
  if _int a =? 0 then mkDec 0 (_exp a - _exp b)
  else
    let shift := ndigits (_int b) - ndigits (_int a) + prec ctx + 1 in
    let exp := _exp a - _exp b - shift in
    let num := if 0 <=? shift then _int a * 10 ^ shift else _int a in
    let den := if 0 <=? shift then _int b else _int b * 10 ^ (- shift) in
    let coeff := num / den in
    let remainder := num mod den in
    if remainder =? 0 then
      let '(c, e) := strip_zeros (Z.to_nat (_exp a - _exp b - exp)) coeff exp in
      mkDec c e
    else mkDec (if coeff mod 5 =? 0 then coeff + 1 else coeff) exp.

(** [a / b]: [0 / 0] signals [DivisionUndefined], an [InvalidOperation], and
    [x / 0] signals [DivisionByZero]; both are trapped. *)
Definition Decimal_div (a b : Decimal) : M Decimal :=
  with_context (fun ctx =>
    if _int b =? 0 then
      if _int a =? 0 then Raise InvalidOperation else Raise DivisionByZero
    else _fix ctx (div_raw ctx a b)).

(** [a + b] for nonnegative operands. *)
Definition Decimal_add (a b : Decimal) : M Decimal :=
  with_context (fun ctx =>
    let exp := Z.min (_exp a) (_exp b) in
    if (_int a =? 0) && (_int b =? 0) then _fix ctx (mkDec 0 exp)
    else if _int a =? 0 then
      _fix ctx (_rescale b (Z.max exp (_exp b - prec ctx - 1)) (rounding ctx))
    else if _int b =? 0 then
      _fix ctx (_rescale a (Z.max exp (_exp a - prec ctx - 1)) (rounding ctx))
    else
      _fix ctx (mkDec (_int a * 10 ^ (_exp a - exp) + _int b * 10 ^ (_exp b - exp))
                      exp)).

(** The widest exponent range of the library on a 64-bit build. *)
Definition MAX_EMAX : Z := 999999999999999999.
Definition MIN_EMIN : Z := -999999999999999999.

(** The working context of an integral power with exponent [n]: the
    precision of the context and [digits(n) + 2] guard digits, rounding
    half-even, in the widest exponent range. *)
Definition pow_context (ctx : Context) (n : Z) : Context :=
  {| prec := prec ctx + ndigits n + 2; rounding := ROUND_HALF_EVEN;
     Emin := MIN_EMIN; Emax := MAX_EMAX |}.

(** Left-to-right binary exponentiation in the working context: start from
    the base at the leading bit of [n]; for each further bit square, and
    multiply by the base when the bit is set.  Every product is rounded to
    the working precision. *)
Fixpoint pow_uint (ctx : Context) (base : Decimal) (n : positive) : result Decimal :=
  match n with
  | xH => Ok base
  | xO p =>
      r <-- pow_uint ctx base p ;;
      _fix ctx (mkDec (_int r * _int r) (_exp r + _exp r))
  | xI p =>
      r <-- pow_uint ctx base p ;;
      s <-- _fix ctx (mkDec (_int r * _int r) (_exp r + _exp r)) ;;
      _fix ctx (mkDec (_int s * _int base) (_exp s + _exp base))
  end.

(** [a ** n] for a positive [a] and a Python integer [n >= 0], as the
    [decimal] module of CPython computes it (libmpdec): [a ** 0] is [1];
    otherwise the power is built by [pow_uint] in the working context, and
    the result is rounded to the thread's context, whose exponent limits
    apply at that point.  The result is within a unit of the last place of
    the exact power, but it is not always the correctly rounded one.  (The
    library first tests whether the power is certain to overflow; then the
    rounding to the context overflows as well.) *)
Definition Decimal_pow (a : Decimal) (n : Z) : M Decimal :=
  with_context (fun ctx =>
    if n =? 0 then Ok (mkDec 1 0)
    else
      r <-- pow_uint (pow_context ctx n) a (Z.to_pos n) ;;
      _fix ctx r).

(** The unrounded root that [sqrt] hands to [_fix], for a positive [a]:
    [prec + 1] digits with a sticky last digit, or the exact root at the
    ideal exponent. *)
Definition sqrt_raw (ctx : Context) (a : Decimal) : Decimal :=
  let p := prec ctx + 1 in
  let e := _exp a / 2 in
  let c := if Z.odd (_exp a) then _int a * 10 else _int a in
  let l := if Z.odd (_exp a) then ndigits (_int a) / 2 + 1
           else (ndigits (_int a) + 1) / 2 in
  let shift := p - l in
  let c' := if 0 <=? shift then c * 100 ^ shift else c / 100 ^ (- shift) in
  let exact0 := if 0 <=? shift then true else c mod 100 ^ (- shift) =? 0 in
  let n := Z.sqrt c' in
  if exact0 && (n * n =? c') then
    mkDec (if 0 <=? shift then n / 10 ^ shift else n * 10 ^ (- shift)) e
  else mkDec (if n mod 5 =? 0 then n + 1 else n) (e - shift).

(** [a.sqrt()] for [a >= 0]; the root is always rounded half-even. *)
Definition Decimal_sqrt (a : Decimal) : M Decimal :=
  with_context (fun ctx =>
    let ctx_he := {| prec := prec ctx; rounding := ROUND_HALF_EVEN;
                     Emin := Emin ctx; Emax := Emax ctx |} in
    if _int a =? 0 then _fix ctx_he (mkDec 0 (_exp a / 2))
    else _fix ctx_he (sqrt_raw ctx a)).

(** [a.quantize(q)]: the value of [a] at the exponent of [q]. *)
Definition Decimal_quantize (a q : Decimal) : M Decimal :=
  with_context (fun ctx =>
    if negb ((Etiny ctx <=? _exp q) && (_exp q <=? Emax ctx))
    then Raise InvalidOperation
    else if _int a =? 0 then _fix ctx (mkDec 0 (_exp q))
    else if Emax ctx <? adjusted a then Raise InvalidOperation
    else if prec ctx <? adjusted a - _exp q + 1 then Raise InvalidOperation
    else
      let ans := _rescale a (_exp q) (rounding ctx) in
      if Emax ctx <? adjusted ans then Raise InvalidOperation
      else if prec ctx <? ndigits (_int ans) then Raise InvalidOperation
      else _fix ctx ans).

(** [Decimal('1e-{}'.format(precision))].  For [precision >= 0] the text is
    [1e-N], the decimal with coefficient [1] and exponent [-N].  For a
    negative [precision] the text is [1e--N], which is no numeric string: the
    constructor signals [ConversionSyntax], an [InvalidOperation]. *)
Definition Decimal_1e_minus (precision : Z) : M Decimal :=
  fun ctx =>
    if precision <? 0 then (ctx, Raise InvalidOperation)
    else (ctx, Ok (mkDec 1 (- precision))).

(** ** The program *)

(** [math.factorial(n)] for [n >= 0]. *)
Fixpoint fact_nat (n : nat) : Z :=
  match n with
  | O => 1
  | S m => Z.of_nat (S m) * fact_nat m
  end.

Definition factorial (n : Z) : Z := fact_nat (Z.to_nat n).

(** [for k in range(start, start + n): acc = body(k, acc)]. *)
Fixpoint for_range {St : Type} (n : nat) (k : Z) (body : Z -> St -> M St)
  (acc : St) : M St :=
  match n with
  | O => ret acc
  | S n' => acc' <- body k acc ;; for_range n' (k + 1) body acc'
  end.

(** The body of the loop: one term of the series, added to [sum_val]. *)
Definition loop_body (k : Z) (sum_val : Decimal) : M Decimal :=
  let numerator_factorial := Decimal_of_int (factorial (4 * k)) in
  let numerator_linear := Decimal_of_int (1103 + 26390 * k) in
  numerator_term <- Decimal_mul numerator_factorial numerator_linear ;;
  denominator_factorial_pow <- Decimal_pow (Decimal_of_int (factorial k)) 4 ;;
  denominator_power_term <- Decimal_pow (Decimal_of_int 396) (4 * k) ;;
  denominator_term <- Decimal_mul denominator_factorial_pow denominator_power_term ;;
  current_term <- Decimal_div numerator_term denominator_term ;;
  Decimal_add sum_val current_term.

(** The statements between the assignment to [prec] and the [return]: the
    value of [pi_approx].  [range(iterations)] is empty when
    [iterations <= 0]. *)
Definition pi_approx_of (iterations : Z) : M Decimal :=
  let sum_val := Decimal_of_int 0 in
  root <- Decimal_sqrt (Decimal_of_int 2) ;;
  twice_root <- Decimal_mul (Decimal_of_int 2) root ;;
  constant_multiplier <- Decimal_div twice_root (Decimal_of_int 9801) ;;
  sum_val <- for_range (Z.to_nat iterations) 0 loop_body sum_val ;;
  one_over_pi <- Decimal_mul constant_multiplier sum_val ;;
  Decimal_div (Decimal_of_int 1) one_over_pi.

(** [calculate_pi_ramanujan(iterations, precision)]. *)
Definition calculate_pi_ramanujan (iterations precision : Z) : M Decimal :=
  setprec (precision + 10) ;;;
  pi_approx <- pi_approx_of iterations ;;
  quantum <- Decimal_1e_minus precision ;;
  Decimal_quantize pi_approx quantum.

(** The context of a thread that has done nothing to it but, possibly, call
    the function before: [DefaultContext] with some precision [q]. *)
Definition thread_context (q : Z) : Context :=
  {| prec := q; rounding := rounding DefaultContext;
     Emin := Emin DefaultContext; Emax := Emax DefaultContext |}.

(** The result of a call in such a thread. *)
Definition compute (q iterations precision : Z) : result Decimal :=
  snd (calculate_pi_ramanujan iterations precision (thread_context q)).

(** The value of [pi_approx] in that call, before the final rounding. *)
Definition pi_approx_in_call (q iterations precision : Z) : result Decimal :=
  snd ((setprec (precision + 10) ;;; pi_approx_of iterations) (thread_context q)).

(** The statements after the assignment to [prec]. *)
Definition after_setprec (iterations precision : Z) : M Decimal :=
  pi_approx <- pi_approx_of iterations ;;
  quantum <- Decimal_1e_minus precision ;;
  Decimal_quantize pi_approx quantum.

(** The context of the call once [prec] is set. *)
Definition call_context (q p : Z) : Context := with_prec (p + 10) (thread_context q).

(** Computations that leave the context as they found it. *)
Definition readonly {A} (m : M A) : Prop := forall ctx, fst (m ctx) = ctx.

(** ** The value of a decimal *)

Definition pow10 (e : Z) : R := powerRZ 10 e.

(** The real number that a decimal stands for. *)
Definition V (d : Decimal) : R := (IZR (_int d) * pow10 (_exp d))%R.

(** A decimal that [_fix] leaves alone as far as its lower end goes: at most
    [prec] digits and an exponent not below [Etiny]. *)
Definition repr (ctx : Context) (y : Decimal) : Prop :=
  0 <= _int y < 10 ^ prec ctx /\ Etiny ctx <= _exp y.

(** The contexts considered: a positive precision and an exponent range
    around [0]. *)
Definition wf_context (ctx : Context) : Prop :=
  1 <= prec ctx /\ Emin ctx <= 0 < Emax ctx.

(** The exponent that [_fix] rounds a nonzero decimal to. *)
Definition fix_exp (ctx : Context) (d : Decimal) : Z :=
  Z.max (ndigits (_int d) + _exp d - prec ctx) (Etiny ctx).


(** [r] is a faithful rounding of the real number [x]: a decimal of the
    context with no representable decimal strictly between [x] and itself. *)
Definition faithful (ctx : Context) (x : R) (r : Decimal) : Prop :=
  repr ctx r /\ 0 <= _int r /\ adjusted r <= Emax ctx /\
  forall y, repr ctx y ->
    ((x <= V y)%R -> (V r <= V y)%R) /\ ((V y <= x)%R -> (V y <= V r)%R).

(** What an operation can come to when [Overflow] is the only exception in
    reach: that exception, or a faithful rounding of [x]. *)
Definition outcome (ctx : Context) (x : R) (res : result Decimal) : Prop :=
  res = Raise Overflow \/ exists r, res = Ok r /\ faithful ctx x r.

(** [r] is the round-half-even quantization of [a] at [p] fractional digits:
    the multiple of [10^-p] nearest to the value of [a], and the one with an
    even coefficient when two are equally near. *)
Definition half_even_quantization (a : Decimal) (p : Z) (r : Decimal) : Prop :=
  _exp r = - p /\ 0 <= _int r /\
  (2 * Rabs (V r - V a) <= pow10 (- p))%R /\
  ((2 * Rabs (V r - V a) = pow10 (- p))%R -> Z.even (_int r) = true).

(** ** The reference definitions *)

(** Term [k] of the series as the specification words it: the numerator
    [(4k)! (1103 + 26390 k)] and the denominator [(k!)^4 396^(4k)] are exact
    integers, and their quotient is one decimal division at the working
    precision. *)
Definition numerator_int (k : Z) : Z := factorial (4 * k) * (1103 + 26390 * k).
Definition denominator_int (k : Z) : Z := factorial k ^ 4 * 396 ^ (4 * k).

Definition exact_term (ctx : Context) (k : Z) : result Decimal :=
  snd (Decimal_div (Decimal_of_int (numerator_int k))
                   (Decimal_of_int (denominator_int k)) ctx).

(** Term [k] with every product and power a decimal operation of its own:
    the products rounded to the working precision, the powers as the library
    computes them, all bounded by the exponent range. *)
Definition rounded_term (ctx : Context) (k : Z) : result Decimal :=
  numerator <-- snd (Decimal_mul (Decimal_of_int (factorial (4 * k)))
                                 (Decimal_of_int (1103 + 26390 * k)) ctx) ;;
  fourth_power <-- snd (Decimal_pow (Decimal_of_int (factorial k)) 4 ctx) ;;
  power_of_396 <-- snd (Decimal_pow (Decimal_of_int 396) (4 * k) ctx) ;;
  denominator <-- snd (Decimal_mul fourth_power power_of_396 ctx) ;;
  snd (Decimal_div numerator denominator ctx).

(** The sum of the terms [0 .. n-1], each addition rounded to the working
    precision. *)
Fixpoint partial_sum (term : Z -> result Decimal) (ctx : Context) (n : nat)
  : result Decimal :=
  match n with
  | O => Ok (Decimal_of_int 0)
  | S m =>
      s <-- partial_sum term ctx m ;;
      t <-- term (Z.of_nat m) ;;
      snd (Decimal_add s t ctx)
  end.

(** The reference value for a given reading of the terms, in the working
    context [ctx]: [C = 2 sqrt(2) / 9801], the sum of the terms, the
    reciprocal of [C] times the sum, rounded to [precision] fractional
    digits. *)
Definition reference (term : Context -> Z -> result Decimal) (ctx : Context)
  (iterations precision : Z) : result Decimal :=
  root <-- snd (Decimal_sqrt (Decimal_of_int 2) ctx) ;;
  twice_root <-- snd (Decimal_mul (Decimal_of_int 2) root ctx) ;;
  C <-- snd (Decimal_div twice_root (Decimal_of_int 9801) ctx) ;;
  sum <-- partial_sum (term ctx) ctx (Z.to_nat iterations) ;;
  inv_pi <-- snd (Decimal_mul C sum ctx) ;;
  pi_approx <-- snd (Decimal_div (Decimal_of_int 1) inv_pi ctx) ;;
  snd (Decimal_quantize pi_approx (mkDec 1 (- precision)) ctx).

(** The reference definition of the specification, at a working precision of
    [precision + 10] digits. *)
Definition reference_exact (q iterations precision : Z) : result Decimal :=
  reference exact_term (with_prec (precision + 10) (thread_context q))
            iterations precision.

(** The same with the products and powers as decimal operations, and with
    the limits that the setter of [prec] puts on the working precision: a
    [ValueError] above [MAX_PREC], an [OverflowError] above the range of
    [ssize_t]. *)
Definition reference_rounded (q iterations precision : Z) : result Decimal :=
  if precision + 10 <=? MAX_PREC
  then reference rounded_term (with_prec (precision + 10) (thread_context q))
                 iterations precision
  else if precision + 10 <=? SSIZE_MAX then Raise ValueError
  else Raise OverflowError.

From Stdlib Require Import String Ascii.

(** ** The exact value that the function approximates *)

(** Term [k] of the series in the function's docstring,
    [(4k)! (1103 + 26390 k) / ((k!)^4 396^(4k))], as a real number. *)
Definition term (k : nat) : R :=
  (IZR (numerator_int (Z.of_nat k)) / IZR (denominator_int (Z.of_nat k)))%R.

(** The sum of the terms [0 .. n-1]. *)
Fixpoint series (n : nat) : R :=
  match n with
  | O => 0%R
  | S m => (series m + term m)%R
  end.

(** The docstring's formula cut after [iterations] terms and solved for pi:
    [9801 / (2 sqrt(2) sum)]. *)
Definition ramanujan (iterations : Z) : R :=
  (9801 / (2 * sqrt 2 * series (Z.to_nat iterations)))%R.

(** The relative error allowed to one rounded operation: two units in the
    last of [prec] digits. *)
Definition rel_err (ctx : Context) : R := (2 * pow10 (1 - prec ctx))%R.

(** [xh] approximates the positive real [x] with a relative error of at most
    [a] times [rel_err]. *)
Definition approx (ctx : Context) (a xh x : R) : Prop :=
  (x * (1 - a * rel_err ctx) <= xh <= x * (1 + a * rel_err ctx))%R.

(** [r] is the multiple of [10^g] nearest to the real [x], and the one
    with an even coefficient when two are equally near. *)
Definition nearest_even (g : Z) (x : R) (r : Decimal) : Prop :=
  exists m, V r = (IZR m * pow10 g)%R /\
    (2 * Rabs (V r - x) <= pow10 g)%R /\
    ((2 * Rabs (V r - x) = pow10 g)%R -> Z.even m = true).

(** ** Subtraction and absolute value *)

(** The interactive part of [pi.py] subtracts two decimals and takes the
    absolute value.  A difference has a sign; it is kept beside the
    magnitude. *)

(** The rounding functions look at the sign: on the magnitude of a negative
    number [ROUND_CEILING] acts as [ROUND_FLOOR] does on a positive one, and
    the other way round.  The other modes do not depend on the sign. *)
Definition rounding_for_sign (sign : bool) (mode : Rounding) : Rounding :=
  if sign then
    match mode with
    | ROUND_CEILING => ROUND_FLOOR
    | ROUND_FLOOR => ROUND_CEILING
    | m => m
    end
  else mode.

Definition context_for_sign (sign : bool) (ctx : Context) : Context :=
  {| prec := prec ctx; rounding := rounding_for_sign sign (rounding ctx);
     Emin := Emin ctx; Emax := Emax ctx |}.

(** [_fix] of a decimal with sign [sign] and magnitude [d]. *)
Definition fix_signed (ctx : Context) (sign : bool) (d : Decimal)
  : result (bool * Decimal) :=
  match _fix (context_for_sign sign ctx) d with
  | Ok r => Ok (sign, r)
  | Raise e => Raise e
  end.

(** [_normalize(op1, op2, prec)]: both operands at one exponent.  The
    operand with the larger exponent is [tmp]; an [other] too small to
    matter at this precision is replaced by [1] at a nearer exponent. *)
Definition _normalize (op1 op2 : Decimal) (prec : Z) : Decimal * Decimal :=
  let align (tmp other : Decimal) : Decimal * Decimal :=
    let exp := _exp tmp + Z.min (-1) (ndigits (_int tmp) - prec - 2) in
    let other :=
      if ndigits (_int other) + _exp other - 1 <? exp then mkDec 1 exp else other in
    (mkDec (_int tmp * 10 ^ (_exp tmp - _exp other)) (_exp other), other) in
  if _exp op1 <? _exp op2
  then let '(tmp, other) := align op2 op1 in (other, tmp)
  else align op1 op2.

(** [a - b] for nonnegative [a] and [b], computed as [a + (-b)] by
    [__add__]: the sign of the difference and its magnitude. *)
Definition Decimal_sub (a b : Decimal) : M (bool * Decimal) :=
  with_context (fun ctx =>
    let exp := Z.min (_exp a) (_exp b) in
    let negativezero :=
      match rounding ctx with ROUND_FLOOR => true | _ => false end in
    if (_int a =? 0) && (_int b =? 0) then fix_signed ctx negativezero (mkDec 0 exp)
    else if _int a =? 0 then
      fix_signed ctx true
        (_rescale b (Z.max exp (_exp b - prec ctx - 1))
                  (rounding_for_sign true (rounding ctx)))
    else if _int b =? 0 then
      fix_signed ctx false
        (_rescale a (Z.max exp (_exp a - prec ctx - 1)) (rounding ctx))
    else
      let '(op1, op2) := _normalize a b (prec ctx) in
      if _int op1 =? _int op2 then fix_signed ctx negativezero (mkDec 0 exp)
      else if _int op1 <? _int op2
      then fix_signed ctx true (mkDec (_int op2 - _int op1) (_exp op2))
      else fix_signed ctx false (mkDec (_int op1 - _int op2) (_exp op1))).

(** [abs(x)]: the magnitude, rounded in the context. *)
Definition Decimal_abs (x : bool * Decimal) : M Decimal :=
  with_context (fun ctx => _fix ctx (snd x)).

(** ** Texts *)

Definition newline : string := String (ascii_of_nat 10) EmptyString.

(** [s[:n]]. *)
Definition slice_to (s : string) (n : Z) : string :=
  let len := Z.of_nat (String.length s) in
  let stop := if n <? 0 then Z.max 0 (len + n) else Z.min n len in
  substring 0 (Z.to_nat stop) s.

Definition digit_of (c : ascii) : option Z :=
  let n := Z.of_nat (nat_of_ascii c) in
  if (48 <=? n) && (n <=? 57) then Some (n - 48) else None.

(** The digits at the head of [s], read on to the coefficient [coeff]: the
    coefficient, the count of digits read, and the rest of the text. *)
Fixpoint read_digits (s : string) (coeff count : Z) : Z * Z * string :=
  match s with
  | String c rest =>
      match digit_of c with
      | Some d => read_digits rest (10 * coeff + d) (count + 1)
      | None => (coeff, count, s)
      end
  | EmptyString => (coeff, count, s)
  end.

(** [Decimal(s)] for a text of digits with at most one point, which is what
    a prefix of [known_pi_str] is: the coefficient is the digits, the
    exponent is minus the count of digits after the point.  The empty text
    and a lone point are no numerals; the constructor signals
    [ConversionSyntax], an [InvalidOperation].  Signs, exponents and the
    special values do not occur in such a prefix and are not modelled: the
    function rejects them. *)
Definition Decimal_of_str (s : string) : result Decimal :=
  let '(c1, n1, rest) := read_digits s 0 0 in
  match rest with
  | EmptyString => if n1 =? 0 then Raise InvalidOperation else Ok (mkDec c1 0)
  | String "."%char rest' =>
      let '(c2, n2, rest'') := read_digits rest' c1 0 in
      match rest'' with
      | EmptyString =>
          if (n1 =? 0) && (n2 =? 0) then Raise InvalidOperation
          else Ok (mkDec c2 (- n2))
      | String _ _ => Raise InvalidOperation
      end
  | String _ _ => Raise InvalidOperation
  end.

(** ** The interactive caller *)

(** What the [try] block can raise: an exception of the function or of
    [int], or [EOFError] from [input] at the end of the input. *)
Inductive raised : Type :=
| Exn (e : exn)
| EOFError.

(** A line of output.  The texts are the program's; a formatted line keeps
    the values that it shows. *)
Inductive line : Type :=
| Text (s : string)
| Prompt (s : string)
| ResultsFor (num_iterations desired_precision : Z)
| CalculatedPi (d : Decimal)
| KnownPi (d : Decimal)
| AbsoluteError (d : Decimal)
| UnexpectedError (e : raised).

(** How a block ends: it runs to its end, [exit()] is called, or an
    exception is raised. *)
Inductive control : Type :=
| Normal
| Exit
| Raised (e : raised).

(** How the program ends: at its last statement, or by [exit()], which
    raises [SystemExit] past both handlers. *)
Inductive status : Type :=
| Completed
| SystemExit.

Definition known_pi_str : string :=
  "3.1415926535897932384626433832795028841971693993751058209749445923078164062862089986280348253421170679".

Definition prompt_iterations : line :=
  Prompt (newline ++
    "Enter the number of iterations (e.g., 1 for ~30 digits, 2 for ~60 digits): ").

Definition prompt_precision : line :=
  Prompt "Enter the desired precision (number of decimal places, e.g., 50, 100, 200): ".

(** The statements after the call: the results, the known value cut to the
    desired precision, and the error. *)
Definition report (num_iterations desired_precision : Z) (calculated_pi : Decimal)
  (ctx : Context) : Context * list line * control :=
  let out :=
    [Text (newline ++ "--- Results ---");
     ResultsFor num_iterations desired_precision;
     CalculatedPi calculated_pi] in
  match Decimal_of_str
          (slice_to known_pi_str
             (Z.min (Z.of_nat (String.length known_pi_str)) (desired_precision + 2))) with
  | Raise e => (ctx, out, Raised (Exn e))
  | Ok known_pi =>
      let out := out ++ [KnownPi known_pi] in
      match (difference <- Decimal_sub calculated_pi known_pi ;;
             Decimal_abs difference) ctx with
      | (ctx', Raise e) => (ctx', out, Raised (Exn e))
      | (ctx', Ok error) => (ctx', out ++ [AbsoluteError error], Normal)
      end
  end.

(** The body of the [try] statement.  An element of [stdin] is one line of
    input as [int] reads it: [Some n] for the text of the integer [n],
    [None] for a text that [int] rejects with [ValueError]. *)
Definition try_block (stdin : list (option Z)) (ctx : Context)
  : Context * list line * control :=
  match stdin with
  | [] => (ctx, [prompt_iterations], Raised EOFError)
  | None :: _ => (ctx, [prompt_iterations], Raised (Exn ValueError))
  | Some num_iterations :: stdin =>
      if num_iterations <? 1 then
        (ctx, [prompt_iterations; Text "Number of iterations must be at least 1."], Exit)
      else
        match stdin with
        | [] => (ctx, [prompt_iterations; prompt_precision], Raised EOFError)
        | None :: _ =>
            (ctx, [prompt_iterations; prompt_precision], Raised (Exn ValueError))
        | Some desired_precision :: _ =>
            if desired_precision <? 1 then
              (ctx, [prompt_iterations; prompt_precision;
                     Text "Precision must be at least 1."], Exit)
            else
              match calculate_pi_ramanujan num_iterations desired_precision ctx with
              | (ctx', Raise e) =>
                  (ctx', [prompt_iterations; prompt_precision], Raised (Exn e))
              | (ctx', Ok calculated_pi) =>
                  let '(ctx'', out, c) :=
                    report num_iterations desired_precision calculated_pi ctx' in
                  (ctx'', [prompt_iterations; prompt_precision] ++ out, c)
              end
        end
  end.

(** The three lines printed before the [try] statement. *)
Definition banner : list line :=
  [Text "--- Pi Calculator using Ramanujan's Formula ---";
   Text "This formula converges extremely fast!";
   Text "Even 1 or 2 iterations will give many correct digits."].

(** The line of the [except ValueError] handler. *)
Definition invalid_input : line :=
  Text "Invalid input. Please enter integer numbers for iterations and precision.".

(** The program run as a script: the banner, the [try] block and its two
    handlers.  [except ValueError] takes the [ValueError] of [int] and of the
    setter of [prec] alike; [except Exception] takes every other exception;
    [SystemExit] is no [Exception] and ends the program. *)
Definition main (stdin : list (option Z)) (ctx : Context)
  : Context * (list line * status) :=
  let '(ctx', out, c) := try_block stdin ctx in
  match c with
  | Normal => (ctx', (banner ++ out, Completed))
  | Exit => (ctx', (banner ++ out, SystemExit))
  | Raised (Exn ValueError) => (ctx', (banner ++ out ++ [invalid_input], Completed))
  | Raised e => (ctx', (banner ++ out ++ [UnexpectedError e], Completed))
  end.

(** The digits of [known_pi_str] as an integer. *)
Definition known_digits : Z :=
  31415926535897932384626433832795028841971693993751058209749445923078164062862089986280348253421170679.

(** ** Powers of ten *)

Lemma pow10_pos e : (0 < pow10 e)%R.
Proof. apply powerRZ_lt; lra. Qed.

Lemma pow10_add a b : pow10 (a + b) = (pow10 a * pow10 b)%R.
Proof. apply powerRZ_add; lra. Qed.

Lemma pow10_0 : pow10 0 = 1%R.
Proof. reflexivity. Qed.

Lemma pow10_1 : pow10 1 = 10%R.
Proof. unfold pow10. simpl. lra. Qed.

Lemma pow10_succ e : pow10 (e + 1) = (10 * pow10 e)%R.
Proof. rewrite pow10_add, pow10_1. lra. Qed.

Lemma pow10_IZR k : 0 <= k -> pow10 k = IZR (10 ^ k).
Proof.
  intros Hk. unfold pow10.
  rewrite <- (Z2Nat.id k Hk) at 1.
  rewrite <- pow_powerRZ, pow_IZR, Z2Nat.id; auto.
Qed.

Lemma pow10_sub a b : pow10 (a - b) = (pow10 a / pow10 b)%R.
Proof.
  unfold Rdiv. replace (a - b) with (a + - b) by lia.
  rewrite pow10_add. unfold pow10. now rewrite powerRZ_neg'.
Qed.

Lemma pow10_le a b : a <= b -> (pow10 a <= pow10 b)%R.
Proof.
  intros H. replace b with (a + (b - a)) by lia.
  rewrite pow10_add, (pow10_IZR (b - a)) by lia.
  assert (0 < 10 ^ (b - a)) by (apply Z.pow_pos_nonneg; lia).
  assert (H1 : 1 <= 10 ^ (b - a)) by lia.
  apply IZR_le in H1. pose proof (pow10_pos a). nra.
Qed.

Lemma pow10_lt a b : a < b -> (pow10 a < pow10 b)%R.
Proof.
  intros H. replace b with (a + (b - a)) by lia.
  rewrite pow10_add, (pow10_IZR (b - a)) by lia.
  assert (10 ^ 1 <= 10 ^ (b - a)) by (apply Z.pow_le_mono_r; lia).
  change (10 ^ 1) with 10 in H0.
  apply IZR_le in H0. pose proof (pow10_pos a). nra.
Qed.

Lemma pow10_le_inv a b : (pow10 a <= pow10 b)%R -> a <= b.
Proof.
  intros H. destruct (Z_le_gt_dec a b); auto.
  assert (b < a) by lia. apply pow10_lt in H0. lra.
Qed.

Lemma pow10_lt_inv a b : (pow10 a < pow10 b)%R -> a < b.
Proof.
  intros H. destruct (Z_lt_ge_dec a b); auto.
  assert (b <= a) by lia. apply pow10_le in H0. lra.
Qed.

Lemma Zpow10_pos k : 0 < 10 ^ k \/ k < 0.
Proof. destruct (Z_lt_ge_dec k 0); [right|left]; auto. apply Z.pow_pos_nonneg; lia. Qed.

Lemma Zpow10_gt0 k : 0 <= k -> 0 < 10 ^ k.
Proof. intros; apply Z.pow_pos_nonneg; lia. Qed.

Lemma Zpow10_split a b : 0 <= a -> 0 <= b -> 10 ^ (a + b) = 10 ^ a * 10 ^ b.
Proof. intros; apply Z.pow_add_r; auto. Qed.

(** ** The number of digits *)

Lemma ndigits_aux_bounds f : forall c,
  0 < c -> c < 10 ^ (Z.of_nat f + 1) ->
  10 ^ (ndigits_aux f c - 1) <= c < 10 ^ ndigits_aux f c /\ 1 <= ndigits_aux f c.
Proof.
  induction f as [|f IH]; intros c Hc Hf.
  - simpl in *. lia.
  - cbn [ndigits_aux]. destruct (Z.ltb_spec c 10) as [H|H].
    + simpl. lia.
    + assert (Hd : 0 < c / 10) by (apply Z.div_str_pos; lia).
      assert (Hd2 : c / 10 < 10 ^ (Z.of_nat f + 1)).
      { apply Z.div_lt_upper_bound; try lia.
        replace (Z.of_nat (S f) + 1) with (Z.succ (Z.of_nat f + 1)) in Hf by lia.
        rewrite Z.pow_succ_r in Hf by lia. lia. }
      destruct (IH _ Hd Hd2) as [[L U] N].
      replace (1 + ndigits_aux f (c / 10) - 1) with (Z.succ (ndigits_aux f (c / 10) - 1)) by lia.
      replace (1 + ndigits_aux f (c / 10)) with (Z.succ (ndigits_aux f (c / 10))) by lia.
      rewrite !Z.pow_succ_r by lia.
      pose proof (Z.div_mod c 10 ltac:(lia)). pose proof (Z.mod_pos_bound c 10 ltac:(lia)).
      lia.
Qed.

Lemma ndigits_bounds c : 0 < c -> 10 ^ (ndigits c - 1) <= c < 10 ^ ndigits c.
Proof.
  intros Hc. unfold ndigits.
  apply ndigits_aux_bounds; auto.
  rewrite Z2Nat.id by apply Z.log2_nonneg.
  pose proof (Z.log2_spec c Hc) as [_ H].
  assert (0 <= Z.log2 c) by apply Z.log2_nonneg.
  replace (Z.succ (Z.log2 c)) with (Z.log2 c + 1) in H by lia.
  assert (2 ^ (Z.log2 c + 1) <= 10 ^ (Z.log2 c + 1)) by (apply Z.pow_le_mono_l; lia).
  lia.
Qed.

Lemma ndigits_pos c : 1 <= ndigits c.
Proof.
  destruct (Z_lt_le_dec 0 c) as [H|H].
  - pose proof (ndigits_bounds c H) as [_ U].
    destruct (Z_lt_le_dec (ndigits c) 1); auto.
    assert (10 ^ ndigits c <= 10 ^ 0) by (apply Z.pow_le_mono_r; lia).
    simpl in *. lia.
  - unfold ndigits. rewrite Z.log2_nonpos by auto. simpl. lia.
Qed.

Lemma ndigits_unique c n : 10 ^ (n - 1) <= c < 10 ^ n -> 1 <= n -> ndigits c = n.
Proof.
  intros [L U] Hn.
  assert (Hc : 0 < c) by (pose proof (Zpow10_gt0 (n - 1)); lia).
  pose proof (ndigits_bounds c Hc) as [L' U']. pose proof (ndigits_pos c).
  destruct (Z.lt_trichotomy (ndigits c) n) as [H1|[H1|H1]]; auto.
  - assert (10 ^ ndigits c <= 10 ^ (n - 1)) by (apply Z.pow_le_mono_r; lia). lia.
  - assert (10 ^ n <= 10 ^ (ndigits c - 1)) by (apply Z.pow_le_mono_r; lia). lia.
Qed.

Lemma ndigits_le c n : 0 < c -> c < 10 ^ n -> ndigits c <= n.
Proof.
  intros Hc U. pose proof (ndigits_bounds c Hc) as [L' U'].
  destruct (Z_le_gt_dec (ndigits c) n); auto.
  assert (10 ^ n <= 10 ^ (ndigits c - 1)).
  { destruct (Z_lt_le_dec n 0). rewrite Z.pow_neg_r in U by auto. lia.
    apply Z.pow_le_mono_r; lia. }
  lia.
Qed.

Lemma ndigits_ge c n : 10 ^ (n - 1) <= c -> 1 <= n -> n <= ndigits c.
Proof.
  intros L Hn.
  assert (Hc : 0 < c) by (pose proof (Zpow10_gt0 (n - 1)); lia).
  pose proof (ndigits_bounds c Hc) as [L' U']. pose proof (ndigits_pos c).
  destruct (Z_le_gt_dec n (ndigits c)); auto.
  assert (10 ^ ndigits c <= 10 ^ (n - 1)) by (apply Z.pow_le_mono_r; lia). lia.
Qed.

Lemma ndigits_0 : ndigits 0 = 1.
Proof. reflexivity. Qed.

(** ** Dropping digits *)

Lemma round_up_p_rem mode q r k :
  0 <= r -> 0 <= k -> round_up_p mode q r k = true -> 0 < r.
Proof.
  intros Hr Hk. pose proof (Zpow10_gt0 k Hk).
  assert (Hn : negb (r =? 0) = true -> 0 < r).
  { destruct (Z.eqb_spec r 0); simpl; [discriminate | lia]. }
  destruct mode; cbn [round_up_p]; try discriminate; auto.
  - intros E. apply Z.leb_le in E. lia.
  - intros E. apply orb_true_iff in E as [E|E].
    + apply Z.ltb_lt in E. lia.
    + apply andb_true_iff in E as [E _]. apply Z.eqb_eq in E. lia.
  - intros E. apply Z.ltb_lt in E. lia.
  - destruct ((q mod 10 =? 0) || (q mod 10 =? 5)); auto; discriminate.
Qed.

Lemma round_drop_bounds mode c k :
  0 <= c -> 0 <= k ->
  c - 10 ^ k < round_drop mode c k * 10 ^ k < c + 10 ^ k /\ 0 <= round_drop mode c k.
Proof.
  intros Hc Hk. unfold round_drop.
  pose proof (Zpow10_gt0 k Hk) as Hp.
  pose proof (Z.div_mod c (10 ^ k) ltac:(lia)) as Hdm.
  pose proof (Z.mod_pos_bound c (10 ^ k) Hp) as Hm.
  assert (0 <= c / 10 ^ k) by (apply Z.div_pos; lia).
  destruct (round_up_p mode (c / 10 ^ k) (c mod 10 ^ k) k) eqn:E.
  - assert (0 < c mod 10 ^ k) by (apply (round_up_p_rem mode (c / 10 ^ k) _ k); [lia | lia | exact E]).
    split; nia.
  - split; nia.
Qed.

Lemma round_drop_half_even c k :
  0 <= c -> 0 <= k ->
  2 * Z.abs (round_drop ROUND_HALF_EVEN c k * 10 ^ k - c) <= 10 ^ k /\
  (2 * Z.abs (round_drop ROUND_HALF_EVEN c k * 10 ^ k - c) = 10 ^ k ->
   Z.even (round_drop ROUND_HALF_EVEN c k) = true).
Proof.
  intros Hc Hk. unfold round_drop, round_up_p.
  pose proof (Zpow10_gt0 k Hk) as Hp.
  pose proof (Z.div_mod c (10 ^ k) ltac:(lia)) as Hdm.
  pose proof (Z.mod_pos_bound c (10 ^ k) Hp) as Hm.
  set (q := c / 10 ^ k) in *. set (r := c mod 10 ^ k) in *.
  destruct (Z.ltb_spec (10 ^ k) (2 * r)) as [H1|H1]; cbn [orb andb].
  - split; [|intros]; lia.
  - destruct (Z.eqb_spec (10 ^ k) (2 * r)) as [H2|H2]; cbn [orb andb].
    + destruct (Z.odd q) eqn:Eo.
      * split; [lia|]. intros _. rewrite Z.even_add, <- Z.negb_odd, Eo. reflexivity.
      * split; [lia|]. intros _. rewrite <- Z.negb_odd, Eo. reflexivity.
    + split; [|intros]; lia.
Qed.

(** ** The rounding step *)

Lemma fix_inv ctx d r :
  wf_context ctx -> 0 < _int d -> _fix ctx d = Ok r ->
  let g := fix_exp ctx d in
  (g <= _exp d /\ r = d) \/
  (_exp d < g /\ exists m,
      _int d - 10 ^ (g - _exp d) < m * 10 ^ (g - _exp d) < _int d + 10 ^ (g - _exp d) /\
      0 <= m /\
      (rounding ctx = ROUND_HALF_EVEN ->
         2 * Z.abs (m * 10 ^ (g - _exp d) - _int d) <= 10 ^ (g - _exp d) /\
         (2 * Z.abs (m * 10 ^ (g - _exp d) - _int d) = 10 ^ (g - _exp d) ->
          Z.even m = true)) /\
      ((m < 10 ^ prec ctx /\ r = mkDec m g) \/
       (m = 10 ^ prec ctx /\ r = mkDec (10 ^ (prec ctx - 1)) (g + 1)))).
Proof.
  intros [Hp HE] Hc Hf g. unfold _fix in Hf.
  destruct (Z.eqb_spec (_int d) 0) as [?|_]; [lia|].
  destruct (Z.ltb_spec (Etop ctx) (ndigits (_int d) + _exp d - prec ctx)); [discriminate|].
  fold (fix_exp ctx d) in Hf. fold g in Hf.
  destruct (Z.ltb_spec (_exp d) g) as [Hlt|Hge].
  2:{ left. split; [lia|]. congruence. }
  right. split; auto.
  pose proof (ndigits_bounds _ Hc) as [NL NU]. pose proof (ndigits_pos (_int d)) as N1.
  set (k := g - _exp d) in *.
  assert (Hk : 1 <= k) by (unfold k; lia).
  pose proof (Zpow10_gt0 k ltac:(lia)) as Hpk.
  set (m := if ndigits (_int d) + _exp d - g <? 0
            then round_drop (rounding ctx) 1 1
            else round_drop (rounding ctx) (_int d) k) in *.
  assert (Hm : _int d - 10 ^ k < m * 10 ^ k < _int d + 10 ^ k /\ 0 <= m /\
               (rounding ctx = ROUND_HALF_EVEN ->
                2 * Z.abs (m * 10 ^ k - _int d) <= 10 ^ k /\
                (2 * Z.abs (m * 10 ^ k - _int d) = 10 ^ k -> Z.even m = true)) /\
               m <= 10 ^ prec ctx).
  { unfold m. destruct (Z.ltb_spec (ndigits (_int d) + _exp d - g) 0) as [Hd|Hd].
    - (* the value is below one tenth of the last place *)
      assert (Hg : g = Etiny ctx) by (unfold g, fix_exp in *; lia).
      assert (Hs : 10 * 10 ^ ndigits (_int d) <= 10 ^ k).
      { replace k with (Z.succ (ndigits (_int d)) + (k - 1 - ndigits (_int d))) by lia.
        rewrite Z.pow_add_r, Z.pow_succ_r by lia.
        pose proof (Zpow10_gt0 (k - 1 - ndigits (_int d)) ltac:(unfold k; lia)).
        pose proof (Zpow10_gt0 (ndigits (_int d)) ltac:(lia)). nia. }
      assert (Hm01 : round_drop (rounding ctx) 1 1 = 0 \/ round_drop (rounding ctx) 1 1 = 1).
      { pose proof (round_drop_bounds (rounding ctx) 1 1 ltac:(lia) ltac:(lia)).
        change (10 ^ 1) with 10 in *. lia. }
      assert (Hhe : rounding ctx = ROUND_HALF_EVEN -> round_drop (rounding ctx) 1 1 = 0).
      { intros ->. reflexivity. }
      assert (1 <= 10 ^ prec ctx) by (pose proof (Zpow10_gt0 (prec ctx)); lia).
      split; [lia|]. split; [lia|]. split; [|lia].
      intros Hr. rewrite (Hhe Hr). split; [lia|]. reflexivity.
    - pose proof (round_drop_bounds (rounding ctx) (_int d) k ltac:(lia) ltac:(lia)) as [B1 B2].
      split; [lia|]. split; [lia|]. split.
      + intros Hr. rewrite Hr. apply round_drop_half_even; lia.
      + (* at most [prec] digits are kept *)
        assert (Hs : 10 ^ ndigits (_int d) <= 10 ^ prec ctx * 10 ^ k).
        { rewrite <- Z.pow_add_r by lia. apply Z.pow_le_mono_r; try lia.
          unfold k, g, fix_exp. lia. }
        pose proof (Zpow10_gt0 (prec ctx) ltac:(lia)).
        nia. }
  exists m. destruct Hm as (B & M0 & HE' & MU).
  split; [exact B|]. split; [exact M0|]. split; [exact HE'|].
  destruct (Z.ltb_spec (prec ctx) (ndigits m)) as [Hcar|Hcar].
  - (* carry *)
    assert (Hm10 : m = 10 ^ prec ctx).
    { destruct (Z.eq_dec m (10 ^ prec ctx)); auto.
      assert (m = 0 \/ 0 < m) as [->|Hmp] by lia.
      - rewrite ndigits_0 in Hcar. lia.
      - pose proof (ndigits_le m (prec ctx) Hmp ltac:(lia)). lia. }
    destruct (Z.ltb_spec (Etop ctx) (g + 1)); [discriminate|].
    right. split; auto. inversion Hf. f_equal.
    rewrite Hm10.
    replace (prec ctx) with (Z.succ (prec ctx - 1)) at 1 by lia.
    rewrite Z.pow_succ_r by lia.
    rewrite Z.mul_comm, Z.div_mul; lia.
  - destruct (Z.ltb_spec (Etop ctx) g); [discriminate|].
    left. split; [|congruence].
    destruct (Z.eq_dec m (10 ^ prec ctx)) as [E|E]; [|lia].
    exfalso. rewrite E in Hcar.
    pose proof (ndigits_ge (10 ^ prec ctx) (prec ctx + 1)) as G.
    replace (prec ctx + 1 - 1) with (prec ctx) in G by lia.
    specialize (G ltac:(lia) ltac:(lia)). lia.
Qed.

(** ** Values *)

Lemma V_scale d m : m <= _exp d -> V d = (IZR (_int d * 10 ^ (_exp d - m)) * pow10 m)%R.
Proof.
  intros H. unfold V. rewrite mult_IZR, <- pow10_IZR by lia.
  rewrite Rmult_assoc, <- pow10_add. f_equal. f_equal. lia.
Qed.

Lemma grid_le a b m : (IZR a * pow10 m <= IZR b * pow10 m)%R <-> a <= b.
Proof.
  pose proof (pow10_pos m). split; intros H1.
  - apply le_IZR. nra.
  - apply IZR_le in H1. nra.
Qed.

Lemma grid_lt a b m : (IZR a * pow10 m < IZR b * pow10 m)%R <-> a < b.
Proof.
  pose proof (pow10_pos m). split; intros H1.
  - apply lt_IZR. nra.
  - apply IZR_lt in H1. nra.
Qed.

Lemma V_nonneg d : 0 <= _int d -> (0 <= V d)%R.
Proof.
  intros H. unfold V. apply IZR_le in H. pose proof (pow10_pos (_exp d)). nra.
Qed.

Lemma V_pos d : 0 < _int d -> (0 < V d)%R.
Proof.
  intros H. unfold V. apply IZR_lt in H. pose proof (pow10_pos (_exp d)). nra.
Qed.

Lemma V_zero d : _int d = 0 -> V d = 0%R.
Proof. intros H. unfold V. rewrite H. lra. Qed.

Lemma V_pos_inv d : (0 < V d)%R -> 0 < _int d.
Proof.
  intros H. unfold V in H. pose proof (pow10_pos (_exp d)).
  apply lt_IZR. nra.
Qed.

(** The value of a positive decimal lies between the powers of ten that its
    adjusted exponent names. *)
Lemma V_adjusted d :
  0 < _int d -> (pow10 (adjusted d) <= V d < pow10 (adjusted d + 1))%R.
Proof.
  intros H. pose proof (ndigits_bounds _ H) as [L U]. pose proof (ndigits_pos (_int d)).
  unfold adjusted, V.
  replace (_exp d + ndigits (_int d) - 1) with ((ndigits (_int d) - 1) + _exp d) by lia.
  replace (ndigits (_int d) - 1 + _exp d + 1) with (ndigits (_int d) + _exp d) by lia.
  rewrite !pow10_add.
  rewrite (pow10_IZR (ndigits (_int d) - 1)), (pow10_IZR (ndigits (_int d))) by lia.
  apply IZR_le in L. apply IZR_lt in U. pose proof (pow10_pos (_exp d)). nra.
Qed.

Lemma adjusted_lt d a : 0 < _int d -> (V d < pow10 a)%R -> adjusted d < a.
Proof.
  intros H Hv. pose proof (V_adjusted d H) as [L _].
  apply pow10_lt_inv. lra.
Qed.

Lemma adjusted_ge d a : 0 < _int d -> (pow10 a <= V d)%R -> a <= adjusted d.
Proof.
  intros H Hv. pose proof (V_adjusted d H) as [_ U].
  assert (a < adjusted d + 1) by (apply pow10_lt_inv; lra). lia.
Qed.

(** What [_fix] returns, as a real number: the value itself, or a multiple of
    [10^g] less than one unit of [10^g] away, [g] being the exponent of the
    result's last place. *)
Lemma fix_value ctx d r :
  wf_context ctx -> 0 < _int d -> _fix ctx d = Ok r ->
  0 <= _int r /\ repr ctx r /\
  (r = d \/
   exists m, 0 <= m /\ V r = (IZR m * pow10 (fix_exp ctx d))%R /\
     _exp d < fix_exp ctx d <= _exp r /\
     (Rabs (V r - V d) < pow10 (fix_exp ctx d))%R /\
     (rounding ctx = ROUND_HALF_EVEN ->
        (2 * Rabs (V r - V d) <= pow10 (fix_exp ctx d))%R /\
        ((2 * Rabs (V r - V d) = pow10 (fix_exp ctx d))%R -> Z.even m = true))).
Proof.
  intros Hwf Hc Hf. pose proof Hwf as [Hp HE].
  destruct (fix_inv ctx d r Hwf Hc Hf) as [[Hg ->]|[Hg (m & B & M0 & HEv & Hr)]].
  - split; [lia|]. split; [|now left].
    unfold fix_exp in Hg. pose proof (ndigits_bounds _ Hc) as [L U].
    split; [split; [lia|]|lia].
    assert (10 ^ ndigits (_int d) <= 10 ^ prec ctx) by (apply Z.pow_le_mono_r; lia). lia.
  - set (g := fix_exp ctx d) in *. set (k := g - _exp d) in *.
    pose proof (Zpow10_gt0 k ltac:(unfold k; lia)) as Hpk.
    pose proof (Zpow10_gt0 (prec ctx) ltac:(lia)) as Hpp.
    pose proof (Zpow10_gt0 (prec ctx - 1) ltac:(lia)) as Hpp1.
    assert (Hgt : Etiny ctx <= g) by (unfold g, fix_exp; lia).
    assert (HVr : V r = (IZR m * pow10 g)%R).
    { destruct Hr as [[_ ->]|[-> ->]]; unfold V; cbn [_int _exp]; auto.
      rewrite <- !pow10_IZR by lia. rewrite <- !pow10_add. f_equal. lia. }
    assert (HVd : V d = (IZR (_int d) * / IZR (10 ^ k) * pow10 g)%R).
    { unfold V. replace g with (k + _exp d) by (unfold k; lia).
      rewrite pow10_add, <- pow10_IZR by (unfold k; lia).
      pose proof (pow10_pos k). field. lra. }
    assert (Hik : (0 < IZR (10 ^ k))%R) by (apply IZR_lt; lia).
    assert (Hpg := pow10_pos g).
    assert (Hdiff : (V r - V d = IZR (m * 10 ^ k - _int d) * / IZR (10 ^ k) * pow10 g)%R).
    { rewrite HVr, HVd, minus_IZR, mult_IZR. field. lra. }
    assert (Habs : (Rabs (V r - V d) = IZR (Z.abs (m * 10 ^ k - _int d)) * / IZR (10 ^ k) * pow10 g)%R).
    { rewrite Hdiff, !Rabs_mult, <- abs_IZR.
      rewrite (Rabs_pos_eq (pow10 g)) by lra.
      rewrite (Rabs_pos_eq (/ IZR (10 ^ k))); auto.
      left. now apply Rinv_0_lt_compat. }
    assert (Hinv : (0 < / IZR (10 ^ k))%R) by now apply Rinv_0_lt_compat.
    split; [destruct Hr as [[_ ->]|[_ ->]]; cbn; lia|].
    split; [destruct Hr as [[? ->]|[_ ->]]; unfold repr; cbn [_int _exp]|].
    + lia.
    + split; [|lia]. split; [lia|].
      apply Z.pow_lt_mono_r; lia.
    + right. exists m. split; [exact M0|]. split; [exact HVr|].
      split; [destruct Hr as [[_ ->]|[_ ->]]; cbn [_exp]; lia|].
      split.
      * rewrite Habs.
        assert (Z.abs (m * 10 ^ k - _int d) < 10 ^ k) by lia.
        apply IZR_lt in H.
        replace (pow10 g) with (IZR (10 ^ k) * / IZR (10 ^ k) * pow10 g)%R at 2
          by (field; lra).
        apply Rmult_lt_compat_r; auto.
      * intros Hhe. destruct (HEv Hhe) as [E1 E2]. rewrite Habs. split.
        -- apply IZR_le in E1. rewrite mult_IZR in E1.
           replace (pow10 g) with (IZR (10 ^ k) * / IZR (10 ^ k) * pow10 g)%R at 2
             by (field; lra).
           rewrite <- !Rmult_assoc.
           apply Rmult_le_compat_r; [lra|]. apply Rmult_le_compat_r; lra.
        -- intros E. apply E2. apply eq_IZR. rewrite mult_IZR.
           assert (X : (2 * IZR (Z.abs (m * 10 ^ k - _int d)) * (/ IZR (10 ^ k) * pow10 g)
                        = IZR (10 ^ k) * (/ IZR (10 ^ k) * pow10 g))%R).
           { rewrite <- !Rmult_assoc. rewrite <- !Rmult_assoc in E. rewrite E. field. lra. }
           apply Rmult_eq_reg_r in X; auto.
           apply Rgt_not_eq. apply Rmult_lt_0_compat; auto.
Qed.

Lemma fix_zero ctx d :
  _int d = 0 ->
  _fix ctx d = Ok (mkDec 0 (Z.min (Z.max (_exp d) (Etiny ctx)) (Emax ctx))).
Proof. intros H. unfold _fix. now rewrite H. Qed.

(** [_fix] raises nothing but [Overflow]. *)
Lemma fix_raises ctx d e : _fix ctx d = Raise e -> e = Overflow.
Proof.
  unfold _fix.
  repeat match goal with
         | |- context [if ?b then _ else _] => destruct b
         end; congruence.
Qed.

Lemma fix_overflow ctx d :
  0 < _int d -> Emax ctx < adjusted d -> _fix ctx d = Raise Overflow.
Proof.
  intros Hc Ha. unfold _fix, adjusted, Etop in *.
  destruct (Z.eqb_spec (_int d) 0); [lia|].
  destruct (Z.ltb_spec (Emax ctx - prec ctx + 1) (ndigits (_int d) + _exp d - prec ctx)); auto.
  lia.
Qed.

Lemma fix_ok ctx d :
  wf_context ctx -> 0 <= _int d -> adjusted d < Emax ctx ->
  exists r, _fix ctx d = Ok r.
Proof.
  intros [Hp HE] Hc Ha. unfold _fix, adjusted, Etop, Etiny in *.
  destruct (_int d =? 0); eauto.
  destruct (Z.ltb_spec (Emax ctx - prec ctx + 1) (ndigits (_int d) + _exp d - prec ctx));
    [lia|].
  match goal with |- context [if ?b then _ else Ok d] => destruct b end; eauto.
  match goal with |- context [prec ctx <? ?n] => destruct (prec ctx <? n) end.
  - match goal with |- context [if Z.ltb ?a ?b then _ else _] => destruct (Z.ltb_spec a b) end;
      eauto; lia.
  - match goal with |- context [if Z.ltb ?a ?b then _ else _] => destruct (Z.ltb_spec a b) end;
      eauto; lia.
Qed.

(** [_fix] is faithful: no decimal that the context represents lies strictly
    between a value and its rounding. *)
Lemma fix_faithful ctx d r y :
  wf_context ctx -> 0 <= _int d -> _fix ctx d = Ok r -> repr ctx y ->
  ((V d <= V y)%R -> (V r <= V y)%R) /\ ((V y <= V d)%R -> (V y <= V r)%R).
Proof.
  intros Hwf Hc0 Hf [[Hy0 Hy1] Hy2]. pose proof Hwf as [Hp HE].
  assert (_int d = 0 \/ 0 < _int d) as [Hz|Hc] by lia.
  { rewrite fix_zero in Hf by auto. inversion Hf.
    rewrite (V_zero d Hz). unfold V; cbn [_int _exp]. rewrite Rmult_0_l. tauto. }
  destruct (fix_value ctx d r Hwf Hc Hf) as (_ & _ & [->|(m & M0 & HVr & Hg & Hab & _)]);
    [tauto|].
  set (g := fix_exp ctx d) in *.
  apply Rabs_def2 in Hab. pose proof (pow10_pos g) as Hpg.
  destruct (Z_le_gt_dec g (_exp y)) as [Hge|Hlt].
  - rewrite (V_scale y g Hge), HVr in *. set (Y := _int y * 10 ^ (_exp y - g)) in *.
    split; intros Hle; apply grid_le.
    + assert (m < Y + 1); [|lia]. apply (grid_lt _ _ g). rewrite plus_IZR. lra.
    + assert (Y < m + 1); [|lia]. apply (grid_lt _ _ g). rewrite plus_IZR. lra.
  - assert (Hgn : g = ndigits (_int d) + _exp d - prec ctx) by (unfold g, fix_exp in *; lia).
    assert (HVy : (V y < pow10 (prec ctx + g - 1))%R).
    { apply Rlt_le_trans with (pow10 (prec ctx + _exp y)); [|apply pow10_le; lia].
      unfold V. rewrite pow10_add, (pow10_IZR (prec ctx)) by lia.
      apply IZR_lt in Hy1. pose proof (pow10_pos (_exp y)). nra. }
    pose proof (V_adjusted d Hc) as [HL _].
    replace (adjusted d) with (prec ctx + g - 1) in HL by (unfold adjusted; lia).
    split; intros Hle; [lra|].
    assert (HH : (pow10 (prec ctx + g - 1) <= V r)%R); [|lra].
    rewrite HVr. replace (prec ctx + g - 1) with ((prec ctx - 1) + g) by lia.
    rewrite pow10_add, pow10_IZR by lia. apply grid_le.
    assert (10 ^ (prec ctx - 1) < m + 1); [|lia].
    apply (grid_lt _ _ g). rewrite plus_IZR, <- pow10_IZR, <- pow10_add by lia.
    replace (prec ctx - 1 + g) with (prec ctx + g - 1) by lia. lra.
Qed.

Lemma fix_adjusted ctx d r :
  wf_context ctx -> 0 <= _int d -> _fix ctx d = Ok r -> adjusted r <= Emax ctx.
Proof.
  intros Hwf Hc0 Hf. pose proof Hwf as [Hp HE].
  assert (_int d = 0 \/ 0 < _int d) as [Hz|Hc] by lia.
  { rewrite fix_zero in Hf by auto. inversion Hf. unfold adjusted; cbn [_int _exp].
    rewrite ndigits_0. lia. }
  unfold _fix in Hf.
  destruct (Z.eqb_spec (_int d) 0) as [?|_]; [lia|].
  destruct (Z.ltb_spec (Etop ctx) (ndigits (_int d) + _exp d - prec ctx)); [discriminate|].
  pose proof (fix_value ctx d r Hwf Hc) as Hv.
  assert (Hf' : _fix ctx d = Ok r).
  { unfold _fix. destruct (Z.eqb_spec (_int d) 0) as [?|_]; [lia|].
    destruct (Z.ltb_spec (Etop ctx) (ndigits (_int d) + _exp d - prec ctx)); [lia|]. exact Hf. }
  destruct (fix_inv ctx d r Hwf Hc Hf') as [[Hg ->]|[Hg (m & B & M0 & _ & Hr)]].
  - unfold adjusted, Etop in *. lia.
  - fold (fix_exp ctx d) in Hf.
    destruct (Z.ltb_spec (_exp d) (fix_exp ctx d)); [|lia].
    match type of Hf with context [prec ctx <? ?n] => destruct (Z.ltb_spec (prec ctx) n) end.
    + destruct (Z.ltb_spec (Etop ctx) (fix_exp ctx d + 1)); [discriminate|].
      destruct Hr as [[Hm ->]|[Hm ->]]; unfold adjusted, Etop in *; cbn [_int _exp].
      * assert (m = 0 \/ 0 < m) as [->|Hmp] by lia; [rewrite ndigits_0; lia|].
        pose proof (ndigits_le m (prec ctx) Hmp Hm). lia.
      * rewrite (ndigits_unique (10 ^ (prec ctx - 1)) (prec ctx)); try lia.
        replace (prec ctx - 1) with (prec ctx - 1) by lia. split; [lia|].
        apply Z.pow_lt_mono_r; lia.
    + destruct (Z.ltb_spec (Etop ctx) (fix_exp ctx d)); [discriminate|].
      destruct Hr as [[Hm ->]|[Hm ->]]; unfold adjusted, Etop in *; cbn [_int _exp].
      * assert (m = 0 \/ 0 < m) as [->|Hmp] by lia; [rewrite ndigits_0; lia|].
        pose proof (ndigits_le m (prec ctx) Hmp Hm). lia.
      * inversion Hf. lia.
Qed.

(** A decimal of at most [prec] digits whose exponents are in range is left
    as it is. *)
Lemma fix_id ctx d :
  0 < _int d -> ndigits (_int d) <= prec ctx -> Etiny ctx <= _exp d ->
  adjusted d <= Emax ctx -> _fix ctx d = Ok d.
Proof.
  intros Hc Hn He Ha. unfold _fix, adjusted, Etop in *.
  destruct (Z.eqb_spec (_int d) 0); [lia|].
  destruct (Z.ltb_spec (Emax ctx - prec ctx + 1) (ndigits (_int d) + _exp d - prec ctx)); [lia|].
  destruct (Z.ltb_spec (_exp d) (Z.max (ndigits (_int d) + _exp d - prec ctx) (Etiny ctx)));
    [lia|reflexivity].
Qed.

(** A sticky approximation [d] of [x], of more than [prec] digits, is on the
    same side of every representable decimal as [x]. *)
Lemma sticky_sides ctx d x y :
  wf_context ctx -> 0 < _int d -> prec ctx + 1 <= ndigits (_int d) ->
  (Rabs (V d - x) < pow10 (_exp d))%R -> repr ctx y ->
  ((x <= V y)%R -> (V d <= V y)%R) /\ ((V y <= x)%R -> (V y <= V d)%R).
Proof.
  intros Hwf Hc Hn Hab Hy. pose proof Hwf as [Hp HE].
  destruct Hy as [[Hy0 Hy1] Hy2].
  apply Rabs_def2 in Hab. pose proof (pow10_pos (_exp d)) as Hpe.
  destruct (Z_le_gt_dec (_exp d) (_exp y)) as [Hge|Hlt].
  - rewrite (V_scale y (_exp d) Hge) in *. set (Y := _int y * 10 ^ (_exp y - _exp d)) in *.
    unfold V in *.
    split; intros Hle; apply grid_le.
    + assert (_int d < Y + 1); [|lia]. apply (grid_lt _ _ (_exp d)). rewrite plus_IZR. lra.
    + assert (Y < _int d + 1); [|lia]. apply (grid_lt _ _ (_exp d)). rewrite plus_IZR. lra.
  - assert (HVy : (V y < pow10 (prec ctx + _exp d - 1))%R).
    { apply Rlt_le_trans with (pow10 (prec ctx + _exp y)); [|apply pow10_le; lia].
      unfold V. rewrite pow10_add, (pow10_IZR (prec ctx)) by lia.
      apply IZR_lt in Hy1. pose proof (pow10_pos (_exp y)). nra. }
    assert (HVd : (pow10 (prec ctx + _exp d) <= V d)%R).
    { pose proof (V_adjusted d Hc) as [HL _].
      eapply Rle_trans; [|exact HL]. apply pow10_le. unfold adjusted. lia. }
    assert (H10 : (10 * pow10 (prec ctx + _exp d - 1) = pow10 (prec ctx + _exp d))%R).
    { replace (prec ctx + _exp d) with ((prec ctx + _exp d - 1) + 1) at 2 by lia.
      now rewrite pow10_succ. }
    assert (H11 : (pow10 (_exp d) <= pow10 (prec ctx + _exp d - 1))%R)
      by (apply pow10_le; lia).
    pose proof (pow10_pos (prec ctx + _exp d - 1)).
    split; intros Hle; lra.
Qed.

(** Rounding a sticky approximation of [x] is a faithful rounding of [x]. *)
Lemma sticky_faithful ctx d x r y :
  wf_context ctx -> 0 < _int d -> prec ctx + 1 <= ndigits (_int d) ->
  (Rabs (V d - x) < pow10 (_exp d))%R ->
  _fix ctx d = Ok r -> repr ctx y ->
  ((x <= V y)%R -> (V r <= V y)%R) /\ ((V y <= x)%R -> (V y <= V r)%R).
Proof.
  intros Hwf Hc Hn Hab Hf Hy.
  destruct (fix_faithful ctx d r y Hwf ltac:(lia) Hf Hy) as [F1 F2].
  destruct (sticky_sides ctx d x y Hwf Hc Hn Hab Hy) as [X1 X2].
  split; auto.
Qed.

(** Rounding between two representable bounds. *)
Lemma fix_bounds ctx d lo hi :
  wf_context ctx -> 0 <= _int d -> repr ctx lo -> repr ctx hi ->
  (V lo <= V d <= V hi)%R -> (V hi < pow10 (Emax ctx))%R ->
  exists r, _fix ctx d = Ok r /\ repr ctx r /\ 0 <= _int r /\ (V lo <= V r <= V hi)%R.
Proof.
  intros Hwf Hc Hlo Hhi [H1 H2] Hmax.
  assert (_int d = 0 \/ 0 < _int d) as [Hz|Hp] by lia.
  - rewrite (V_zero d Hz) in *. rewrite fix_zero by auto.
    eexists. split; [reflexivity|]. destruct Hwf as [Hp HE].
    unfold repr, V. cbn [_int _exp]. rewrite Rmult_0_l.
    pose proof (Zpow10_gt0 (prec ctx) ltac:(lia)). unfold Etiny.
    split; [split; lia|]. split; [lia|]. split; assumption.
  - destruct (fix_ok ctx d Hwf Hc) as [r Hr].
    { apply adjusted_lt; auto. lra. }
    exists r. split; auto.
    destruct (fix_value ctx d r Hwf Hp Hr) as (R0 & Rr & _).
    destruct (fix_faithful ctx d r lo Hwf Hc Hr Hlo) as [_ F1].
    destruct (fix_faithful ctx d r hi Hwf Hc Hr Hhi) as [F2 _].
    split; [exact Rr|]. split; [exact R0|]. split; auto.
Qed.

(** ** Division *)

Lemma strip_zeros_value n : forall c e,
  0 < c ->
  0 < fst (strip_zeros n c e) /\
  (IZR (fst (strip_zeros n c e)) * pow10 (snd (strip_zeros n c e)) = IZR c * pow10 e)%R.
Proof.
  induction n as [|n IH]; intros c e Hc; cbn [strip_zeros].
  - cbn. split; auto.
  - destruct (Z.eqb_spec (c mod 10) 0) as [Hm|Hm]; [|cbn; split; auto].
    pose proof (Z.div_mod c 10 ltac:(lia)) as Hd. rewrite Hm in Hd.
    assert (Hq : 0 < c / 10) by lia.
    destruct (IH (c / 10) (e + 1) Hq) as [I1 I2]. split; auto.
    rewrite I2, pow10_succ. rewrite Hd at 2. rewrite plus_IZR, mult_IZR. lra.
Qed.

Lemma div_raw_spec ctx a b :
  wf_context ctx -> 0 < _int a -> 0 < _int b ->
  0 < _int (div_raw ctx a b) /\
  (V (div_raw ctx a b) = (V a / V b)%R \/
   (prec ctx + 1 <= ndigits (_int (div_raw ctx a b)) /\
    (Rabs (V (div_raw ctx a b) - V a / V b) < pow10 (_exp (div_raw ctx a b)))%R)).
Proof.
  intros [Hp HE] Ha Hb. unfold div_raw.
  destruct (Z.eqb_spec (_int a) 0) as [?|_]; [lia|].
  set (s := ndigits (_int b) - ndigits (_int a) + prec ctx + 1).
  set (ex := _exp a - _exp b - s).
  set (num := if 0 <=? s then _int a * 10 ^ s else _int a).
  set (den := if 0 <=? s then _int b else _int b * 10 ^ (- s)).
  pose proof (ndigits_bounds _ Ha) as [La Ua]. pose proof (ndigits_bounds _ Hb) as [Lb Ub].
  pose proof (ndigits_pos (_int a)) as Na. pose proof (ndigits_pos (_int b)) as Nb.
  pose proof (Zpow10_gt0 (prec ctx) ltac:(lia)) as Hpp.
  assert (Hnd : 0 < den /\ 10 ^ prec ctx * den <= num /\
                (V a / V b = IZR num / IZR den * pow10 ex)%R).
  { assert (Hex : pow10 ex = (pow10 (_exp a) * / pow10 (_exp b) * / pow10 s)%R).
    { unfold ex. rewrite !pow10_sub. unfold Rdiv. reflexivity. }
    pose proof (pow10_pos (_exp a)). pose proof (pow10_pos (_exp b)). pose proof (pow10_pos s).
    assert (Hib : (0 < IZR (_int b))%R) by now apply IZR_lt.
    unfold num, den. destruct (Z.leb_spec 0 s) as [Hs|Hs].
    - split; [lia|]. split.
      + assert (10 ^ ndigits (_int b) * 10 ^ prec ctx = 10 ^ (ndigits (_int a) - 1) * 10 ^ s).
        { rewrite <- !Z.pow_add_r by lia. f_equal. unfold s. lia. }
        pose proof (Zpow10_gt0 s Hs). nia.
      + rewrite Hex, mult_IZR, <- pow10_IZR by lia. unfold V. field. lra.
    - pose proof (Zpow10_gt0 (- s) ltac:(lia)) as Hms.
      split; [nia|]. split.
      + assert (10 ^ ndigits (_int b) * 10 ^ (- s) * 10 ^ prec ctx = 10 ^ (ndigits (_int a) - 1)).
        { rewrite <- !Z.pow_add_r by lia. f_equal. unfold s. lia. }
        nia.
      + rewrite Hex, mult_IZR, <- pow10_IZR by lia.
        replace (pow10 (- s)) with (/ pow10 s)%R
          by (unfold pow10; now rewrite powerRZ_neg'). 
        unfold V. field. lra. }
  destruct Hnd as (Hden & Hbig & HV).
  pose proof (Z.div_mod num den ltac:(lia)) as Hdm.
  pose proof (Z.mod_pos_bound num den Hden) as Hmb.
  set (c0 := num / den) in *. set (rem := num mod den) in *.
  assert (Hc0 : 10 ^ prec ctx <= c0) by nia.
  assert (Hiden : (0 < IZR den)%R) by now apply IZR_lt.
  pose proof (pow10_pos ex) as Hpex.
  destruct (Z.eqb_spec rem 0) as [Hr|Hr].
  - destruct (strip_zeros (Z.to_nat (_exp a - _exp b - ex)) c0 ex) as [c e] eqn:Es.
    pose proof (strip_zeros_value (Z.to_nat (_exp a - _exp b - ex)) c0 ex ltac:(lia)) as [S1 S2].
    rewrite Es in S1, S2. cbn [fst snd] in S1, S2. cbn [_int _exp].
    split; auto. left. unfold V at 1. cbn [_int _exp]. rewrite S2, HV.
    replace num with (den * c0) by lia. rewrite mult_IZR. field. lra.
  - set (c := if c0 mod 5 =? 0 then c0 + 1 else c0).
    assert (Hc : c = c0 \/ c = c0 + 1) by (unfold c; destruct (c0 mod 5 =? 0); auto).
    cbn [_int _exp]. split; [lia|]. right. split.
    + apply ndigits_ge; try lia. replace (prec ctx + 1 - 1) with (prec ctx) by lia. lia.
    + unfold V at 1. cbn [_int _exp]. rewrite HV.
      replace (IZR c * pow10 ex - IZR num / IZR den * pow10 ex)%R
        with ((IZR c - IZR num / IZR den) * pow10 ex)%R by ring.
      rewrite Rabs_mult, (Rabs_pos_eq (pow10 ex)) by lra.
      rewrite <- (Rmult_1_l (pow10 ex)) at 2.
      apply Rmult_lt_compat_r; auto.
      assert (H1 : (IZR den * IZR c0 < IZR num)%R)
        by (rewrite <- mult_IZR; apply IZR_lt; lia).
      assert (H2 : (IZR num < IZR den * (IZR c0 + 1))%R)
        by (rewrite <- plus_IZR, <- mult_IZR; apply IZR_lt; lia).
      assert (H3 : (IZR c0 < IZR num / IZR den)%R).
      { apply Rmult_lt_reg_l with (IZR den); auto.
        replace (IZR den * (IZR num / IZR den))%R with (IZR num) by (field; lra). lra. }
      assert (H4 : (IZR num / IZR den < IZR c0 + 1)%R).
      { apply Rmult_lt_reg_l with (IZR den); auto.
        replace (IZR den * (IZR num / IZR den))%R with (IZR num) by (field; lra). lra. }
      apply Rabs_def1; destruct Hc as [-> | ->]; try rewrite plus_IZR; lra.
Qed.

(** Division is faithful. *)
Lemma div_faithful ctx a b r y :
  wf_context ctx -> 0 < _int a -> 0 < _int b ->
  _fix ctx (div_raw ctx a b) = Ok r -> repr ctx y ->
  ((V a <= V y * V b)%R -> (V r <= V y)%R) /\ ((V y * V b <= V a)%R -> (V y <= V r)%R).
Proof.
  intros Hwf Ha Hb Hf Hy.
  destruct (div_raw_spec ctx a b Hwf Ha Hb) as [Hd [He|[Hn Hab]]].
  - destruct (fix_faithful ctx (div_raw ctx a b) r y Hwf ltac:(lia) Hf Hy) as [F1 F2].
    rewrite He in F1, F2. pose proof (V_pos b Hb).
    split; intros H1.
    + apply F1. apply Rmult_le_reg_r with (V b); auto.
      replace (V a / V b * V b)%R with (V a) by (field; lra). lra.
    + apply F2. apply Rmult_le_reg_r with (V b); auto.
      replace (V a / V b * V b)%R with (V a) by (field; lra). lra.
  - destruct (sticky_faithful ctx _ _ r y Hwf Hd Hn Hab Hf Hy) as [F1 F2].
    pose proof (V_pos b Hb).
    split; intros H1.
    + apply F1. apply Rmult_le_reg_r with (V b); auto.
      replace (V a / V b * V b)%R with (V a) by (field; lra). lra.
    + apply F2. apply Rmult_le_reg_r with (V b); auto.
      replace (V a / V b * V b)%R with (V a) by (field; lra). lra.
Qed.

(** ** The square root of two *)

Lemma square_mod10 n t : n * n = 10 * t -> n mod 10 = 0.
Proof.
  intros H. pose proof (Z.div_mod n 10 ltac:(lia)) as Hd.
  pose proof (Z.mod_pos_bound n 10 ltac:(lia)) as Hb.
  set (q := n / 10) in *. set (r := n mod 10) in *.
  assert (Hr : r * r = 10 * (t - 10 * q * q - 2 * q * r)) by nia.
  assert (r = 0 \/ r = 1 \/ r = 2 \/ r = 3 \/ r = 4 \/ r = 5 \/ r = 6 \/ r = 7 \/ r = 8 \/ r = 9)
    as C by lia.
  repeat (destruct C as [C|C]; [rewrite C in Hr; lia|]). rewrite C in Hr; lia.
Qed.

(** No square is twice a power of one hundred. *)
Lemma two_not_square (P : nat) : forall n, n * n <> 2 * 100 ^ Z.of_nat P.
Proof.
  induction P as [|P IH]; intros n H.
  - simpl in H. assert (-2 < n < 2) by nia.
    assert (n = -1 \/ n = 0 \/ n = 1) as [->|[->| ->]] by lia; lia.
  - rewrite Nat2Z.inj_succ, Z.pow_succ_r in H by lia.
    assert (Hm : n mod 10 = 0) by (apply (square_mod10 n (2 * 10 * 100 ^ Z.of_nat P)); lia).
    pose proof (Z.div_mod n 10 ltac:(lia)) as Hd. rewrite Hm in Hd.
    apply (IH (n / 10)). nia.
Qed.

Lemma sqrt_raw_two ctx :
  wf_context ctx ->
  exists n, sqrt_raw ctx (Decimal_of_int 2) = mkDec n (- prec ctx) /\
            14 * 10 ^ (prec ctx - 1) <= n <= 15 * 10 ^ (prec ctx - 1).
Proof.
  intros [Hp HE]. unfold sqrt_raw, Decimal_of_int. cbn [_int _exp].
  change (Z.odd 0) with false. cbv iota.
  change (ndigits 2) with 1. change ((1 + 1) / 2) with 1. change (0 / 2) with 0.
  replace (prec ctx + 1 - 1) with (prec ctx) by lia.
  destruct (Z.leb_spec 0 (prec ctx)) as [_|?]; [|lia].
  set (c := 2 * 100 ^ prec ctx). set (n := Z.sqrt c).
  pose proof (Zpow10_gt0 (prec ctx - 1) ltac:(lia)) as Hpp.
  assert (Hc : c = 200 * (10 ^ (prec ctx - 1) * 10 ^ (prec ctx - 1))).
  { unfold c. replace (prec ctx) with (Z.succ (prec ctx - 1)) at 1 by lia.
    rewrite Z.pow_succ_r by lia. change 100 with (10 * 10).
    rewrite Z.pow_mul_l. lia. }
  assert (Hc0 : 0 <= c) by nia.
  pose proof (Z.sqrt_spec c Hc0) as [S1 S2]. fold n in S1, S2.
  assert (Hn0 : 0 <= n) by apply Z.sqrt_nonneg.
  assert (Hne : (n * n =? c) = false).
  { apply Z.eqb_neq. unfold c. rewrite <- (Z2Nat.id (prec ctx)) by lia.
    apply two_not_square. }
  rewrite Hne. cbn [andb].
  exists (if n mod 5 =? 0 then n + 1 else n). split; [f_equal; lia|].
  assert (14 * 10 ^ (prec ctx - 1) <= n < 15 * 10 ^ (prec ctx - 1)) by nia.
  destruct (n mod 5 =? 0); lia.
Qed.

Lemma dec_value c e : V (mkDec c e) = (IZR c * pow10 e)%R.
Proof. reflexivity. Qed.

Lemma pow10_m1 : pow10 (-1) = (/ 10)%R.
Proof. unfold pow10. simpl. f_equal. lra. Qed.

Lemma repr_small ctx c e n :
  0 <= c < 10 ^ n -> 0 <= n <= prec ctx -> Etiny ctx <= e -> repr ctx (mkDec c e).
Proof.
  intros Hc Hn He. split; auto. cbn [_int].
  assert (10 ^ n <= 10 ^ prec ctx) by (apply Z.pow_le_mono_r; lia). lia.
Qed.

Lemma Decimal_sqrt_two ctx :
  wf_context ctx -> 2 <= prec ctx -> Emin ctx <= -1 ->
  exists root, Decimal_sqrt (Decimal_of_int 2) ctx = (ctx, Ok root) /\
    repr ctx root /\ (14 / 10 <= V root <= 15 / 10)%R.
Proof.
  intros Hwf Hp2 Hem. pose proof Hwf as [Hp HE].
  unfold Decimal_sqrt, with_context. cbn [Decimal_of_int _int]. change (2 =? 0) with false.
  cbv iota.
  set (ctx' := {| prec := prec ctx; rounding := ROUND_HALF_EVEN;
                  Emin := Emin ctx; Emax := Emax ctx |}).
  assert (Hwf' : wf_context ctx') by exact Hwf.
  destruct (sqrt_raw_two ctx Hwf) as (n & -> & Hn).
  pose proof (Zpow10_gt0 (prec ctx - 1) ltac:(lia)) as Hpp.
  assert (Hval : (14 / 10 <= V (mkDec n (- prec ctx)) <= 15 / 10)%R).
  { rewrite dec_value.
    replace (- prec ctx) with (-1 - (prec ctx - 1)) by lia.
    rewrite pow10_sub, pow10_m1, pow10_IZR by lia.
    destruct Hn as [H1 H2]. apply IZR_le in H1, H2. rewrite mult_IZR in H1, H2.
    assert (0 < IZR (10 ^ (prec ctx - 1)))%R by (apply IZR_lt; lia).
    split.
    - apply Rmult_le_reg_r with (IZR (10 ^ (prec ctx - 1))); auto.
      field_simplify; lra.
    - apply Rmult_le_reg_r with (IZR (10 ^ (prec ctx - 1))); auto.
      field_simplify; lra. }
  assert (Hnpos : 0 < _int (mkDec n (- prec ctx))) by (cbn [_int]; lia).
  assert (Hnpos' : 0 <= _int (mkDec n (- prec ctx))) by lia.
  destruct (fix_ok ctx' (mkDec n (- prec ctx)) Hwf' Hnpos') as [root Hr].
  { apply adjusted_lt; [exact Hnpos|].
    apply Rle_lt_trans with (15 / 10)%R; [tauto|].
    apply Rlt_le_trans with (pow10 1); [rewrite pow10_1; lra|].
    apply pow10_le. cbn [Emax ctx']. lia. }
  exists root. rewrite Hr. split; auto.
  destruct (fix_value ctx' _ root Hwf' Hnpos Hr) as (_ & Hrep & _).
  split; [exact Hrep|].
  assert (Hy1 : repr ctx' (mkDec 14 (-1))).
  { apply (repr_small ctx' 14 (-1) 2); cbn; unfold Etiny; cbn; lia. }
  assert (Hy2 : repr ctx' (mkDec 15 (-1))).
  { apply (repr_small ctx' 15 (-1) 2); cbn; unfold Etiny; cbn; lia. }
  destruct (fix_faithful ctx' _ root _ Hwf' Hnpos' Hr Hy1) as [_ F1].
  destruct (fix_faithful ctx' _ root _ Hwf' Hnpos' Hr Hy2) as [F2 _].
  rewrite (dec_value 14), pow10_m1 in F1. rewrite (dec_value 15), pow10_m1 in F2.
  split; [apply Rle_trans with (14 * / 10)%R; [lra|apply F1; lra]
         |apply Rle_trans with (15 * / 10)%R; [apply F2; lra|lra]].
Qed.

Lemma div_bounds ctx a b lo hi :
  wf_context ctx -> 0 < _int a -> 0 < _int b -> repr ctx lo -> repr ctx hi ->
  (V lo * V b <= V a <= V hi * V b)%R -> (V hi < pow10 (Emax ctx))%R ->
  exists r, Decimal_div a b ctx = (ctx, Ok r) /\ repr ctx r /\ 0 <= _int r /\
            (V lo <= V r <= V hi)%R.
Proof.
  intros Hwf Ha Hb Hlo Hhi [H1 H2] Hmax.
  unfold Decimal_div, with_context.
  destruct (Z.eqb_spec (_int b) 0) as [?|_]; [lia|].
  destruct (div_raw_spec ctx a b Hwf Ha Hb) as [Hd Hcase].
  pose proof (V_pos b Hb) as Hvb.
  assert (Hx1 : (V lo <= V a / V b)%R).
  { apply Rmult_le_reg_r with (V b); auto.
    replace (V a / V b * V b)%R with (V a) by (field; lra). lra. }
  assert (Hx2 : (V a / V b <= V hi)%R).
  { apply Rmult_le_reg_r with (V b); auto.
    replace (V a / V b * V b)%R with (V a) by (field; lra). lra. }
  assert (Hdhi : (V (div_raw ctx a b) <= V hi)%R).
  { destruct Hcase as [->|[Hn Hab]]; auto.
    now apply (sticky_sides ctx _ _ hi Hwf Hd Hn Hab Hhi). }
  destruct (fix_ok ctx (div_raw ctx a b) Hwf ltac:(lia)) as [r Hr].
  { apply adjusted_lt; auto. lra. }
  exists r. rewrite Hr. split; auto.
  destruct (fix_value ctx _ r Hwf Hd Hr) as (R0 & Rr & _).
  destruct (div_faithful ctx a b r lo Hwf Ha Hb Hr Hlo) as [_ F1].
  destruct (div_faithful ctx a b r hi Hwf Ha Hb Hr Hhi) as [F2 _].
  split; [exact Rr|]. split; [exact R0|]. split; [apply F1|apply F2]; tauto.
Qed.

(** ** The context during a call *)


Lemma readonly_with_context {A} (f : Context -> result A) : readonly (with_context f).
Proof. intros ctx. reflexivity. Qed.

Lemma readonly_ret {A} (a : A) : readonly (ret a).
Proof. intros ctx. reflexivity. Qed.

Lemma readonly_bind {A B} (m : M A) (f : A -> M B) :
  readonly m -> (forall a, readonly (f a)) -> readonly (bind m f).
Proof.
  intros Hm Hf ctx. unfold bind. specialize (Hm ctx).
  destruct (m ctx) as [ctx' [a|e]]; cbn in *; subst; auto. apply Hf.
Qed.

Lemma readonly_loop_body k s : readonly (loop_body k s).
Proof.
  unfold loop_body.
  repeat (apply readonly_bind; [apply readonly_with_context|intros ?]).
  apply readonly_with_context.
Qed.

Lemma readonly_for_range n : forall k s, readonly (for_range n k loop_body s).
Proof.
  induction n as [|n IH]; intros k s; cbn [for_range].
  - apply readonly_ret.
  - apply readonly_bind; [apply readonly_loop_body|]. intros a. apply IH.
Qed.

Lemma readonly_pi_approx_of it : readonly (pi_approx_of it).
Proof.
  unfold pi_approx_of.
  do 3 (apply readonly_bind; [apply readonly_with_context|intros ?]).
  apply readonly_bind; [apply readonly_for_range|intros ?].
  apply readonly_bind; [apply readonly_with_context|intros ?].
  apply readonly_with_context.
Qed.

Lemma readonly_1e_minus p : readonly (Decimal_1e_minus p).
Proof. intros ctx. unfold Decimal_1e_minus. destruct (p <? 0); reflexivity. Qed.


Lemma readonly_after_setprec it p : readonly (after_setprec it p).
Proof.
  unfold after_setprec.
  apply readonly_bind; [apply readonly_pi_approx_of|intros ?].
  apply readonly_bind; [apply readonly_1e_minus|intros ?].
  apply readonly_with_context.
Qed.

(** A call either fails in the setter, the context untouched, or runs the
    rest of the function in the context with the new precision, which it
    leaves behind. *)
Lemma calculate_unfold it p ctx :
  calculate_pi_ramanujan it p ctx =
  if (1 <=? p + 10) && (p + 10 <=? MAX_PREC)
  then (with_prec (p + 10) ctx, snd (after_setprec it p (with_prec (p + 10) ctx)))
  else (ctx, Raise (if (p + 10 <? SSIZE_MIN) || (SSIZE_MAX <? p + 10)
                    then OverflowError else ValueError)).
Proof.
  unfold calculate_pi_ramanujan. fold (after_setprec it p).
  unfold bind at 1. unfold setprec.
  destruct ((1 <=? p + 10) && (p + 10 <=? MAX_PREC)) eqn:E;
    destruct ((p + 10 <? SSIZE_MIN) || (SSIZE_MAX <? p + 10)) eqn:E'; auto.
  { unfold SSIZE_MIN, SSIZE_MAX, MAX_PREC in *. lia. }
  pose proof (readonly_after_setprec it p (with_prec (p + 10) ctx)) as H.
  destruct (after_setprec it p (with_prec (p + 10) ctx)) as [c r]. cbn in *. now subst.
Qed.

Lemma with_prec_idem v ctx : with_prec v (with_prec v ctx) = with_prec v ctx.
Proof. reflexivity. Qed.

Theorem repeated_call_same_result ctx it p :
  calculate_pi_ramanujan it p (fst (calculate_pi_ramanujan it p ctx))
  = calculate_pi_ramanujan it p ctx.
Proof.
  rewrite !calculate_unfold.
  destruct ((1 <=? p + 10) && (p + 10 <=? MAX_PREC)) eqn:E; cbn [fst]; rewrite ?E.
  - now rewrite with_prec_idem.
  - reflexivity.
Qed.

Theorem context_after_call ctx it p ctx' r :
  calculate_pi_ramanujan it p ctx = (ctx', Ok r) ->
  prec ctx' = p + 10 /\ rounding ctx' = rounding ctx /\
  Emin ctx' = Emin ctx /\ Emax ctx' = Emax ctx.
Proof.
  rewrite calculate_unfold.
  destruct ((1 <=? p + 10) && (p + 10 <=? MAX_PREC)); [|discriminate].
  intros H. inversion H. cbn. auto.
Qed.

Lemma compute_1_10 q : compute q 1 10 = Ok (mkDec 31415927300 (-10)).
Proof. unfold compute. rewrite calculate_unfold. vm_compute. reflexivity. Qed.

(** ** Factorials *)

Lemma fact_nat_pos n : 1 <= fact_nat n.
Proof. induction n as [|n IH]; cbn [fact_nat]; [lia|]. nia. Qed.

Lemma factorial_pos k : 1 <= factorial k.
Proof. apply fact_nat_pos. Qed.

Lemma factorial_0 : factorial 0 = 1.
Proof. reflexivity. Qed.

(** [n! <= b^n] when [n <= b]. *)
Lemma fact_nat_le_pow b n : Z.of_nat n <= b -> fact_nat n <= b ^ Z.of_nat n.
Proof.
  induction n as [|n IH]; intros Hb; [cbn; lia|].
  cbn [fact_nat]. rewrite Nat2Z.inj_succ, Z.pow_succ_r by lia.
  pose proof (fact_nat_pos n). specialize (IH ltac:(lia)).
  rewrite Nat2Z.inj_succ in *. nia.
Qed.

(** [n! >= b^(n - m)] when [b <= m]: the top [n - m] factors exceed [b]. *)
Lemma fact_nat_ge_pow b m n :
  0 <= b <= Z.of_nat m -> (m <= n)%nat -> b ^ Z.of_nat (n - m) <= fact_nat n.
Proof.
  intros Hb Hmn. induction n as [|n IH].
  - replace (0 - m)%nat with 0%nat by lia. cbn. lia.
  - destruct (Nat.eq_dec m (S n)) as [->|Hne].
    + rewrite Nat.sub_diag. pose proof (fact_nat_pos (S n)). cbn [Z.of_nat Z.pow]. lia.
    + specialize (IH ltac:(lia)).
      replace (S n - m)%nat with (S (n - m)) by lia.
      rewrite Nat2Z.inj_succ, Z.pow_succ_r by lia. cbn [fact_nat].
      assert (0 <= b ^ Z.of_nat (n - m)) by (apply Z.pow_nonneg; lia).
      assert (b <= Z.of_nat (S n)) by lia. nia.
Qed.

(** ** Values of the arithmetic operations *)

Lemma V_mul a b : V (mkDec (_int a * _int b) (_exp a + _exp b)) = (V a * V b)%R.
Proof. unfold V. cbn [_int _exp]. rewrite mult_IZR, pow10_add. ring. Qed.

Lemma V_of_int n : V (Decimal_of_int n) = IZR n.
Proof. unfold V, Decimal_of_int. cbn [_int _exp]. rewrite pow10_0. ring. Qed.

(** The sum that [+] hands to [_fix]. *)
Lemma add_pre ctx a b :
  1 <= prec ctx -> 0 <= _int a -> 0 <= _int b ->
  exists d, Decimal_add a b ctx = (ctx, _fix ctx d) /\ 0 <= _int d /\
            V d = (V a + V b)%R.
Proof.
  intros Hp Ha Hb. unfold Decimal_add, with_context.
  destruct (Z.eqb_spec (_int a) 0) as [Za|Za]; destruct (Z.eqb_spec (_int b) 0) as [Zb|Zb];
    cbn [andb].
  - eexists. split; [reflexivity|]. cbn [_int]. split; [lia|].
    rewrite (V_zero a Za), (V_zero b Zb). unfold V. cbn [_int]. lra.
  - eexists. split; [reflexivity|]. unfold _rescale.
    destruct (Z.eqb_spec (_int b) 0); [lia|].
    destruct (Z.leb_spec (Z.max (Z.min (_exp a) (_exp b)) (_exp b - prec ctx - 1)) (_exp b));
      [|lia].
    cbn [_int]. split.
    + pose proof (Zpow10_gt0 (_exp b - Z.max (Z.min (_exp a) (_exp b)) (_exp b - prec ctx - 1))
                    ltac:(lia)). nia.
    + rewrite (V_zero a Za), (V_scale b _ H). unfold V. cbn [_int _exp]. lra.
  - eexists. split; [reflexivity|]. unfold _rescale.
    destruct (Z.eqb_spec (_int a) 0); [lia|].
    destruct (Z.leb_spec (Z.max (Z.min (_exp a) (_exp b)) (_exp a - prec ctx - 1)) (_exp a));
      [|lia].
    cbn [_int]. split.
    + pose proof (Zpow10_gt0 (_exp a - Z.max (Z.min (_exp a) (_exp b)) (_exp a - prec ctx - 1))
                    ltac:(lia)). nia.
    + rewrite (V_zero b Zb), (V_scale a _ H). unfold V. cbn [_int _exp]. lra.
  - eexists. split; [reflexivity|]. cbn [_int]. split.
    + pose proof (Zpow10_gt0 (_exp a - Z.min (_exp a) (_exp b)) ltac:(lia)).
      pose proof (Zpow10_gt0 (_exp b - Z.min (_exp a) (_exp b)) ltac:(lia)). nia.
    + rewrite (V_scale a (Z.min (_exp a) (_exp b))), (V_scale b (Z.min (_exp a) (_exp b))) by lia.
      unfold V. cbn [_int _exp]. rewrite plus_IZR. ring.
Qed.

Lemma bind_ok {A B} (m : M A) (f : A -> M B) ctx ctx' a :
  m ctx = (ctx', Ok a) -> bind m f ctx = f a ctx'.
Proof. intros H. unfold bind. now rewrite H. Qed.

Lemma bind_raise {A B} (m : M A) (f : A -> M B) ctx ctx' e :
  m ctx = (ctx', Raise e) -> bind m f ctx = (ctx', Raise e).
Proof. intros H. unfold bind. now rewrite H. Qed.

Lemma mul_bounds ctx a b lo hi :
  wf_context ctx -> 0 <= _int a -> 0 <= _int b -> repr ctx lo -> repr ctx hi ->
  (V lo <= V a * V b <= V hi)%R -> (V hi < pow10 (Emax ctx))%R ->
  exists r, Decimal_mul a b ctx = (ctx, Ok r) /\ repr ctx r /\ 0 <= _int r /\
            (V lo <= V r <= V hi)%R.
Proof.
  intros Hwf Ha Hb Hlo Hhi Hv Hmax. unfold Decimal_mul, with_context.
  rewrite <- V_mul in Hv.
  assert (H0 : 0 <= _int (mkDec (_int a * _int b) (_exp a + _exp b))) by (cbn [_int]; nia).
  destruct (fix_bounds ctx _ lo hi Hwf H0 Hlo Hhi Hv Hmax) as (r & Hr & R1 & R2 & R3).
  exists r. now rewrite Hr.
Qed.

Lemma add_bounds ctx a b lo hi :
  wf_context ctx -> 0 <= _int a -> 0 <= _int b -> repr ctx lo -> repr ctx hi ->
  (V lo <= V a + V b <= V hi)%R -> (V hi < pow10 (Emax ctx))%R ->
  exists r, Decimal_add a b ctx = (ctx, Ok r) /\ repr ctx r /\ 0 <= _int r /\
            (V lo <= V r <= V hi)%R.
Proof.
  intros Hwf Ha Hb Hlo Hhi Hv Hmax.
  destruct (add_pre ctx a b (proj1 Hwf) Ha Hb) as (d & Hd & Hd0 & HVd).
  rewrite <- HVd in Hv.
  destruct (fix_bounds ctx _ lo hi Hwf Hd0 Hlo Hhi Hv Hmax) as (r & Hr & R1 & R2 & R3).
  exists r. now rewrite Hd, Hr.
Qed.

(** ** Outcomes *)

Lemma fix_outcome ctx d : wf_context ctx -> 0 <= _int d -> outcome ctx (V d) (_fix ctx d).
Proof.
  intros Hwf Hd. destruct (_fix ctx d) as [r|e] eqn:E.
  - right. exists r. split; auto. unfold faithful.
    split; [|split; [|split]].
    + assert (_int d = 0 \/ 0 < _int d) as [Hz|Hp] by lia.
      * rewrite fix_zero in E by auto. inversion E. destruct Hwf as [Hp HE].
        unfold repr, Etiny. cbn [_int _exp].
        pose proof (Zpow10_gt0 (prec ctx) ltac:(lia)). lia.
      * now destruct (fix_value ctx d r Hwf Hp E) as (_ & Hr & _).
    + assert (_int d = 0 \/ 0 < _int d) as [Hz|Hp] by lia.
      * rewrite fix_zero in E by auto. inversion E. cbn. lia.
      * now destruct (fix_value ctx d r Hwf Hp E) as (Hr & _).
    + eapply fix_adjusted; eauto.
    + intros y Hy. eapply fix_faithful; eauto.
  - left. apply fix_raises in E. now subst.
Qed.

Lemma mul_outcome ctx a b :
  wf_context ctx -> 0 <= _int a -> 0 <= _int b ->
  exists res, Decimal_mul a b ctx = (ctx, res) /\ outcome ctx (V a * V b) res.
Proof.
  intros Hwf Ha Hb. unfold Decimal_mul, with_context. eexists. split; [reflexivity|].
  rewrite <- V_mul. apply fix_outcome; auto. cbn [_int]. nia.
Qed.

Lemma add_outcome ctx a b :
  wf_context ctx -> 0 <= _int a -> 0 <= _int b ->
  exists res, Decimal_add a b ctx = (ctx, res) /\ outcome ctx (V a + V b) res.
Proof.
  intros Hwf Ha Hb.
  destruct (add_pre ctx a b (proj1 Hwf) Ha Hb) as (d & Hd & Hd0 & HVd).
  eexists. split; [exact Hd|]. rewrite <- HVd. apply fix_outcome; auto.
Qed.

Lemma div_outcome ctx a b :
  wf_context ctx -> 0 < _int a -> 0 < _int b ->
  exists res, Decimal_div a b ctx = (ctx, res) /\ outcome ctx (V a / V b) res.
Proof.
  intros Hwf Ha Hb. unfold Decimal_div, with_context.
  destruct (Z.eqb_spec (_int b) 0) as [?|_]; [lia|].
  eexists. split; [reflexivity|].
  destruct (div_raw_spec ctx a b Hwf Ha Hb) as [Hd Hcase].
  destruct (fix_outcome ctx (div_raw ctx a b) Hwf ltac:(lia)) as [E|(r & E & F)];
    [now left|].
  right. exists r. split; auto.
  destruct F as (F1 & F2 & F3 & F4). split; [|split; [|split]]; auto.
  intros y Hy. destruct Hcase as [He|[Hn Hab]].
  - rewrite <- He. now apply F4.
  - eapply sticky_faithful; eauto.
Qed.

Lemma faithful_ge ctx x r y :
  faithful ctx x r -> repr ctx y -> (V y <= x)%R -> (V y <= V r)%R.
Proof. intros (_ & _ & _ & F) Hy. now apply F. Qed.

Lemma faithful_le ctx x r y :
  faithful ctx x r -> repr ctx y -> (x <= V y)%R -> (V r <= V y)%R.
Proof. intros (_ & _ & _ & F) Hy. now apply F. Qed.

(** ** Powers *)

Lemma repr_unit ctx e : wf_context ctx -> 0 <= e -> repr ctx (mkDec 1 e).
Proof.
  intros [Hp HE] He. apply (repr_small ctx 1 e 1); try lia.
  unfold Etiny. lia.
Qed.

Lemma V_unit e : V (mkDec 1 e) = pow10 e.
Proof. unfold V. cbn [_int _exp]. ring. Qed.

Lemma pow_context_wf ctx n : wf_context ctx -> wf_context (pow_context ctx n).
Proof.
  intros [Hp HE]. unfold wf_context, pow_context, MIN_EMIN, MAX_EMAX.
  cbn [prec Emin Emax]. pose proof (ndigits_pos n). lia.
Qed.

(** The powers of [1] are exact. *)
Lemma pow_uint_one ctx n :
  wf_context ctx -> pow_uint ctx (mkDec 1 0) n = Ok (mkDec 1 0).
Proof.
  intros [Hp HE].
  assert (F : _fix ctx (mkDec 1 0) = Ok (mkDec 1 0)).
  { apply fix_id; unfold adjusted, Etiny; cbn [_int _exp]; try lia.
    - change (ndigits 1) with 1. lia.
    - change (ndigits 1) with 1. lia. }
  induction n as [n IH|n IH|]; cbn [pow_uint]; [| |reflexivity];
    rewrite IH; cbn [and_then _int _exp Z.mul Z.add Pos.mul]; rewrite F; auto.
Qed.

(** A power of a base [>= 1] overflows or is [>= 1]. *)
Lemma pow_uint_outcome ctx a :
  wf_context ctx -> 0 <= _int a -> (1 <= V a)%R ->
  forall n, pow_uint ctx a n = Raise Overflow \/
            exists r, pow_uint ctx a n = Ok r /\ 0 <= _int r /\ (1 <= V r)%R.
Proof.
  intros Hwf Ha Hv.
  assert (Step : forall x y, 0 <= _int x -> 0 <= _int y -> (1 <= V x)%R -> (1 <= V y)%R ->
            _fix ctx (mkDec (_int x * _int y) (_exp x + _exp y)) = Raise Overflow \/
            exists r, _fix ctx (mkDec (_int x * _int y) (_exp x + _exp y)) = Ok r /\
                      0 <= _int r /\ (1 <= V r)%R).
  { intros x y Hx Hy Vx Vy.
    destruct (fix_outcome ctx (mkDec (_int x * _int y) (_exp x + _exp y)) Hwf
                ltac:(cbn [_int]; nia)) as [E|(r & E & F)]; [now left|right].
    exists r. split; [exact E|]. split; [apply F|].
    rewrite <- pow10_0, <- (V_unit 0).
    apply (faithful_ge _ _ _ _ F (repr_unit ctx 0 Hwf ltac:(lia))).
    rewrite V_unit, pow10_0, V_mul. nra. }
  induction n as [n IH|n IH|]; cbn [pow_uint].
  - destruct IH as [->|(r & -> & Hr & Vr)]; [now left|]. cbn [and_then].
    destruct (Step r r Hr Hr Vr Vr) as [->|(s & -> & Hs & Vs)]; [now left|].
    cbn [and_then]. apply Step; auto.
  - destruct IH as [->|(r & -> & Hr & Vr)]; [now left|]. cbn [and_then].
    apply Step; auto.
  - right. exists a. auto.
Qed.

(** A power of a base in [1 .. 10^e] that stays below the largest exponent
    has a value, in [1 .. 10^(e * n)]. *)
Lemma pow_uint_bounds ctx a e :
  wf_context ctx -> 0 <= _int a -> (1 <= V a <= pow10 e)%R -> 0 <= e ->
  forall n, e * Z.pos n < Emax ctx ->
  exists r, pow_uint ctx a n = Ok r /\ 0 <= _int r /\ (1 <= V r <= pow10 (e * Z.pos n))%R.
Proof.
  intros Hwf Ha Hv He.
  assert (Step : forall x y i j, 0 <= _int x -> 0 <= _int y -> 0 <= i -> 0 <= j ->
            (1 <= V x <= pow10 i)%R -> (1 <= V y <= pow10 j)%R -> i + j < Emax ctx ->
            exists r, _fix ctx (mkDec (_int x * _int y) (_exp x + _exp y)) = Ok r /\
                      0 <= _int r /\ (1 <= V r <= pow10 (i + j))%R).
  { intros x y i j Hx Hy Hi Hj Vx Vy Hij.
    destruct (fix_bounds ctx (mkDec (_int x * _int y) (_exp x + _exp y))
                (mkDec 1 0) (mkDec 1 (i + j)) Hwf) as (r & E & _ & Hr & Vr).
    - cbn [_int]. nia.
    - apply repr_unit; auto. lia.
    - apply repr_unit; auto. lia.
    - rewrite !V_unit, V_mul, pow10_0, pow10_add.
      pose proof (pow10_pos i). pose proof (pow10_pos j). split; [nra|].
      apply Rmult_le_compat; lra.
    - rewrite V_unit. now apply pow10_lt.
    - exists r. rewrite !V_unit, pow10_0 in Vr. auto. }
  induction n as [n IH|n IH|]; intros Hn; cbn [pow_uint].
  - destruct IH as (r & -> & Hr & Vr); [lia|]. cbn [and_then].
    destruct (Step r r (e * Z.pos n) (e * Z.pos n) Hr Hr) as (s & -> & Hs & Vs);
      auto; try lia.
    cbn [and_then].
    destruct (Step s a (e * Z.pos n + e * Z.pos n) e Hs Ha) as (t & -> & Ht & Vt);
      auto; try lia.
    exists t. split; [reflexivity|]. split; [exact Ht|].
    replace (e * Z.pos n~1) with (e * Z.pos n + e * Z.pos n + e) by lia. exact Vt.
  - destruct IH as (r & -> & Hr & Vr); [lia|]. cbn [and_then].
    destruct (Step r r (e * Z.pos n) (e * Z.pos n) Hr Hr) as (s & -> & Hs & Vs);
      auto; try lia.
    exists s. split; [reflexivity|]. split; [exact Hs|].
    replace (e * Z.pos n~0) with (e * Z.pos n + e * Z.pos n) by lia. exact Vs.
  - exists a. split; [reflexivity|]. split; [exact Ha|].
    now replace (e * 1) with e by lia.
Qed.

(** [c ** n] for integers [c >= 1] and [n >= 0]: it overflows, or it is a
    decimal of the context that is [>= 1], and [1] itself when [c = 1] or
    [n = 0]. *)
Lemma pow_outcome ctx c n :
  wf_context ctx -> 1 <= c -> 0 <= n ->
  exists res, Decimal_pow (Decimal_of_int c) n ctx = (ctx, res) /\
    (res = Raise Overflow \/
     exists r, res = Ok r /\
       (repr ctx r /\ 0 <= _int r /\ adjusted r <= Emax ctx /\ (1 <= V r)%R /\
        (c = 1 \/ n = 0 -> V r = 1%R))).
Proof.
  intros Hwf Hc Hn. unfold Decimal_pow, with_context.
  eexists. split; [reflexivity|].
  assert (H1 : repr ctx (mkDec 1 0) /\ 0 <= _int (mkDec 1 0) /\
               adjusted (mkDec 1 0) <= Emax ctx /\ (1 <= V (mkDec 1 0))%R /\
               (c = 1 \/ n = 0 -> V (mkDec 1 0) = 1%R)).
  { split; [apply repr_unit; auto; lia|]. split; [cbn; lia|].
    split; [unfold adjusted; cbn [_int _exp]; change (ndigits 1) with 1;
            destruct Hwf; lia|].
    rewrite V_unit, pow10_0. split; [lra|auto]. }
  destruct (Z.eqb_spec n 0) as [->|Hn0].
  { right. exists (mkDec 1 0). split; [reflexivity|exact H1]. }
  destruct (Z.eq_dec c 1) as [->|Hc1].
  { change (Decimal_of_int 1) with (mkDec 1 0).
    rewrite pow_uint_one by (now apply pow_context_wf). cbn [and_then].
    right. exists (mkDec 1 0). split; [|exact H1].
    destruct Hwf as [Hp HE].
    apply fix_id; unfold adjusted, Etiny; cbn [_int _exp]; change (ndigits 1) with 1; lia. }
  destruct (pow_uint_outcome (pow_context ctx n) (Decimal_of_int c)
              (pow_context_wf ctx n Hwf) ltac:(cbn; lia)
              ltac:(rewrite V_of_int; apply IZR_le; lia) (Z.to_pos n))
    as [->|(r & -> & Hr & Vr)]; [now left|]. cbn [and_then].
  destruct (fix_outcome ctx r Hwf Hr) as [E|(r' & E & F)]; [now left|right].
  exists r'. split; [exact E|].
  destruct F as (F1 & F2 & F3 & F4). repeat (split; auto).
  - rewrite <- pow10_0, <- (V_unit 0).
    apply (F4 _ (repr_unit ctx 0 Hwf ltac:(lia))). now rewrite V_unit, pow10_0.
  - intros [?|?]; lia.
Qed.

(** [c ** n] for an integer base in [1 .. 10^e], when [10^(e * n)] is below
    the largest exponent of the context: it has a value, in
    [1 .. 10^(e * n)]. *)
Lemma pow_bounds ctx c n e :
  wf_context ctx -> 1 <= c -> 0 <= n -> 0 <= e -> c <= 10 ^ e -> e * n < Emax ctx ->
  Emax ctx <= MAX_EMAX ->
  exists r, Decimal_pow (Decimal_of_int c) n ctx = (ctx, Ok r) /\ repr ctx r /\
            0 <= _int r /\ (1 <= V r <= pow10 (e * n))%R.
Proof.
  intros Hwf Hc Hn He Hce Hmax Hwide. unfold Decimal_pow, with_context.
  assert (R1 : repr ctx (mkDec 1 0)) by (apply repr_unit; auto; lia).
  destruct (Z.eqb_spec n 0) as [->|Hn0].
  { exists (mkDec 1 0). split; [reflexivity|]. split; [exact R1|]. split; [cbn; lia|].
    rewrite V_unit, Z.mul_0_r, pow10_0. lra. }
  assert (Hb : (1 <= V (Decimal_of_int c) <= pow10 e)%R).
  { rewrite V_of_int, pow10_IZR by lia. split; apply IZR_le; lia. }
  assert (Hm : e * Z.pos (Z.to_pos n) < Emax (pow_context ctx n)).
  { rewrite Z2Pos.id by lia. cbn [pow_context Emax]. lia. }
  destruct (pow_uint_bounds (pow_context ctx n) (Decimal_of_int c) e
              (pow_context_wf ctx n Hwf) ltac:(cbn; lia) Hb He (Z.to_pos n) Hm)
    as (r & -> & Hr & Vr).
  rewrite Z2Pos.id in Vr by lia. cbn [and_then].
  destruct (fix_bounds ctx r (mkDec 1 0) (mkDec 1 (e * n)) Hwf Hr R1)
    as (r' & E & R' & P' & V').
  - apply repr_unit; auto. nia.
  - now rewrite !V_unit, pow10_0.
  - rewrite V_unit. now apply pow10_lt.
  - exists r'. rewrite !V_unit, pow10_0 in V'. rewrite E. auto.
Qed.

(** ** Rescaling and quantizing *)

Lemma rescale_exp d e mode : _exp (_rescale d e mode) = e.
Proof.
  unfold _rescale.
  repeat match goal with |- context [if ?b then _ else _] => destruct b end; reflexivity.
Qed.

Lemma grid_diff c e m k :
  0 <= k ->
  (V (mkDec m (e + k)) - V (mkDec c e) = IZR (m * 10 ^ k - c) * pow10 e)%R.
Proof.
  intros Hk. unfold V. cbn [_int _exp].
  rewrite minus_IZR, mult_IZR, <- pow10_IZR, (Z.add_comm e k), pow10_add by lia. ring.
Qed.

Lemma grid_abs c e m k :
  0 <= k ->
  (Rabs (V (mkDec m (e + k)) - V (mkDec c e)) = IZR (Z.abs (m * 10 ^ k - c)) * pow10 e)%R.
Proof.
  intros Hk. rewrite grid_diff by auto. rewrite Rabs_mult, <- abs_IZR.
  rewrite (Rabs_pos_eq (pow10 e)); auto. left. apply pow10_pos.
Qed.

(** [_rescale] moves a value by less than one unit of the new last place. *)
Lemma rescale_near d e mode :
  0 <= _int d ->
  0 <= _int (_rescale d e mode) /\ (Rabs (V (_rescale d e mode) - V d) < pow10 e)%R.
Proof.
  intros Hd. pose proof (pow10_pos e) as Hpe. unfold _rescale.
  destruct (Z.eqb_spec (_int d) 0) as [Hz|Hz].
  { cbn [_int]. split; [lia|]. rewrite (V_zero d Hz). unfold V. cbn [_int].
    rewrite Rmult_0_l, Rminus_0_r, Rabs_R0. exact Hpe. }
  assert (Hc : 0 < _int d) by lia.
  destruct (Z.leb_spec e (_exp d)) as [Hle|Hgt].
  { cbn [_int]. split; [pose proof (Zpow10_gt0 (_exp d - e) ltac:(lia)); nia|].
    rewrite (V_scale d e Hle). unfold V at 1. cbn [_int _exp].
    rewrite Rminus_diag, Rabs_R0. exact Hpe. }
  pose proof (ndigits_bounds _ Hc) as [NL NU]. pose proof (ndigits_pos (_int d)) as N1.
  set (k := e - _exp d). assert (Hk : 1 <= k) by (unfold k; lia).
  pose proof (Zpow10_gt0 k ltac:(lia)) as Hpk.
  assert (He : e = _exp d + k) by (unfold k; lia).
  destruct d as [c ed]. cbn [_int _exp] in *.
  destruct (Z.ltb_spec (ndigits c + ed - e) 0) as [Hd0|Hd0].
  - pose proof (round_drop_bounds mode 1 1 ltac:(lia) ltac:(lia)) as [B B0].
    change (10 ^ 1) with 10 in B.
    assert (Hm : round_drop mode 1 1 = 0 \/ round_drop mode 1 1 = 1) by lia.
    cbn [_int]. split; [lia|]. rewrite He, grid_abs by lia.
    replace (pow10 (ed + k)) with (IZR (10 ^ k) * pow10 ed)%R
      by (rewrite (Z.add_comm ed k), pow10_add, (pow10_IZR k) by lia; ring).
    apply Rmult_lt_compat_r; [apply pow10_pos|]. apply IZR_lt.
    assert (c < 10 ^ k).
    { assert (10 ^ ndigits c <= 10 ^ k) by (apply Z.pow_le_mono_r; lia). lia. }
    destruct Hm as [-> | ->]; lia.
  - pose proof (round_drop_bounds mode c k ltac:(lia) ltac:(lia)) as [B B0].
    cbn [_int]. split; [lia|]. rewrite He, grid_abs by lia.
    replace (pow10 (ed + k)) with (IZR (10 ^ k) * pow10 ed)%R
      by (rewrite (Z.add_comm ed k), pow10_add, (pow10_IZR k) by lia; ring).
    apply Rmult_lt_compat_r; [apply pow10_pos|]. apply IZR_lt. lia.
Qed.

(** Under round-half-even, [_rescale] gives the nearest multiple, and the
    even one at a tie. *)
Lemma rescale_half_even d e :
  0 <= _int d ->
  (2 * Rabs (V (_rescale d e ROUND_HALF_EVEN) - V d) <= pow10 e)%R /\
  ((2 * Rabs (V (_rescale d e ROUND_HALF_EVEN) - V d) = pow10 e)%R ->
   Z.even (_int (_rescale d e ROUND_HALF_EVEN)) = true).
Proof.
  intros Hd. pose proof (pow10_pos e) as Hpe. unfold _rescale.
  destruct (Z.eqb_spec (_int d) 0) as [Hz|Hz].
  { cbn [_int]. rewrite (V_zero d Hz). unfold V. cbn [_int].
    rewrite Rmult_0_l, Rminus_0_r, Rabs_R0. split; [lra|]. intros; lra. }
  assert (Hc : 0 < _int d) by lia.
  destruct (Z.leb_spec e (_exp d)) as [Hle|Hgt].
  { rewrite (V_scale d e Hle). unfold V. cbn [_int _exp].
    rewrite Rminus_diag, Rabs_R0. split; [lra|]. intros; lra. }
  pose proof (ndigits_bounds _ Hc) as [NL NU]. pose proof (ndigits_pos (_int d)) as N1.
  set (k := e - _exp d). assert (Hk : 1 <= k) by (unfold k; lia).
  pose proof (Zpow10_gt0 k ltac:(lia)) as Hpk.
  assert (He : e = _exp d + k) by (unfold k; lia).
  destruct d as [c ed]. cbn [_int _exp] in *.
  assert (Hpow : pow10 (ed + k) = (IZR (10 ^ k) * pow10 ed)%R)
    by (rewrite (Z.add_comm ed k), pow10_add, (pow10_IZR k) by lia; ring).
  pose proof (pow10_pos ed) as Hped.
  destruct (Z.ltb_spec (ndigits c + ed - e) 0) as [Hd0|Hd0].
  - change (round_drop ROUND_HALF_EVEN 1 1) with 0. cbn [_int].
    rewrite He, grid_abs, Hpow by lia.
    assert (10 * c < 10 ^ k).
    { assert (10 ^ (ndigits c + 1) <= 10 ^ k) by (apply Z.pow_le_mono_r; lia).
      rewrite Z.pow_add_r in H by lia. change (10 ^ 1) with 10 in H. lia. }
    assert (H2 : 2 * Z.abs (0 * 10 ^ k - c) < 10 ^ k) by lia.
    apply IZR_lt in H2. rewrite mult_IZR in H2.
    split; [nra|]. intros Heq. exfalso. nra.
  - pose proof (round_drop_half_even c k ltac:(lia) ltac:(lia)) as [B1 B2].
    cbn [_int]. rewrite He, grid_abs, Hpow by lia.
    split.
    + apply IZR_le in B1. rewrite mult_IZR in B1. nra.
    + intros Heq. apply B2. apply eq_IZR. rewrite mult_IZR.
      apply Rmult_eq_reg_r with (pow10 ed); [lra|lra].
Qed.

(** A quantization that returns, returns the rescaled operand. *)
Lemma quantize_inv ctx a p r :
  wf_context ctx -> 0 <= _int a ->
  Decimal_quantize a (mkDec 1 (- p)) ctx = (ctx, Ok r) ->
  r = _rescale a (- p) (rounding ctx).
Proof.
  intros Hwf Ha. unfold Decimal_quantize, with_context. cbn [_exp].
  intros H. injection H as H.
  destruct (Z.leb_spec (Etiny ctx) (- p)) as [H1|?]; [|discriminate].
  destruct (Z.leb_spec (- p) (Emax ctx)) as [H2|?]; [|discriminate].
  cbn [andb negb] in H.
  destruct (Z.eqb_spec (_int a) 0) as [Hz|Hz].
  { rewrite fix_zero in H by reflexivity. cbn [_exp] in H. inversion H.
    unfold _rescale. rewrite Hz. cbn. f_equal. lia. }
  destruct (Z.ltb_spec (Emax ctx) (adjusted a)); [discriminate|].
  destruct (Z.ltb_spec (prec ctx) (adjusted a - - p + 1)); [discriminate|].
  set (ans := _rescale a (- p) (rounding ctx)) in *.
  destruct (Z.ltb_spec (Emax ctx) (adjusted ans)); [discriminate|].
  destruct (Z.ltb_spec (prec ctx) (ndigits (_int ans))); [discriminate|].
  pose proof (rescale_exp a (- p) (rounding ctx)) as Hex. fold ans in Hex.
  pose proof (rescale_near a (- p) (rounding ctx) Ha) as [H0' _]. fold ans in H0'.
  assert (_int ans = 0 \/ 0 < _int ans) as [Hz'|Hp'] by lia.
  - rewrite fix_zero in H by auto. inversion H.
    destruct ans as [c e]. cbn [_int _exp] in *. subst. f_equal. lia.
  - rewrite fix_id in H; auto; try lia. congruence.
Qed.

Ltac is_Zconst e :=
  lazymatch e with Z0 => idtac | Zpos _ => idtac | Zneg _ => idtac end;
  let b := eval cbv in (Z.abs e <? 100) in
  lazymatch b with true => idtac end.

(** Decimal constants as real numbers. *)
Ltac Vconst :=
  repeat match goal with
  | |- context [V (mkDec ?c ?e)] =>
      is_Zconst e;
      let t := eval simpl in (powerRZ 10 e) in
      change (V (mkDec c e)) with (IZR c * t)%R
  | H : context [V (mkDec ?c ?e)] |- _ =>
      is_Zconst e;
      let t := eval simpl in (powerRZ 10 e) in
      change (V (mkDec c e)) with (IZR c * t)%R in H
  end.

(** ** The function in a context of the default exponent range *)

Section Pipeline.

Variable ctx : Context.
Hypothesis Hprec : 4 <= prec ctx.
Hypothesis Hemin : Emin ctx = -999999.
Hypothesis Hemax : Emax ctx = 999999.

Lemma ctx_wf : wf_context ctx.
Proof. unfold wf_context. lia. Qed.

Lemma repr_const c e : 0 <= c < 10 ^ 4 -> -1000 <= e -> repr ctx (mkDec c e).
Proof.
  intros Hc He. apply (repr_small ctx c e 4); auto; try lia.
  unfold Etiny. lia.
Qed.

Lemma repr_pow10 e : -1000 <= e -> repr ctx (mkDec 1 e).
Proof. intros He. apply repr_const; auto. lia. Qed.

Lemma V_pow10 e : V (mkDec 1 e) = pow10 e.
Proof. unfold V. cbn [_int _exp]. ring. Qed.

Lemma below_Emax x : (x <= 10000)%R -> (x < pow10 (Emax ctx))%R.
Proof.
  intros H. apply Rle_lt_trans with (pow10 4).
  - unfold pow10. simpl powerRZ. lra.
  - apply pow10_lt. lia.
Qed.

Lemma pow10_below_Emax e : e < 999999 -> (V (mkDec 1 e) < pow10 (Emax ctx))%R.
Proof. intros H. rewrite V_pow10. apply pow10_lt. lia. Qed.

Lemma constant_multiplier_ok :
  exists C,
    (root <- Decimal_sqrt (Decimal_of_int 2) ;;
     twice_root <- Decimal_mul (Decimal_of_int 2) root ;;
     Decimal_div twice_root (Decimal_of_int 9801)) ctx = (ctx, Ok C) /\
    repr ctx C /\ 0 < _int C /\ (28 / 100000 <= V C <= 31 / 100000)%R.
Proof.
  pose proof ctx_wf as Hwf.
  destruct (Decimal_sqrt_two ctx Hwf ltac:(lia) ltac:(lia)) as (root & E1 & R1 & V1).
  rewrite (bind_ok _ _ _ _ _ E1).
  destruct (mul_bounds ctx (Decimal_of_int 2) root (mkDec 28 (-1)) (mkDec 3 0) Hwf)
    as (tw & E2 & R2 & P2 & V2).
  { cbn; lia. } { apply R1. }
  { apply repr_const; lia. } { apply repr_const; lia. }
  { rewrite V_of_int. Vconst. lra. }
  { apply below_Emax. Vconst. lra. }
  rewrite (bind_ok _ _ _ _ _ E2).
  assert (Htw : 0 < _int tw).
  { apply V_pos_inv. apply Rlt_le_trans with (V (mkDec 28 (-1))); [Vconst; lra|tauto]. }
  destruct (div_bounds ctx tw (Decimal_of_int 9801) (mkDec 28 (-5)) (mkDec 31 (-5)) Hwf Htw)
    as (C & E3 & R3 & P3 & V3).
  { cbn; lia. }
  { apply repr_const; lia. } { apply repr_const; lia. }
  { rewrite V_of_int. Vconst. lra. }
  { apply below_Emax. Vconst. lra. }
  exists C. split; [exact E3|]. split; [exact R3|].
  Vconst. split; [|lra].
  apply V_pos_inv. lra.
Qed.

(** An operation that overflowed ends the loop body. *)
Tactic Notation "step" hyp(H) ident(res) ident(E) ident(O) :=
  destruct H as (res & E & O);
  destruct O as [->|O];
  [ rewrite (bind_raise _ _ _ _ _ E); eexists; split; [reflexivity|now left]
  | let r := fresh "r" in
    let F := fresh "F" in
    destruct O as (r & -> & F); rewrite (bind_ok _ _ _ _ _ E) ].

Lemma repr_1 : repr ctx (mkDec 1 0).
Proof. apply repr_const; lia. Qed.

Lemma repr_1103 : repr ctx (mkDec 1103 0).
Proof. apply repr_const; lia. Qed.

Lemma V_1 : V (mkDec 1 0) = 1%R.
Proof. Vconst. lra. Qed.

Lemma V_1103 : V (mkDec 1103 0) = 1103%R.
Proof. Vconst. lra. Qed.

Lemma one_le_IZR n : 1 <= n -> (1 <= IZR n)%R.
Proof. intros H. now apply IZR_le in H. Qed.

(** One turn of the loop, whatever [k]: it overflows, or adds a nonnegative
    term to the sum. *)
Lemma loop_body_outcome k S :
  0 <= k -> repr ctx S -> 0 <= _int S ->
  exists res, loop_body k S ctx = (ctx, res) /\
    (res = Raise Overflow \/
     exists S', res = Ok S' /\ repr ctx S' /\ 0 <= _int S' /\ adjusted S' <= Emax ctx /\
                (V S <= V S')%R /\ (k = 0 -> (1103 <= V S')%R)).
Proof.
  intros Hk HS HS0. pose proof ctx_wf as Hwf. unfold loop_body.
  pose proof (factorial_pos (4 * k)) as Hf4. pose proof (factorial_pos k) as Hf1.
  assert (Hlin : 1 <= 1103 + 26390 * k) by lia.
  (* numerator_term *)
  pose proof (mul_outcome ctx (Decimal_of_int (factorial (4 * k)))
                (Decimal_of_int (1103 + 26390 * k)) Hwf
                ltac:(unfold Decimal_of_int; cbn [_int]; lia)
                ltac:(unfold Decimal_of_int; cbn [_int]; lia)) as H1.
  rewrite !V_of_int in H1. step H1 res1 E1 O1. rename r into N, F into FN.
  assert (HN1 : (1 <= V N)%R).
  { rewrite <- V_1. apply (faithful_ge _ _ _ _ FN repr_1). rewrite V_1.
    rewrite <- mult_IZR. apply one_le_IZR. nia. }
  assert (HN0 : k = 0 -> (1103 <= V N)%R).
  { intros ->. rewrite <- V_1103. apply (faithful_ge _ _ _ _ FN repr_1103).
    rewrite V_1103. change (factorial (4 * 0)) with 1. change (1103 + 26390 * 0) with 1103.
    lra. }
  (* denominator_factorial_pow *)
  pose proof (pow_outcome ctx (factorial k) 4 Hwf ltac:(lia) ltac:(lia)) as H2.
  step H2 res2 E2 O2. rename r into P1, F into FP1.
  assert (HP1 : (1 <= V P1)%R) by apply FP1.
  assert (HP10 : k = 0 -> (V P1 <= 1)%R).
  { intros ->. right. apply FP1. now left. }
  (* denominator_power_term *)
  pose proof (pow_outcome ctx 396 (4 * k) Hwf ltac:(lia) ltac:(lia)) as H3.
  step H3 res3 E3 O3. rename r into P2, F into FP2.
  assert (HP2 : (1 <= V P2)%R) by apply FP2.
  assert (HP20 : k = 0 -> (V P2 <= 1)%R).
  { intros ->. right. apply FP2. now right. }
  (* denominator_term *)
  pose proof (mul_outcome ctx P1 P2 Hwf (proj1 (proj2 FP1)) (proj1 (proj2 FP2))) as H4.
  step H4 res4 E4 O4. rename r into D, F into FD.
  assert (HD : (1 <= V D)%R).
  { rewrite <- V_1. apply (faithful_ge _ _ _ _ FD repr_1). rewrite V_1. nra. }
  assert (HD0 : k = 0 -> (V D <= 1)%R).
  { intros K. rewrite <- V_1. apply (faithful_le _ _ _ _ FD repr_1). rewrite V_1.
    specialize (HP10 K). specialize (HP20 K). nra. }
  (* current_term *)
  assert (HNp : 0 < _int N) by (apply V_pos_inv; lra).
  assert (HDp : 0 < _int D) by (apply V_pos_inv; lra).
  pose proof (div_outcome ctx N D Hwf HNp HDp) as H5.
  step H5 res5 E5 O5. rename r into t, F into Ft.
  assert (Ht0 : k = 0 -> (1103 <= V t)%R).
  { intros K. rewrite <- V_1103. apply (faithful_ge _ _ _ _ Ft repr_1103). rewrite V_1103.
    specialize (HN0 K). specialize (HD0 K).
    assert (V D = 1)%R by lra. rewrite H. lra. }
  (* sum_val *)
  pose proof (add_outcome ctx S t Hwf HS0 (proj1 (proj2 Ft))) as H6.
  destruct H6 as (res6 & E6 & O6). exists res6. split; [exact E6|].
  destruct O6 as [->|(S' & -> & FS)]; [now left|right].
  exists S'. split; [reflexivity|].
  destruct FS as (FS1 & FS2 & FS3 & FS4).
  split; [exact FS1|]. split; [exact FS2|]. split; [exact FS3|].
  pose proof (V_nonneg t (proj1 (proj2 Ft))) as Htn.
  pose proof (V_nonneg S HS0) as HSn.
  split.
  - apply (FS4 S HS). lra.
  - intros K. rewrite <- V_1103. apply (FS4 _ repr_1103). rewrite V_1103.
    specialize (Ht0 K). lra.
Qed.

Lemma loop_outcome n : forall k S,
  0 <= k -> repr ctx S -> 0 <= _int S ->
  exists res, for_range n k loop_body S ctx = (ctx, res) /\
    (res = Raise Overflow \/
     exists S', res = Ok S' /\ repr ctx S' /\ 0 <= _int S' /\
                (n <> O -> adjusted S' <= Emax ctx) /\
                (V S <= V S')%R /\ (n <> O -> k = 0 -> (1103 <= V S')%R)).
Proof.
  induction n as [|n IH]; intros k S Hk HS HS0; cbn [for_range].
  - eexists. split; [reflexivity|]. right. exists S.
    split; [reflexivity|]. split; [exact HS|]. split; [exact HS0|].
    split; [congruence|]. split; [lra|congruence].
  - destruct (loop_body_outcome k S Hk HS HS0) as (res & E & O).
    destruct O as [->|(S1 & -> & R1 & P1 & A1 & L1 & K1)].
    + rewrite (bind_raise _ _ _ _ _ E). eexists. split; [reflexivity|now left].
    + rewrite (bind_ok _ _ _ _ _ E).
      destruct (IH (k + 1) S1 ltac:(lia) R1 P1) as (res' & E' & O').
      exists res'. split; [exact E'|].
      destruct O' as [->|(S2 & -> & R2 & P2 & A2 & L2 & K2)]; [now left|right].
      exists S2. split; [reflexivity|]. split; [exact R2|]. split; [exact P2|].
      split; [|split].
      * intros _. destruct n; [|apply A2; congruence].
        cbn [for_range] in E'. inversion E'. now subst.
      * lra.
      * intros _ K. specialize (K1 K). lra.
Qed.

(** ** Inside the exponent range *)

Lemma fact_nat_pow10 n e :
  Z.of_nat n <= 10 ^ 6 -> 6 * Z.of_nat n <= e -> fact_nat n <= 10 ^ e.
Proof.
  intros Hn He. pose proof (fact_nat_le_pow (10 ^ 6) n Hn) as H.
  rewrite <- Z.pow_mul_r in H by lia.
  assert (10 ^ (6 * Z.of_nat n) <= 10 ^ e) by (apply Z.pow_le_mono_r; lia). lia.
Qed.

Lemma fact_nat_pow10_5 n e :
  Z.of_nat n <= 10 ^ 5 -> 5 * Z.of_nat n <= e -> fact_nat n <= 10 ^ e.
Proof.
  intros Hn He. pose proof (fact_nat_le_pow (10 ^ 5) n Hn) as H.
  rewrite <- Z.pow_mul_r in H by lia.
  assert (10 ^ (5 * Z.of_nat n) <= 10 ^ e) by (apply Z.pow_le_mono_r; lia). lia.
Qed.

Lemma IZR_le_pow10 c e : 0 <= e -> c <= 10 ^ e -> (IZR c <= pow10 e)%R.
Proof. intros He H. rewrite pow10_IZR by lia. now apply IZR_le. Qed.

(** The quantities of turn [k < 30000] of the loop, bounded by powers of ten
    below the largest exponent. *)
Lemma numerator_bound k e :
  0 <= k < 30000 -> 720010 <= e ->
  factorial (4 * k) * (1103 + 26390 * k) <= 10 ^ e.
Proof.
  intros Hk He. unfold factorial.
  assert (H1 : fact_nat (Z.to_nat (4 * k)) <= 10 ^ (e - 10)).
  { apply fact_nat_pow10; rewrite Z2Nat.id by lia; lia. }
  assert (H2 : 1103 + 26390 * k <= 10 ^ 10) by lia.
  replace e with ((e - 10) + 10) at 1 by lia.
  rewrite Z.pow_add_r by lia.
  pose proof (fact_nat_pos (Z.to_nat (4 * k))).
  assert (H3 : 0 < 10 ^ (e - 10)) by (apply Zpow10_gt0; lia).
  set (A := fact_nat (Z.to_nat (4 * k))) in *. set (B := 10 ^ (e - 10)) in *.
  nia.
Qed.

Lemma factorial_pow_bound k e :
  0 <= k < 30000 -> 150000 <= e -> factorial k ^ 4 <= 10 ^ (4 * e).
Proof.
  intros Hk He. unfold factorial.
  assert (H1 : fact_nat (Z.to_nat k) <= 10 ^ e).
  { apply fact_nat_pow10_5; rewrite Z2Nat.id by lia; lia. }
  pose proof (fact_nat_pos (Z.to_nat k)).
  rewrite (Z.mul_comm 4 e), Z.pow_mul_r by lia.
  apply Z.pow_le_mono_l. lia.
Qed.

Lemma factorial_bound k : 0 <= k < 30000 -> factorial k <= 10 ^ 150000.
Proof.
  intros Hk. unfold factorial.
  apply fact_nat_pow10_5; rewrite Z2Nat.id by lia; lia.
Qed.

Lemma power_term_bound k e :
  0 <= k < 30000 -> 360000 <= e -> 396 ^ (4 * k) <= 10 ^ e.
Proof.
  intros Hk He.
  assert (H1 : 396 ^ (4 * k) <= 1000 ^ (4 * k)) by (apply Z.pow_le_mono_l; lia).
  change 1000 with (10 ^ 3) in H1. rewrite <- Z.pow_mul_r in H1 by lia.
  assert (10 ^ (3 * (4 * k)) <= 10 ^ e) by (apply Z.pow_le_mono_r; lia). lia.
Qed.

Lemma repr_0 : repr ctx (mkDec 0 0).
Proof. apply repr_const; lia. Qed.

Lemma V_0 : V (mkDec 0 0) = 0%R.
Proof. Vconst. lra. Qed.

(** Turn [k < 30000] of the loop does not overflow. *)
Lemma loop_body_ok k S :
  0 <= k < 30000 -> repr ctx S -> 0 <= _int S -> (V S <= pow10 (720010 + k))%R ->
  exists S', loop_body k S ctx = (ctx, Ok S') /\ (V S' <= pow10 (720011 + k))%R.
Proof.
  intros Hk HS HS0 HSb. pose proof ctx_wf as Hwf. unfold loop_body.
  pose proof (factorial_pos (4 * k)) as Hf4. pose proof (factorial_pos k) as Hf1.
  assert (Hlin : 1 <= 1103 + 26390 * k) by lia.
  (* numerator_term *)
  destruct (mul_bounds ctx (Decimal_of_int (factorial (4 * k)))
              (Decimal_of_int (1103 + 26390 * k)) (mkDec 1 0) (mkDec 1 720010) Hwf)
    as (N & E1 & RN & PN & VN).
  { unfold Decimal_of_int; cbn [_int]; lia. }
  { unfold Decimal_of_int; cbn [_int]; lia. }
  { apply repr_1. } { apply repr_pow10; lia. }
  { rewrite !V_of_int, V_1, V_pow10, <- mult_IZR. split.
    - apply one_le_IZR. nia.
    - apply IZR_le_pow10; [lia|]. apply numerator_bound; lia. }
  { apply pow10_below_Emax; lia. }
  rewrite (bind_ok _ _ _ _ _ E1). rewrite V_1, V_pow10 in VN.
  (* denominator_factorial_pow *)
  destruct (pow_bounds ctx (factorial k) 4 150000 Hwf Hf1 ltac:(lia) ltac:(lia)
              (factorial_bound k ltac:(lia)) ltac:(rewrite Hemax; reflexivity)
              ltac:(rewrite Hemax; unfold MAX_EMAX; lia))
    as (P1 & E2 & RP1 & PP1 & VP1).
  rewrite (bind_ok _ _ _ _ _ E2). change (150000 * 4) with 600000 in VP1.
  (* denominator_power_term *)
  destruct (pow_bounds ctx 396 (4 * k) 3 Hwf ltac:(lia) ltac:(lia) ltac:(lia)
              ltac:(change (10 ^ 3) with 1000; lia) ltac:(lia)
              ltac:(rewrite Hemax; unfold MAX_EMAX; lia))
    as (P2 & E3 & RP2 & PP2 & VP2).
  rewrite (bind_ok _ _ _ _ _ E3).
  assert (VP2' : (1 <= V P2 <= pow10 360000)%R).
  { split; [apply VP2|]. eapply Rle_trans; [apply VP2|]. apply pow10_le. lia. }
  clear VP2. rename VP2' into VP2.
  (* denominator_term *)
  destruct (mul_bounds ctx P1 P2 (mkDec 1 0) (mkDec 1 960000) Hwf PP1 PP2)
    as (D & E4 & RD & PD & VD).
  { apply repr_1. } { apply repr_pow10; lia. }
  { rewrite V_1, V_pow10. split; [nra|].
    replace 960000 with (600000 + 360000) by lia. rewrite pow10_add.
    pose proof (pow10_pos 600000). pose proof (pow10_pos 360000).
    apply Rmult_le_compat; lra. }
  { apply pow10_below_Emax; lia. }
  rewrite (bind_ok _ _ _ _ _ E4). rewrite V_1, V_pow10 in VD.
  (* current_term *)
  assert (HNp : 0 < _int N) by (apply V_pos_inv; lra).
  assert (HDp : 0 < _int D) by (apply V_pos_inv; lra).
  destruct (div_bounds ctx N D (mkDec 0 0) (mkDec 1 720010) Hwf HNp HDp)
    as (t & E5 & Rt & Pt & Vt).
  { apply repr_0. } { apply repr_pow10; lia. }
  { rewrite V_0, V_pow10. pose proof (pow10_pos 720010). split; [lra|nra]. }
  { apply pow10_below_Emax; lia. }
  rewrite (bind_ok _ _ _ _ _ E5). rewrite V_0, V_pow10 in Vt.
  (* sum_val *)
  destruct (add_bounds ctx S t S (mkDec 1 (720011 + k)) Hwf HS0 Pt HS)
    as (S' & E6 & RS & PS & VS).
  { apply repr_pow10; lia. }
  { rewrite V_pow10. split; [lra|].
    replace (720011 + k) with ((720010 + k) + 1) by lia. rewrite pow10_succ.
    assert (pow10 720010 <= pow10 (720010 + k))%R by (apply pow10_le; lia).
    lra. }
  { apply pow10_below_Emax; lia. }
  exists S'. split; [exact E6|]. rewrite V_pow10 in VS. tauto.
Qed.

Lemma loop_ok n : forall k S,
  0 <= k -> k + Z.of_nat n <= 30000 -> repr ctx S -> 0 <= _int S ->
  (V S <= pow10 (720010 + k))%R ->
  exists S', for_range n k loop_body S ctx = (ctx, Ok S').
Proof.
  induction n as [|n IH]; intros k S Hk Hn HS HS0 HSb; cbn [for_range].
  - now exists S.
  - destruct (loop_body_ok k S ltac:(lia) HS HS0 HSb) as (S1 & E & B).
    rewrite (bind_ok _ _ _ _ _ E).
    destruct (loop_body_outcome k S Hk HS HS0) as (res & E' & O).
    rewrite E in E'. inversion E'; subst res.
    destruct O as [?|(S1' & Heq & R1 & P1 & _)]; [discriminate|].
    inversion Heq; subst S1'.
    apply IH; auto; try lia.
    replace (720010 + (k + 1)) with (720011 + k) by lia. exact B.
Qed.

(** ** From the sum to [pi_approx] *)

Lemma reciprocal_ok C S :
  repr ctx C -> 0 < _int C -> (28 / 100000 <= V C <= 31 / 100000)%R ->
  repr ctx S -> 0 <= _int S -> adjusted S <= Emax ctx -> (1103 <= V S)%R ->
  exists a,
    (one_over_pi <- Decimal_mul C S ;; Decimal_div (Decimal_of_int 1) one_over_pi) ctx
      = (ctx, Ok a) /\
    repr ctx a /\ 0 <= _int a /\ (V a <= 34 / 10)%R.
Proof.
  intros RC PC VC RS PS AS VS. pose proof ctx_wf as Hwf.
  assert (HSp : 0 < _int S) by (apply V_pos_inv; lra).
  assert (HSu : (V S < pow10 (Emax ctx + 1))%R).
  { pose proof (V_adjusted S HSp) as [_ U].
    eapply Rlt_le_trans; [exact U|]. apply pow10_le. lia. }
  destruct (mul_bounds ctx C S (mkDec 3 (-1)) (mkDec 1 (Emax ctx - 2)) Hwf)
    as (x & E1 & Rx & Px & Vx); try lia.
  { apply repr_const; lia. } { apply repr_pow10; lia. }
  { rewrite V_pow10. Vconst. split; [nra|].
    replace (Emax ctx + 1) with ((Emax ctx - 2) + 3) in HSu by lia.
    rewrite pow10_add in HSu.
    replace (pow10 3) with 1000%R in HSu by (unfold pow10; simpl; lra).
    pose proof (pow10_pos (Emax ctx - 2)). nra. }
  { rewrite V_pow10. apply pow10_lt. lia. }
  rewrite (bind_ok _ _ _ _ _ E1).
  assert (Vx' : (3 / 10 <= V x)%R) by (destruct Vx as [Vx _]; revert Vx; Vconst; lra).
  assert (Hxp : 0 < _int x) by (apply V_pos_inv; lra).
  destruct (div_bounds ctx (Decimal_of_int 1) x (mkDec 0 0) (mkDec 34 (-1)) Hwf)
    as (a & E2 & Ra & Pa & Va); auto.
  { cbn; lia. } { apply repr_0. } { apply repr_const; lia. }
  { rewrite V_of_int, V_0. Vconst. lra. }
  { apply below_Emax. Vconst. lra. }
  exists a. split; [exact E2|]. split; [exact Ra|]. split; [exact Pa|].
  destruct Va as [_ Va]. revert Va. Vconst. lra.
Qed.

(** ** The final quantization *)

Lemma quantize_ok a p :
  0 <= p -> prec ctx = p + 10 -> 0 <= _int a -> (V a <= 34 / 10)%R ->
  exists r, Decimal_quantize a (mkDec 1 (- p)) ctx = (ctx, Ok r) /\ _exp r = - p.
Proof.
  intros Hp Hpr Ha Va. pose proof ctx_wf as Hwf.
  unfold Decimal_quantize, with_context. cbn [_exp].
  destruct (Z.leb_spec (Etiny ctx) (- p)) as [H1|H1]; [|unfold Etiny in H1; lia].
  destruct (Z.leb_spec (- p) (Emax ctx)) as [H2|H2]; [|lia].
  cbn [andb negb].
  destruct (Z.eqb_spec (_int a) 0) as [Hz|Hz].
  { rewrite fix_zero by reflexivity. eexists. split; [reflexivity|]. cbn [_exp]. lia. }
  assert (Hap : 0 < _int a) by lia.
  assert (Hadj : adjusted a < 1).
  { apply adjusted_lt; auto. rewrite pow10_1. lra. }
  destruct (Z.ltb_spec (Emax ctx) (adjusted a)); [lia|].
  destruct (Z.ltb_spec (prec ctx) (adjusted a - - p + 1)); [lia|].
  set (ans := _rescale a (- p) (rounding ctx)).
  pose proof (rescale_exp a (- p) (rounding ctx)) as Hex. fold ans in Hex.
  pose proof (rescale_near a (- p) (rounding ctx) Ha) as [Hq0 Hn]. fold ans in Hq0, Hn.
  assert (Hc : _int ans < 10 ^ (p + 1)).
  { apply Rabs_def2 in Hn. destruct Hn as [Hn _].
    assert (Hle : (pow10 (- p) <= 1)%R).
    { rewrite <- pow10_0. apply pow10_le. lia. }
    assert (Hv : (V ans < 10)%R) by lra.
    unfold V in Hv. rewrite Hex in Hv.
    apply lt_IZR. rewrite <- pow10_IZR by lia.
    replace (p + 1) with (1 + p) by lia. rewrite pow10_add, pow10_1.
    pose proof (pow10_pos p) as Hpp.
    assert (Hinv : (pow10 (- p) * pow10 p = 1)%R).
    { rewrite <- pow10_add. replace (- p + p) with 0 by lia. apply pow10_0. }
    pose proof (pow10_pos (- p)).
    apply Rmult_lt_reg_r with (pow10 (- p)); auto.
    replace (10 * pow10 p * pow10 (- p))%R with (10 * (pow10 (- p) * pow10 p))%R by ring.
    rewrite Hinv. lra. }
  assert (_int ans = 0 \/ 0 < _int ans) as [Hz'|Hp'] by lia.
  - assert (Hnd : ndigits (_int ans) = 1) by (rewrite Hz'; reflexivity).
    unfold adjusted. rewrite Hnd, Hex.
    destruct (Z.ltb_spec (Emax ctx) (- p + 1 - 1)); [lia|].
    destruct (Z.ltb_spec (prec ctx) 1); [lia|].
    rewrite fix_zero by auto. eexists. split; [reflexivity|]. cbn [_exp]. lia.
  - pose proof (ndigits_le (_int ans) (p + 1) Hp' Hc) as Hnd.
    pose proof (ndigits_pos (_int ans)).
    destruct (Z.ltb_spec (Emax ctx) (adjusted ans)) as [A|A];
      [unfold adjusted in A; lia|].
    destruct (Z.ltb_spec (prec ctx) (ndigits (_int ans))); [lia|].
    rewrite fix_id; auto; try lia.
    eexists. split; [reflexivity|]. exact Hex.
Qed.

(** ** The whole function after the assignment to [prec] *)

Lemma repr_Decimal_0 : repr ctx (Decimal_of_int 0).
Proof. apply repr_0. Qed.

(** [pi_approx] for at least one turn of the loop: an overflow, or a
    nonnegative decimal that is at most [3.4]. *)
Lemma pi_approx_outcome it :
  1 <= it ->
  exists res, pi_approx_of it ctx = (ctx, res) /\
    (res = Raise Overflow \/
     exists a, res = Ok a /\ 0 <= _int a /\ (V a <= 34 / 10)%R).
Proof.
  intros Hit. unfold pi_approx_of.
  destruct constant_multiplier_ok as (C & EC & RC & PC & VC).
  unfold bind at 1 2 3. unfold bind at 1 2 in EC.
  destruct (Decimal_sqrt (Decimal_of_int 2) ctx) as [c1 [root|e1]]; [|discriminate].
  destruct (Decimal_mul (Decimal_of_int 2) root c1) as [c2 [tw|e2]]; [|discriminate].
  rewrite EC.
  destruct (loop_outcome (Z.to_nat it) 0 (Decimal_of_int 0) ltac:(lia) repr_Decimal_0
              ltac:(cbn; lia)) as (res & EL & OL).
  destruct OL as [->|(S & -> & RS & PS & AS & _ & KS)].
  - rewrite (bind_raise _ _ _ _ _ EL). eexists. split; [reflexivity|now left].
  - rewrite (bind_ok _ _ _ _ _ EL).
    assert (Hn : Z.to_nat it <> O) by lia.
    destruct (reciprocal_ok C S RC PC VC RS PS (AS Hn) (KS Hn eq_refl))
      as (a & Ea & Ra & Pa & Va).
    exists (Ok a). split; [exact Ea|]. right. exists a. auto.
Qed.

(** For at most 30000 turns it is no overflow. *)
Lemma pi_approx_ok it :
  1 <= it <= 30000 ->
  exists a, pi_approx_of it ctx = (ctx, Ok a) /\ 0 <= _int a /\ (V a <= 34 / 10)%R.
Proof.
  intros Hit. destruct (pi_approx_outcome it ltac:(lia)) as (res & E & O).
  destruct O as [->|(a & -> & Pa & Va)]; [|now exists a].
  exfalso. revert E. unfold pi_approx_of.
  destruct constant_multiplier_ok as (C & EC & RC & PC & VC).
  unfold bind at 1 2 3. unfold bind at 1 2 in EC.
  destruct (Decimal_sqrt (Decimal_of_int 2) ctx) as [c1 [root|e1]]; [|discriminate].
  destruct (Decimal_mul (Decimal_of_int 2) root c1) as [c2 [tw|e2]]; [|discriminate].
  rewrite EC.
  destruct (loop_ok (Z.to_nat it) 0 (Decimal_of_int 0) ltac:(lia) ltac:(lia)
              repr_Decimal_0 ltac:(cbn; lia)) as (S & EL).
  { rewrite V_of_int. pose proof (pow10_pos (720010 + 0)). lra. }
  rewrite (bind_ok _ _ _ _ _ EL).
  destruct (loop_outcome (Z.to_nat it) 0 (Decimal_of_int 0) ltac:(lia) repr_Decimal_0
              ltac:(cbn; lia)) as (res & EL' & OL).
  rewrite EL in EL'. inversion EL'; subst res.
  destruct OL as [?|(S' & HS & RS & PS & AS & _ & KS)]; [discriminate|].
  inversion HS; subst S'.
  assert (Hn : Z.to_nat it <> O) by lia.
  destruct (reciprocal_ok C S RC PC VC RS PS (AS Hn) (KS Hn eq_refl))
    as (a & Ea & Ra & Pa & Va).
  rewrite Ea. discriminate.
Qed.

(** With no turn of the loop the sum is zero and the reciprocal divides by
    zero. *)
Lemma pi_approx_zero it :
  it <= 0 -> pi_approx_of it ctx = (ctx, Raise DivisionByZero).
Proof.
  intros Hit. unfold pi_approx_of.
  destruct constant_multiplier_ok as (C & EC & RC & PC & VC).
  unfold bind at 1 2 3. unfold bind at 1 2 in EC.
  destruct (Decimal_sqrt (Decimal_of_int 2) ctx) as [c1 [root|e1]]; [|discriminate].
  destruct (Decimal_mul (Decimal_of_int 2) root c1) as [c2 [tw|e2]]; [|discriminate].
  rewrite EC.
  replace (Z.to_nat it) with O by lia. cbn [for_range].
  unfold bind, ret, Decimal_mul, Decimal_div, with_context, Decimal_of_int.
  cbn [_int _exp]. rewrite fix_zero by (cbn [_int]; lia).
  cbn [_int]. reflexivity.
Qed.

Lemma after_setprec_outcome it p :
  1 <= it -> 0 <= p -> prec ctx = p + 10 ->
  exists res, after_setprec it p ctx = (ctx, res) /\
    (res = Raise Overflow \/ exists r, res = Ok r /\ _exp r = - p).
Proof.
  intros Hit Hp Hpr. unfold after_setprec.
  destruct (pi_approx_outcome it Hit) as (res & E & O).
  destruct O as [->|(a & -> & Pa & Va)].
  - rewrite (bind_raise _ _ _ _ _ E). eexists. split; [reflexivity|now left].
  - rewrite (bind_ok _ _ _ _ _ E).
    unfold bind, Decimal_1e_minus. destruct (Z.ltb_spec p 0); [lia|].
    destruct (quantize_ok a p Hp Hpr Pa Va) as (r & Er & Xr).
    rewrite Er. eexists. split; [reflexivity|]. right. now exists r.
Qed.

Lemma after_setprec_ok it p :
  1 <= it <= 30000 -> 0 <= p -> prec ctx = p + 10 ->
  exists r, after_setprec it p ctx = (ctx, Ok r) /\ _exp r = - p.
Proof.
  intros Hit Hp Hpr. unfold after_setprec.
  destruct (pi_approx_ok it Hit) as (a & E & Pa & Va).
  rewrite (bind_ok _ _ _ _ _ E).
  unfold bind, Decimal_1e_minus. destruct (Z.ltb_spec p 0); [lia|].
  destruct (quantize_ok a p Hp Hpr Pa Va) as (r & Er & Xr).
  rewrite Er. now exists r.
Qed.

End Pipeline.

(** ** Beyond the exponent range *)

Lemma factorial_ge_pow b m n :
  0 <= b <= m -> m <= n -> b ^ (n - m) <= factorial n.
Proof.
  intros Hb Hmn. unfold factorial.
  pose proof (fact_nat_ge_pow b (Z.to_nat m) (Z.to_nat n)) as H.
  rewrite Z2Nat.id in H by lia.
  specialize (H Hb ltac:(lia)).
  replace (Z.of_nat (Z.to_nat n - Z.to_nat m)) with (n - m) in H by lia.
  exact H.
Qed.

Lemma factorial_ge_pow10 k e :
  99999 <= k -> 0 <= e <= 1000000 -> 10 ^ e <= factorial (4 * k).
Proof.
  intros Hk He.
  pose proof (factorial_ge_pow (10 ^ 5) 100000 (4 * k) ltac:(lia) ltac:(lia)) as H.
  eapply Z.le_trans; [|exact H].
  rewrite <- Z.pow_mul_r by lia.
  apply Z.pow_le_mono_r; lia.
Qed.

Lemma numerator_overflows ctx k :
  Emax ctx = 999999 -> 99999 <= k ->
  Emax ctx < adjusted (mkDec (factorial (4 * k) * (1103 + 26390 * k)) 0).
Proof.
  intros HE Hk. unfold adjusted. cbn [_int _exp].
  assert (Hd : 1000001 <= ndigits (factorial (4 * k) * (1103 + 26390 * k))); [|lia].
  apply ndigits_ge; [|lia].
  eapply Z.le_trans; [apply (factorial_ge_pow10 k); lia|].
  pose proof (factorial_pos (4 * k)). nia.
Qed.

Lemma loop_body_overflows ctx k S :
  Emax ctx = 999999 -> 99999 <= k -> loop_body k S ctx = (ctx, Raise Overflow).
Proof.
  intros HE Hk. unfold loop_body. apply bind_raise.
  unfold Decimal_mul, with_context, Decimal_of_int. cbn [_int _exp].
  rewrite fix_overflow; auto.
  - pose proof (factorial_pos (4 * k)). cbn [_int]. nia.
  - now apply numerator_overflows.
Qed.

Lemma loop_overflows ctx n :
  4 <= prec ctx -> Emin ctx = -999999 -> Emax ctx = 999999 ->
  forall k S, 0 <= k <= 99999 -> 99999 < k + Z.of_nat n -> repr ctx S -> 0 <= _int S ->
  for_range n k loop_body S ctx = (ctx, Raise Overflow).
Proof.
  intros Hp Hmin Hmax. induction n as [|n IH]; intros k S Hk Hn HS HS0.
  - lia.
  - cbn [for_range]. destruct (Z_le_gt_dec 99999 k) as [Hge|Hlt].
    + apply bind_raise. now apply loop_body_overflows.
    + destruct (loop_body_outcome ctx Hp Hmin Hmax k S (proj1 Hk) HS HS0) as (res & E & O).
      destruct O as [->|(S1 & -> & R1 & P1 & _)].
      * now apply bind_raise.
      * rewrite (bind_ok _ _ _ _ _ E). apply IH; auto; lia.
Qed.

(** ** Calls in a thread with the default context *)


Lemma compute_unfold q it p :
  compute q it p =
  if (1 <=? p + 10) && (p + 10 <=? MAX_PREC)
  then snd (after_setprec it p (call_context q p))
  else Raise (if (p + 10 <? SSIZE_MIN) || (SSIZE_MAX <? p + 10)
              then OverflowError else ValueError).
Proof.
  unfold compute. rewrite calculate_unfold.
  destruct ((1 <=? p + 10) && (p + 10 <=? MAX_PREC)); reflexivity.
Qed.

Lemma pi_approx_in_call_unfold q it p :
  pi_approx_in_call q it p =
  if (1 <=? p + 10) && (p + 10 <=? MAX_PREC)
  then snd (pi_approx_of it (call_context q p))
  else Raise (if (p + 10 <? SSIZE_MIN) || (SSIZE_MAX <? p + 10)
              then OverflowError else ValueError).
Proof.
  unfold pi_approx_in_call, bind, setprec.
  destruct ((1 <=? p + 10) && (p + 10 <=? MAX_PREC)) eqn:E;
    destruct ((p + 10 <? SSIZE_MIN) || (SSIZE_MAX <? p + 10)) eqn:E'; try reflexivity.
  unfold SSIZE_MIN, SSIZE_MAX, MAX_PREC in *. lia.
Qed.

Lemma prec_range p :
  -9 <= p <= MAX_PREC - 10 -> (1 <=? p + 10) && (p + 10 <=? MAX_PREC) = true.
Proof.
  intros H. apply andb_true_iff. split; [apply Z.leb_le|apply Z.leb_le]; lia.
Qed.

Lemma prec_out_of_range p :
  p < -9 \/ MAX_PREC - 10 < p -> (1 <=? p + 10) && (p + 10 <=? MAX_PREC) = false.
Proof.
  intros H. apply andb_false_iff.
  destruct H; [left|right]; apply Z.leb_gt; lia.
Qed.

(** The setter of [prec] refuses a working precision outside
    [1 .. MAX_PREC]: with [ValueError] inside the range of [ssize_t], with
    [OverflowError] outside it. *)
Lemma compute_value_error q it p :
  p + 10 < 1 \/ MAX_PREC < p + 10 -> SSIZE_MIN <= p + 10 <= SSIZE_MAX ->
  compute q it p = Raise ValueError.
Proof.
  intros H1 H2. rewrite compute_unfold, prec_out_of_range by lia.
  destruct (Z.ltb_spec (p + 10) SSIZE_MIN); [lia|].
  destruct (Z.ltb_spec SSIZE_MAX (p + 10)); [lia|]. reflexivity.
Qed.

Lemma compute_overflow_error q it p :
  p + 10 < SSIZE_MIN \/ SSIZE_MAX < p + 10 -> compute q it p = Raise OverflowError.
Proof.
  intros H. rewrite compute_unfold, prec_out_of_range
    by (unfold SSIZE_MIN, SSIZE_MAX, MAX_PREC in *; lia).
  destruct (Z.ltb_spec (p + 10) SSIZE_MIN); [reflexivity|].
  destruct (Z.ltb_spec SSIZE_MAX (p + 10)); [reflexivity|lia].
Qed.

(** A call with at least one iteration and a nonnegative precision returns a
    decimal of exponent [-precision], or raises [Overflow] inside the loop,
    or [ValueError] or [OverflowError] in the setter of [prec]. *)
Lemma compute_outcome q it p :
  1 <= it -> 0 <= p ->
  (MAX_PREC - 10 < p /\
   (compute q it p = Raise ValueError \/ compute q it p = Raise OverflowError)) \/
  compute q it p = Raise Overflow \/
  exists r, compute q it p = Ok r /\ _exp r = - p.
Proof.
  intros Hit Hp.
  destruct (Z_le_gt_dec p (MAX_PREC - 10)) as [Hle|Hgt].
  - right. rewrite compute_unfold, prec_range by lia.
    destruct (after_setprec_outcome (call_context q p) ltac:(cbn; lia) eq_refl eq_refl
                it p Hit Hp eq_refl) as (res & E & O).
    rewrite E. cbn [snd]. destruct O as [->|O]; auto.
  - left. split; [lia|].
    destruct (Z_le_gt_dec (p + 10) SSIZE_MAX).
    + left. apply compute_value_error; unfold SSIZE_MIN; lia.
    + right. apply compute_overflow_error; lia.
Qed.

Lemma compute_ok q it p :
  1 <= it <= 30000 -> 0 <= p <= MAX_PREC - 10 ->
  exists r, compute q it p = Ok r /\ _exp r = - p.
Proof.
  intros Hit Hp. rewrite compute_unfold, prec_range by lia.
  destruct (after_setprec_ok (call_context q p) ltac:(cbn; lia) eq_refl eq_refl
              it p Hit ltac:(lia) eq_refl) as (r & E & X).
  rewrite E. now exists r.
Qed.

Lemma compute_overflows q it p :
  100000 <= it -> -6 <= p <= MAX_PREC - 10 -> compute q it p = Raise Overflow.
Proof.
  intros Hit Hp. rewrite compute_unfold, prec_range by lia.
  set (ctx := call_context q p).
  assert (Hprec : 4 <= prec ctx) by (cbn; lia).
  unfold after_setprec. erewrite bind_raise; [reflexivity|].
  unfold pi_approx_of.
  destruct (constant_multiplier_ok ctx Hprec eq_refl eq_refl) as (C & EC & RC & PC & VC).
  unfold bind at 1 2 3. unfold bind at 1 2 in EC.
  destruct (Decimal_sqrt (Decimal_of_int 2) ctx) as [c1 [root|e1]]; [|discriminate].
  destruct (Decimal_mul (Decimal_of_int 2) root c1) as [c2 [tw|e2]]; [|discriminate].
  rewrite EC.
  apply bind_raise.
  apply loop_overflows; auto; try lia.
  - apply repr_Decimal_0; auto.
  - cbn. lia.
Qed.

(** ** The theorems *)

(** C9.  Calling the function twice in succession with identical arguments
    yields identical results: the second call, started in the context that the
    first one left, returns or raises what the first did and leaves the same
    context. *)
Theorem C9_repeated_call ctx it p :
  calculate_pi_ramanujan it p (fst (calculate_pi_ramanujan it p ctx))
  = calculate_pi_ramanujan it p ctx.
Proof. apply repeated_call_same_result. Qed.

(** C4, the claim refuted: after [compute(1, 10)] has returned in a thread
    with the default context, the context is no longer the default one. *)
Lemma C4_context_leaks :
  (exists r, snd (calculate_pi_ramanujan 1 10 DefaultContext) = Ok r) /\
  fst (calculate_pi_ramanujan 1 10 DefaultContext) <> DefaultContext.
Proof.
  rewrite calculate_unfold. cbn [fst snd]. split.
  - eexists. vm_compute. reflexivity.
  - cbn. discriminate.
Qed.

(** C4, amended.  When a call returns, the thread's context has the working
    precision [precision + 10], whatever it had before, and its rounding mode
    and exponent limits are those from before the call. *)
Theorem C4_context_after_call ctx it p ctx' r :
  calculate_pi_ramanujan it p ctx = (ctx', Ok r) ->
  prec ctx' = p + 10 /\ rounding ctx' = rounding ctx /\
  Emin ctx' = Emin ctx /\ Emax ctx' = Emax ctx.
Proof. apply context_after_call. Qed.

Lemma C4_context_after_call_witness :
  calculate_pi_ramanujan 1 10 DefaultContext
  = (with_prec 20 DefaultContext, Ok (mkDec 31415927300 (-10))) /\
  (prec (with_prec 20 DefaultContext) = 10 + 10 /\
   rounding (with_prec 20 DefaultContext) = rounding DefaultContext /\
   Emin (with_prec 20 DefaultContext) = Emin DefaultContext /\
   Emax (with_prec 20 DefaultContext) = Emax DefaultContext).
Proof.
  assert (H : calculate_pi_ramanujan 1 10 DefaultContext
              = (with_prec 20 DefaultContext, Ok (mkDec 31415927300 (-10))))
    by (vm_compute; reflexivity).
  split; [exact H|].
  exact (C4_context_after_call DefaultContext 1 10 _ _ H).
Defined.

(** C3, the claim refuted: [compute(1, 10)] is not [3.1415926536]. *)
Lemma C3_not_pi_to_ten_digits : compute 28 1 10 <> Ok (mkDec 31415926536 (-10)).
Proof. rewrite compute_1_10. discriminate. Qed.

(** C3, amended.  [compute(1, 10)] returns exactly [3.1415927300]: one term
    of the series, which agrees with pi in its first six fractional digits. *)
Theorem C3_compute_1_10 q : compute q 1 10 = Ok (mkDec 31415927300 (-10)).
Proof. apply compute_1_10. Qed.

(** C5, the claim refuted: [compute(100000, 1)] returns no value, it raises
    [decimal.Overflow] when the numerator term passes the largest exponent. *)
Lemma C5_no_value_at_100000 :
  ~ exists r, compute 28 100000 1 = Ok r /\ _exp r = - 1.
Proof.
  rewrite compute_overflows by (unfold MAX_PREC; lia).
  intros (r & H & _). discriminate.
Qed.

(** C5, amended.  For [iterations >= 1] and [precision >= 1], a value that
    the function returns has exactly [precision] digits after the decimal
    point (its exponent is [-precision]); the function returns one whenever
    [iterations <= 30000] and [precision + 10 <= MAX_PREC]; with more
    iterations and [precision + 10 <= MAX_PREC] it returns one or raises
    [Overflow]; with [precision + 10] above [MAX_PREC] the setter of [prec]
    raises [ValueError], and [OverflowError] from [2^63] on. *)
Theorem C5_precision_contract q it p :
  1 <= it -> 1 <= p ->
  (forall r, compute q it p = Ok r -> _exp r = - p) /\
  (it <= 30000 -> p <= MAX_PREC - 10 -> exists r, compute q it p = Ok r /\ _exp r = - p) /\
  (p <= MAX_PREC - 10 ->
   compute q it p = Raise Overflow \/ exists r, compute q it p = Ok r) /\
  (MAX_PREC - 10 < p -> p + 10 < 2 ^ 63 -> compute q it p = Raise ValueError) /\
  (2 ^ 63 <= p + 10 -> compute q it p = Raise OverflowError).
Proof.
  intros Hit Hp.
  split; [|split; [|split; [|split]]].
  - intros r H.
    destruct (compute_outcome q it p Hit ltac:(lia)) as [[_ [E|E]]|[E|(r' & E & X)]];
      congruence.
  - intros H1 H2. apply compute_ok; lia.
  - intros H.
    destruct (compute_outcome q it p Hit ltac:(lia)) as [[? _]|[E|(r' & E & X)]];
      [lia|now left|right; now exists r'].
  - intros H1 H2. apply compute_value_error; unfold SSIZE_MIN, SSIZE_MAX; lia.
  - intros H. apply compute_overflow_error. unfold SSIZE_MAX. lia.
Qed.

Lemma C5_precision_contract_witness :
  1 <= 2 /\ 1 <= 25 /\
  ((forall r, compute 28 2 25 = Ok r -> _exp r = - 25) /\
   (2 <= 30000 -> 25 <= MAX_PREC - 10 ->
    exists r, compute 28 2 25 = Ok r /\ _exp r = - 25) /\
   (25 <= MAX_PREC - 10 ->
    compute 28 2 25 = Raise Overflow \/ exists r, compute 28 2 25 = Ok r) /\
   (MAX_PREC - 10 < 25 -> 25 + 10 < 2 ^ 63 -> compute 28 2 25 = Raise ValueError) /\
   (2 ^ 63 <= 25 + 10 -> compute 28 2 25 = Raise OverflowError)).
Proof.
  split; [lia|]. split; [lia|]. apply (C5_precision_contract 28 2 25); lia.
Defined.

(** C10, the claim refuted: [compute(100000, 1)] does not return normally. *)
Lemma C10_no_normal_return_at_100000 : ~ exists r, compute 28 100000 1 = Ok r.
Proof.
  rewrite compute_overflows by (unfold MAX_PREC; lia).
  intros (r & H). discriminate.
Qed.

(** C10, amended.  For [iterations >= 1] and [precision >= 1] no division in
    the function has a zero divisor: every denominator
    [(k!)^4 * 396^(4k)] is a positive integer, and the function raises neither
    [DivisionByZero] nor [InvalidOperation] (which [0 / 0] would signal).  It
    returns normally whenever [iterations <= 30000] and
    [precision + 10 <= MAX_PREC]; beyond that it can raise [Overflow] or
    [ValueError]. *)
Theorem C10_no_zero_divisor q it p :
  1 <= it -> 1 <= p ->
  (forall k, 0 <= k -> 0 < factorial k ^ 4 * 396 ^ (4 * k)) /\
  compute q it p <> Raise DivisionByZero /\
  compute q it p <> Raise InvalidOperation /\
  (it <= 30000 -> p <= MAX_PREC - 10 -> exists r, compute q it p = Ok r).
Proof.
  intros Hit Hp. split.
  { intros k Hk. pose proof (factorial_pos k).
    assert (0 < factorial k ^ 4) by (apply Z.pow_pos_nonneg; lia).
    assert (0 < 396 ^ (4 * k)) by (apply Z.pow_pos_nonneg; lia). nia. }
  destruct (compute_outcome q it p Hit ltac:(lia)) as [[_ [E|E]]|[E|(r & E & X)]];
    rewrite E; (split; [discriminate|]); (split; [discriminate|]);
    intros H1 H2; rewrite <- E;
    destruct (compute_ok q it p ltac:(lia) ltac:(lia)) as (r' & E' & _); eauto.
Qed.

Lemma C10_no_zero_divisor_witness :
  1 <= 5 /\ 1 <= 50 /\
  ((forall k, 0 <= k -> 0 < factorial k ^ 4 * 396 ^ (4 * k)) /\
   compute 28 5 50 <> Raise DivisionByZero /\
   compute 28 5 50 <> Raise InvalidOperation /\
   (5 <= 30000 -> 50 <= MAX_PREC - 10 -> exists r, compute 28 5 50 = Ok r)).
Proof.
  split; [lia|]. split; [lia|]. apply (C10_no_zero_divisor 28 5 50); lia.
Defined.

(** C6.  The final step rounds [pi_approx] half-even: in a thread with the
    default context, for [iterations >= 1] and [precision >= 1], whenever the
    call has computed [pi_approx] it returns a value, and that value is the
    round-half-even quantization of [pi_approx] at [precision] fractional
    digits. *)
Theorem C6_round_half_even q it p a :
  1 <= it -> 1 <= p -> pi_approx_in_call q it p = Ok a ->
  exists r, compute q it p = Ok r /\ half_even_quantization a p r.
Proof.
  intros Hit Hp Ha. rewrite pi_approx_in_call_unfold in Ha. rewrite compute_unfold.
  destruct ((1 <=? p + 10) && (p + 10 <=? MAX_PREC)); [|discriminate].
  set (ctx := call_context q p) in *.
  assert (Hprec : 4 <= prec ctx) by (cbn; lia).
  assert (Hwf : wf_context ctx) by (apply (ctx_wf ctx); auto).
  destruct (pi_approx_outcome ctx Hprec eq_refl eq_refl it Hit) as (res & E & O).
  rewrite E in Ha. cbn [snd] in Ha. subst res.
  destruct O as [?|(a' & Heq & Pa & Va)]; [discriminate|].
  inversion Heq; subst a'.
  unfold after_setprec. rewrite (bind_ok _ _ _ _ _ E).
  unfold bind, Decimal_1e_minus. destruct (Z.ltb_spec p 0); [lia|].
  destruct (quantize_ok ctx Hprec eq_refl eq_refl a p ltac:(lia) eq_refl Pa Va)
    as (r & Er & Xr).
  rewrite Er. exists r. split; [reflexivity|].
  pose proof (quantize_inv ctx a p r Hwf Pa Er) as Hr.
  change (rounding ctx) with ROUND_HALF_EVEN in Hr.
  pose proof (rescale_half_even a (- p) Pa) as [H1 H2].
  pose proof (rescale_near a (- p) ROUND_HALF_EVEN Pa) as [H0 _].
  rewrite <- Hr in H0, H1, H2.
  split; [exact Xr|]. split; [exact H0|]. split; [exact H1|exact H2].
Qed.

Lemma C6_round_half_even_witness :
  1 <= 1 /\ 1 <= 10 /\
  pi_approx_in_call 28 1 10 = Ok (mkDec 31415927300133056604 (-19)) /\
  exists r, compute 28 1 10 = Ok r /\
            half_even_quantization (mkDec 31415927300133056604 (-19)) 10 r.
Proof.
  assert (H : pi_approx_in_call 28 1 10 = Ok (mkDec 31415927300133056604 (-19)))
    by (vm_compute; reflexivity).
  split; [lia|]. split; [lia|]. split; [exact H|].
  exact (C6_round_half_even 28 1 10 _ ltac:(lia) ltac:(lia) H).
Defined.

(** C2, the claim refuted: the three calls that the claim names do not fail
    with an [InvalidArgument]; two raise [decimal.DivisionByZero] and
    [compute(5, 0)] returns [3]. *)
Lemma C2_out_of_range_calls :
  compute 28 0 50 = Raise DivisionByZero /\
  compute 28 5 0 = Ok (mkDec 3 0) /\
  compute 28 (-1) 10 = Raise DivisionByZero.
Proof. split; [|split]; vm_compute; reflexivity. Qed.

(** C2, amended.  The function validates nothing itself (the interactive
    caller does).  With [iterations < 1] the sum stays zero and the final
    reciprocal raises [DivisionByZero]; with [precision = 0] and
    [1 <= iterations <= 30000] it returns a value with no fractional digit;
    with [-6 <= precision < 0] the quantum [1e--N] is no number and
    [InvalidOperation] is raised; with [precision + 10] outside
    [1 .. MAX_PREC] the setter of [prec] raises [ValueError] as long as
    [precision + 10] is in [-2^63 .. 2^63 - 1], and [OverflowError] beyond
    that. *)
Theorem C2_no_validation q it p :
  (it <= 0 -> -6 <= p <= MAX_PREC - 10 -> compute q it p = Raise DivisionByZero) /\
  (1 <= it <= 30000 -> p = 0 -> exists r, compute q it p = Ok r /\ _exp r = 0) /\
  (1 <= it <= 30000 -> -6 <= p < 0 -> compute q it p = Raise InvalidOperation) /\
  (p < -9 \/ MAX_PREC - 10 < p -> - 2 ^ 63 <= p + 10 < 2 ^ 63 ->
   compute q it p = Raise ValueError) /\
  (p + 10 < - 2 ^ 63 \/ 2 ^ 63 <= p + 10 -> compute q it p = Raise OverflowError).
Proof.
  split; [|split; [|split; [|split]]].
  - intros Hit Hp. rewrite compute_unfold, prec_range by lia.
    unfold after_setprec. erewrite bind_raise; [reflexivity|].
    apply pi_approx_zero; auto. cbn. lia.
  - intros Hit ->. destruct (compute_ok q it 0 Hit) as (r & E & X).
    { unfold MAX_PREC. lia. }
    exists r. auto.
  - intros Hit Hp. rewrite compute_unfold, prec_range by (unfold MAX_PREC; lia).
    destruct (pi_approx_ok (call_context q p) ltac:(cbn; lia) eq_refl eq_refl it Hit)
      as (a & E & _).
    unfold after_setprec. rewrite (bind_ok _ _ _ _ _ E).
    unfold bind, Decimal_1e_minus. destruct (Z.ltb_spec p 0); [reflexivity|lia].
  - intros H1 H2. apply compute_value_error; unfold SSIZE_MIN, SSIZE_MAX; lia.
  - intros H. apply compute_overflow_error. unfold SSIZE_MIN, SSIZE_MAX. lia.
Qed.

(** ** The function and the reference definitions *)

(** A read-only computation is determined by its result in each context. *)
Lemma readonly_eq {A} (m : M A) ctx : readonly m -> m ctx = (ctx, snd (m ctx)).
Proof. intros H. specialize (H ctx). destruct (m ctx) as [c r]. cbn in *. now subst. Qed.

Lemma bind_readonly {A B} (m : M A) (f : A -> M B) ctx :
  readonly m -> (forall a, readonly (f a)) ->
  snd (bind m f ctx) = and_then (snd (m ctx)) (fun a => snd (f a ctx)).
Proof.
  intros Hm Hf. unfold bind. rewrite (readonly_eq m ctx Hm).
  destruct (snd (m ctx)); reflexivity.
Qed.

Lemma loop_body_rounded_term ctx k s :
  snd (loop_body k s ctx)
  = and_then (rounded_term ctx k) (fun t => snd (Decimal_add s t ctx)).
Proof.
  unfold loop_body, rounded_term, bind, and_then, Decimal_mul, Decimal_pow, Decimal_div,
    with_context. cbn [fst snd].
  repeat match goal with
         | |- context [match ?r with Ok _ => _ | Raise _ => _ end] =>
             destruct r; cbn [fst snd]
         | |- context [if ?b then _ else _] => destruct b; cbn [fst snd]
         end; reflexivity.
Qed.

Lemma for_range_S {St} n k (body : Z -> St -> M St) s :
  for_range (S n) k body s = bind (body k s) (fun s' => for_range n (k + 1) body s').
Proof. reflexivity. Qed.

(** The last turn of a loop. *)
Lemma for_range_last n : forall k s ctx,
  for_range (S n) k loop_body s ctx
  = bind (for_range n k loop_body s) (loop_body (k + Z.of_nat n)) ctx.
Proof.
  induction n as [|n IH]; intros k s ctx.
  - cbn [for_range]. unfold bind, ret. replace (k + Z.of_nat 0) with k by lia.
    destruct (loop_body k s ctx) as [c [a|e]]; reflexivity.
  - rewrite (for_range_S (S n)), (for_range_S n). unfold bind.
    destruct (loop_body k s ctx) as [c [a|e]]; [|reflexivity].
    rewrite IH. unfold bind.
    replace (k + 1 + Z.of_nat n) with (k + Z.of_nat (S n)) by lia.
    reflexivity.
Qed.

Lemma loop_partial_sum ctx n :
  snd (for_range n 0 loop_body (Decimal_of_int 0) ctx)
  = partial_sum (rounded_term ctx) ctx n.
Proof.
  induction n as [|n IH].
  - reflexivity.
  - rewrite for_range_last. cbn [partial_sum].
    rewrite bind_readonly; [|apply readonly_for_range|intros; apply readonly_loop_body].
    rewrite IH. cbn [Z.add].
    destruct (partial_sum (rounded_term ctx) ctx n); cbn [and_then]; [|reflexivity].
    apply loop_body_rounded_term.
Qed.

Lemma and_then_ext {A B} (r : result A) (f g : A -> result B) :
  (forall a, f a = g a) -> and_then r f = and_then r g.
Proof. intros H. destruct r; cbn; auto. Qed.

Ltac solve_readonly :=
  repeat first [ apply readonly_with_context | apply readonly_for_range
               | apply readonly_1e_minus | apply readonly_pi_approx_of
               | apply readonly_bind | intros ? ].

(** Peel one statement off both sides. *)
Ltac peel :=
  rewrite bind_readonly; [apply and_then_ext; intros ? | solve_readonly | solve_readonly].

Lemma after_setprec_reference ctx it p :
  0 <= p -> snd (after_setprec it p ctx) = reference rounded_term ctx it p.
Proof.
  intros Hp. unfold after_setprec, reference.
  rewrite bind_readonly; [|solve_readonly|solve_readonly].
  unfold pi_approx_of.
  do 3 (rewrite bind_readonly; [|solve_readonly|solve_readonly];
        cbn [and_then]; destruct (snd _); cbn [and_then]; [|reflexivity]).
  rewrite bind_readonly; [|solve_readonly|solve_readonly].
  rewrite loop_partial_sum.
  destruct (partial_sum (rounded_term ctx) ctx (Z.to_nat it)) as [s|e];
    cbn [and_then]; [|reflexivity].
  rewrite bind_readonly; [|solve_readonly|solve_readonly].
  destruct (snd (Decimal_mul _ s ctx)); cbn [and_then]; [|reflexivity].
  destruct (snd (Decimal_div (Decimal_of_int 1) _ ctx)); cbn [and_then]; [|reflexivity].
  unfold bind, Decimal_1e_minus. destruct (Z.ltb_spec p 0); [lia|]. reflexivity.
Qed.

(** C1, amended.  For [iterations >= 1] and [precision >= 1] the function
    returns or raises what the reference definition does in which the
    numerator product, the two powers and the denominator product are decimal
    operations of their own at the working precision [precision + 10] and
    subject to the exponent range (the products rounded to that precision,
    the powers as the library computes them, by repeated squaring with guard
    digits), and in which a working precision above [MAX_PREC] is a
    [ValueError], and an [OverflowError] from [2^63] on. *)
Theorem C1_compute_is_rounded_reference q it p :
  1 <= it -> 1 <= p -> compute q it p = reference_rounded q it p.
Proof.
  intros Hit Hp. rewrite compute_unfold. unfold reference_rounded.
  destruct (Z.leb_spec 1 (p + 10)); [|lia]. cbn [andb].
  destruct (Z.leb_spec (p + 10) MAX_PREC) as [Hm|Hm].
  - apply after_setprec_reference. lia.
  - destruct (Z.ltb_spec (p + 10) SSIZE_MIN) as [Hl|Hl]; [unfold SSIZE_MIN in Hl; lia|].
    cbn [orb].
    destruct (Z.ltb_spec SSIZE_MAX (p + 10)); destruct (Z.leb_spec (p + 10) SSIZE_MAX);
      try lia; reflexivity.
Qed.

Lemma C1_compute_is_rounded_reference_witness :
  1 <= 3 /\ 1 <= 40 /\ compute 28 3 40 = reference_rounded 28 3 40.
Proof.
  split; [lia|]. split; [lia|]. apply (C1_compute_is_rounded_reference 28 3 40); lia.
Defined.

(** ** The terms of the series *)

Lemma factorial_succ z : 0 <= z -> factorial (z + 1) = (z + 1) * factorial z.
Proof.
  intros Hz. unfold factorial. replace (Z.to_nat (z + 1)) with (S (Z.to_nat z)) by lia.
  cbn [fact_nat]. rewrite Nat2Z.inj_succ, Z2Nat.id by lia. lia.
Qed.

Lemma factorial_4_succ z :
  0 <= z ->
  factorial (4 * (z + 1)) = (4 * z + 4) * (4 * z + 3) * (4 * z + 2) * (4 * z + 1) * factorial (4 * z).
Proof.
  intros Hz. replace (4 * (z + 1)) with (4 * z + 1 + 1 + 1 + 1) by lia.
  rewrite !factorial_succ by lia. ring.
Qed.

Lemma denominator_int_pos k : 0 <= k -> 0 < denominator_int k.
Proof.
  intros Hk. unfold denominator_int. pose proof (factorial_pos k).
  assert (0 < factorial k ^ 4) by (apply Z.pow_pos_nonneg; lia).
  assert (0 < 396 ^ (4 * k)) by (apply Z.pow_pos_nonneg; lia). nia.
Qed.

Lemma numerator_int_pos k : 0 <= k -> 0 < numerator_int k.
Proof. intros Hk. unfold numerator_int. pose proof (factorial_pos (4 * k)). nia. Qed.

(** Each term is less than a millionth of the one before:
    [N_k 10^(6k) <= 1103 D_k]. *)
Lemma term_decay (n : nat) :
  numerator_int (Z.of_nat n) * 10 ^ (6 * Z.of_nat n) <= 1103 * denominator_int (Z.of_nat n).
Proof.
  induction n as [|n IH].
  - vm_compute. discriminate.
  - rewrite Nat2Z.inj_succ. unfold Z.succ.
    set (z := Z.of_nat n) in *. assert (Hz : 0 <= z) by (unfold z; lia).
    unfold numerator_int, denominator_int in *.
    rewrite factorial_4_succ, factorial_succ by lia.
    replace (6 * (z + 1)) with (6 * z + 6) by lia.
    replace (4 * (z + 1)) with (4 * z + 4) by lia.
    rewrite !Z.pow_add_r, Z.pow_mul_l by lia.
    pose proof (factorial_pos (4 * z)) as Ha. pose proof (factorial_pos z) as Hf.
    assert (Hw : 0 < 396 ^ (4 * z)) by (apply Z.pow_pos_nonneg; lia).
    assert (HT : 0 < 10 ^ (6 * z)) by (apply Z.pow_pos_nonneg; lia).
    assert (Hf4 : 0 < factorial z ^ 4) by (apply Z.pow_pos_nonneg; lia).
    set (a := factorial (4 * z)) in *. set (f4 := factorial z ^ 4) in *.
    set (w := 396 ^ (4 * z)) in *. set (T := 10 ^ (6 * z)) in *.
    set (M := (z + 1) ^ 4).
    assert (HM : 0 < M) by (unfold M; apply Z.pow_pos_nonneg; lia).
    assert (HP : (4 * z + 4) * (4 * z + 3) * (4 * z + 2) * (4 * z + 1) <= 256 * M).
    { unfold M. replace ((z + 1) ^ 4) with ((z + 1) * (z + 1) * ((z + 1) * (z + 1))) by ring.
      assert (0 <= (4 * z + 4) * (4 * z + 3) <= 16 * ((z + 1) * (z + 1))) by nia.
      assert (0 <= (4 * z + 2) * (4 * z + 1) <= 16 * ((z + 1) * (z + 1))) by nia.
      nia. }
    assert (HL : a * (1103 + 26390 * (z + 1)) * T <= 25 * (a * (1103 + 26390 * z) * T)).
    { assert (0 < a * T) by nia. nia. }
    set (X := a * (1103 + 26390 * z) * T) in *.
    set (Y := 1103 * (f4 * w)) in *.
    assert (HX : 0 <= X) by (unfold X; nia).
    change (10 ^ 6) with 1000000. change (396 ^ 4) with 24591257856.
    set (Pi4 := (4 * z + 4) * (4 * z + 3) * (4 * z + 2) * (4 * z + 1)) in *.
    assert (HPi : 0 <= Pi4) by (unfold Pi4; nia).
    set (X' := a * (1103 + 26390 * (z + 1)) * T) in *.
    assert (HX' : 0 <= X') by (unfold X'; nia).
    replace (Pi4 * a * (1103 + 26390 * (z + 1)) * (T * 1000000))
      with (1000000 * (Pi4 * X')) by (unfold X'; ring).
    replace (1103 * (M * f4 * (w * 24591257856))) with (24591257856 * (M * Y))
      by (unfold Y; ring).
    assert (H1 : Pi4 * X' <= 256 * M * (25 * X)) by (apply Z.mul_le_mono_nonneg; lia).
    assert (H2 : M * X <= M * Y) by (apply Z.mul_le_mono_nonneg_l; lia).
    assert (H3 : 0 <= M * Y).
    { apply Z.mul_nonneg_nonneg; [lia|]. unfold Y.
      apply Z.mul_nonneg_nonneg; [lia|]. apply Z.mul_nonneg_nonneg; lia. }
    replace (256 * M * (25 * X)) with (6400 * (M * X)) in H1 by ring.
    lia.
Qed.

Lemma term_le_1103 k : 0 <= k -> numerator_int k <= 1103 * denominator_int k.
Proof.
  intros Hk. pose proof (term_decay (Z.to_nat k)) as H. rewrite Z2Nat.id in H by lia.
  assert (1 <= 10 ^ (6 * k)) by (pose proof (Zpow10_gt0 (6 * k) ltac:(lia)); lia).
  pose proof (numerator_int_pos k Hk). nia.
Qed.

(** ** The reference definition of the specification returns *)

Section ExactReference.

Variable ctx : Context.
Hypothesis Hprec : 4 <= prec ctx.
Hypothesis Hemin : Emin ctx = -999999.
Hypothesis Hemax : Emax ctx = 999999.

Lemma exact_ctx_wf : wf_context ctx.
Proof. exact (ctx_wf ctx Hprec Hemin Hemax). Qed.

Lemma exact_term_ok k :
  0 <= k ->
  exists t, exact_term ctx k = Ok t /\ repr ctx t /\ 0 <= _int t /\
            (V t <= 1103)%R /\ (k = 0 -> (1103 <= V t)%R).
Proof.
  intros Hk. unfold exact_term.
  pose proof (numerator_int_pos k Hk) as HN. pose proof (denominator_int_pos k Hk) as HD.
  pose proof (term_le_1103 k Hk) as HND.
  assert (HR : (IZR (numerator_int k) <= 1103 * IZR (denominator_int k))%R).
  { rewrite <- mult_IZR. now apply IZR_le. }
  assert (HD' : (0 < IZR (denominator_int k))%R) by now apply IZR_lt.
  assert (HN' : (0 < IZR (numerator_int k))%R) by now apply IZR_lt.
  destruct (Z.eq_dec k 0) as [->|Hk0].
  - destruct (div_bounds ctx (Decimal_of_int (numerator_int 0))
                (Decimal_of_int (denominator_int 0)) (mkDec 1103 0) (mkDec 1103 0) exact_ctx_wf)
      as (t & E & Rt & Pt & Vt); auto.
    { apply repr_1103; auto. } { apply repr_1103; auto. }
    { rewrite !V_of_int, V_1103.
      change (numerator_int 0) with 1103. change (denominator_int 0) with 1. lra. }
    { apply below_Emax; auto. rewrite V_1103. lra. }
    rewrite V_1103 in Vt.
    exists t. rewrite E. split; [reflexivity|]. split; [exact Rt|]. split; [exact Pt|].
    split; [tauto|]. intros _. tauto.
  - destruct (div_bounds ctx (Decimal_of_int (numerator_int k))
                (Decimal_of_int (denominator_int k)) (mkDec 0 0) (mkDec 1103 0) exact_ctx_wf)
      as (t & E & Rt & Pt & Vt); auto.
    { apply repr_0; auto. } { apply repr_1103; auto. }
    { rewrite !V_of_int, V_1103, V_0. lra. }
    { apply below_Emax; auto. rewrite V_1103. lra. }
    rewrite V_1103 in Vt.
    exists t. rewrite E. split; [reflexivity|]. split; [exact Rt|]. split; [exact Pt|].
    split; [tauto|]. intros K. lia.
Qed.

Lemma partial_sum_exact_ok n :
  Z.of_nat n <= 900000 ->
  exists S, partial_sum (exact_term ctx) ctx n = Ok S /\ repr ctx S /\ 0 <= _int S /\
            (V S <= pow10 (4 + Z.of_nat n))%R /\ (n <> O -> (1103 <= V S)%R).
Proof.
  induction n as [|n IH]; intros Hn.
  - exists (Decimal_of_int 0). split; [reflexivity|]. split; [apply repr_Decimal_0; auto|].
    split; [cbn; lia|]. rewrite V_of_int. pose proof (pow10_pos (4 + Z.of_nat 0)).
    split; [lra|congruence].
  - destruct (IH ltac:(lia)) as (S0 & E & RS & PS & VS & LS).
    cbn [partial_sum]. rewrite E. cbn [and_then].
    destruct (exact_term_ok (Z.of_nat n) ltac:(lia)) as (t & Et & Rt & Pt & Vt & Lt).
    rewrite Et. cbn [and_then].
    destruct (add_bounds ctx S0 t (mkDec 1103 0) (mkDec 1 (5 + Z.of_nat n)) exact_ctx_wf PS Pt)
      as (S1 & E1 & R1 & P1 & V1).
    { apply repr_1103; auto. } { apply repr_pow10; auto. lia. }
    { rewrite V_1103, V_pow10.
      pose proof (V_nonneg S0 PS). pose proof (V_nonneg t Pt). split.
      - destruct n; [specialize (Lt eq_refl); lra|].
        specialize (LS ltac:(congruence)). lra.
      - replace (5 + Z.of_nat n) with ((4 + Z.of_nat n) + 1) by lia. rewrite pow10_succ.
        assert (pow10 4 <= pow10 (4 + Z.of_nat n))%R by (apply pow10_le; lia).
        replace (pow10 4) with 10000%R in H1 by (unfold pow10; simpl; lra). lra. }
    { apply pow10_below_Emax; auto. lia. }
    rewrite E1. cbn [snd]. exists S1. split; [reflexivity|]. split; [exact R1|].
    split; [exact P1|]. rewrite V_1103, V_pow10 in V1.
    replace (4 + Z.of_nat (S n)) with (5 + Z.of_nat n) by lia.
    split; [tauto|]. intros _. tauto.
Qed.

Lemma reference_exact_ok it p :
  1 <= it <= 900000 -> 0 <= p -> prec ctx = p + 10 ->
  exists r, reference exact_term ctx it p = Ok r /\ _exp r = - p.
Proof.
  intros Hit Hp Hpr. unfold reference.
  destruct (constant_multiplier_ok ctx Hprec Hemin Hemax) as (C & EC & RC & PC & VC).
  apply (f_equal snd) in EC. cbn [snd] in EC.
  rewrite bind_readonly in EC; [|solve_readonly|solve_readonly].
  destruct (snd (Decimal_sqrt (Decimal_of_int 2) ctx)) as [root|]; [|discriminate].
  cbn [and_then] in EC |- *.
  rewrite bind_readonly in EC; [|solve_readonly|solve_readonly].
  destruct (snd (Decimal_mul (Decimal_of_int 2) root ctx)) as [tw|]; [|discriminate].
  cbn [and_then] in EC |- *. rewrite EC. cbn [and_then].
  destruct (partial_sum_exact_ok (Z.to_nat it) ltac:(lia)) as (S & ES & RS & PS & VS & LS).
  rewrite ES. cbn [and_then]. specialize (LS ltac:(lia)).
  assert (HSp : 0 < _int S) by (apply V_pos_inv; lra).
  assert (AS : adjusted S <= Emax ctx).
  { assert (adjusted S < 4 + Z.of_nat (Z.to_nat it) + 1); [|lia].
    apply adjusted_lt; auto. eapply Rle_lt_trans; [exact VS|]. apply pow10_lt. lia. }
  destruct (reciprocal_ok ctx Hprec Hemin Hemax C S RC PC VC RS PS AS LS)
    as (a & Ea & Ra & Pa & Va).
  apply (f_equal snd) in Ea. cbn [snd] in Ea.
  rewrite bind_readonly in Ea; [|solve_readonly|solve_readonly].
  destruct (snd (Decimal_mul C S ctx)) as [x|]; [|discriminate].
  cbn [and_then] in Ea |- *. rewrite Ea. cbn [and_then].
  destruct (quantize_ok ctx Hprec Hemin Hemax a p Hp Hpr Pa Va) as (r & Er & Xr).
  rewrite Er. now exists r.
Qed.

End ExactReference.

(** Where both definitions could be run they agree. *)
Example references_agree_on_samples :
  compute 28 1 10 = reference_exact 28 1 10 /\
  compute 28 2 25 = reference_exact 28 2 25 /\
  compute 28 5 50 = reference_exact 28 5 50 /\
  compute 28 12 90 = reference_exact 28 12 90.
Proof. split; [|split; [|split]]; vm_compute; reflexivity. Qed.

(** C1, the claim refuted: at [compute(100000, 1)] the function raises
    [decimal.Overflow], since its numerator product is a decimal operation
    and passes the largest exponent, while the reference definition with
    exact integers returns a value. *)
Lemma C1_differs_from_exact_reference :
  compute 28 100000 1 <> reference_exact 28 100000 1.
Proof.
  rewrite compute_overflows by (unfold MAX_PREC; lia).
  destruct (reference_exact_ok (with_prec (1 + 10) (thread_context 28))
              ltac:(cbn; lia) eq_refl eq_refl 100000 1 ltac:(lia) ltac:(lia) eq_refl)
    as (r & E & _).
  unfold reference_exact. rewrite E. discriminate.
Qed.

(** ** Relative errors of the rounded operations *)

Lemma Rabs_le_inv x y : (Rabs x <= y)%R -> (- y <= x <= y)%R.
Proof. unfold Rabs. destruct (Rcase_abs x); lra. Qed.

Lemma rel_err_pos ctx : (0 < rel_err ctx)%R.
Proof. unfold rel_err. pose proof (pow10_pos (1 - prec ctx)). lra. Qed.

(** One rounding of a value in the normal range. *)
Lemma fix_rel ctx d r :
  wf_context ctx -> 0 < _int d -> Emin ctx <= adjusted d -> _fix ctx d = Ok r ->
  (Rabs (V r - V d) <= pow10 (1 - prec ctx) * V d)%R.
Proof.
  intros Hwf Hd Hn Hf. pose proof (V_pos d Hd) as Hv.
  pose proof (pow10_pos (1 - prec ctx)) as Hp.
  destruct (fix_value ctx d r Hwf Hd Hf) as (_ & _ & [->|(m & _ & _ & _ & Hab & _)]).
  - rewrite Rminus_diag, Rabs_R0. nra.
  - assert (Hg : fix_exp ctx d = adjusted d + (1 - prec ctx)).
    { unfold fix_exp, adjusted, Etiny in *. lia. }
    rewrite Hg, pow10_add in Hab.
    pose proof (V_adjusted d Hd) as [HL _].
    pose proof (pow10_pos (adjusted d)). nra.
Qed.

Lemma pow10_tenth e : e <= -1 -> (pow10 e <= / 10)%R.
Proof. intros H. rewrite <- pow10_m1. now apply pow10_le. Qed.

Lemma pow10_next e : pow10 (1 + e) = (10 * pow10 e)%R.
Proof. replace (1 + e) with (e + 1) by lia. apply pow10_succ. Qed.

(** A sticky approximation of more than [prec] digits, rounded. *)
Lemma sticky_rel ctx d x r :
  wf_context ctx -> 0 < _int d -> prec ctx + 1 <= ndigits (_int d) ->
  (Rabs (V d - x) < pow10 (_exp d))%R -> Emin ctx <= adjusted d ->
  _fix ctx d = Ok r ->
  (Rabs (V r - x) <= rel_err ctx * x)%R /\ (0 < x)%R.
Proof.
  intros Hwf Hd Hnd Hab Hn Hf. pose proof Hwf as [Hp HE].
  pose proof (fix_rel ctx d r Hwf Hd Hn Hf) as H1.
  pose proof (V_pos d Hd) as Hv.
  assert (He : (pow10 (_exp d) <= pow10 (- prec ctx) * V d)%R).
  { pose proof (V_adjusted d Hd) as [HL _].
    assert (pow10 (_exp d) = pow10 (- prec ctx) * pow10 (prec ctx + _exp d))%R.
    { rewrite <- pow10_add. f_equal. lia. }
    assert (pow10 (prec ctx + _exp d) <= pow10 (adjusted d))%R
      by (apply pow10_le; unfold adjusted; lia).
    pose proof (pow10_pos (- prec ctx)). nra. }
  assert (Ht : (pow10 (- prec ctx) <= / 10)%R) by (apply pow10_tenth; lia).
  assert (H10 : pow10 (1 - prec ctx) = (10 * pow10 (- prec ctx))%R).
  { replace (1 - prec ctx) with (1 + - prec ctx) by lia. apply pow10_next. }
  pose proof (pow10_pos (- prec ctx)) as Hpp.
  apply Rabs_def2 in Hab. destruct Hab as [A1 A2].
  set (t := pow10 (- prec ctx)) in *.
  assert (Hx : (0 < x)%R) by nra.
  split; [|exact Hx].
  unfold rel_err. rewrite H10.
  assert (Hvd : (V d <= x * (1 + 2 * t))%R) by nra.
  rewrite H10 in H1.
  apply Rabs_le_inv in H1. destruct H1 as [B1 B2].
  apply Rabs_le. split; nra.
Qed.

Lemma pow10_opp k : pow10 (- k) = (/ pow10 k)%R.
Proof.
  pose proof (pow10_pos k) as Hk.
  apply Rmult_eq_reg_l with (pow10 k); [|lra].
  rewrite <- pow10_add, Rinv_r by lra.
  replace (k + - k) with 0 by lia. apply pow10_0.
Qed.

Lemma pow_bernoulli_up d n :
  (0 <= d)%R -> (2 * INR n * d <= 1)%R -> ((1 + d) ^ n <= 1 + 2 * INR n * d)%R.
Proof.
  intros Hd. induction n as [|n IH]; intros Hn.
  - cbn. lra.
  - rewrite S_INR in *. cbn [pow].
    assert (Hn' : (2 * INR n * d <= 1)%R) by nra.
    specialize (IH Hn'). pose proof (pos_INR n) as Hp.
    assert (0 <= INR n * d)%R by (apply Rmult_le_pos; lra).
    assert (H1 : ((1 + d) * (1 + d) ^ n <= (1 + d) * (1 + 2 * INR n * d))%R)
      by (apply Rmult_le_compat_l; lra).
    assert (H2 : (2 * INR n * d * d <= d)%R).
    { apply Rle_trans with (1 * d)%R; [apply Rmult_le_compat_r; lra|lra]. }
    eapply Rle_trans; [exact H1|].
    replace ((1 + d) * (1 + 2 * INR n * d))%R
      with (1 + 2 * INR n * d + d + 2 * INR n * d * d)%R by ring.
    lra.
Qed.

Lemma pow_bernoulli_low d n :
  (0 <= d <= 1)%R -> (1 - INR n * d <= (1 - d) ^ n)%R /\ (0 <= (1 - d) ^ n <= 1)%R.
Proof.
  intros Hd. induction n as [|n [IH1 IH2]].
  - cbn. lra.
  - rewrite S_INR. cbn [pow]. pose proof (pos_INR n) as Hp.
    assert (0 <= INR n * d * d)%R by (repeat apply Rmult_le_pos; lra).
    assert (H1 : ((1 - d) * (1 - INR n * d) <= (1 - d) * (1 - d) ^ n)%R)
      by (apply Rmult_le_compat_l; lra).
    replace ((1 - d) * (1 - INR n * d))%R
      with (1 - INR n * d - d + INR n * d * d)%R in H1 by ring.
    assert (0 <= (1 - d) * (1 - d) ^ n)%R by (apply Rmult_le_pos; lra).
    assert ((1 - d) * (1 - d) ^ n <= 1 * 1)%R by (apply Rmult_le_compat; lra).
    split; [|split]; lra.
Qed.

(** One rounded product of two values [>= 1]. *)
Lemma pow_step ctx x y r :
  wf_context ctx -> 0 < _int x -> 0 < _int y -> (1 <= V x)%R -> (1 <= V y)%R ->
  _fix ctx (mkDec (_int x * _int y) (_exp x + _exp y)) = Ok r ->
  0 < _int r /\ (1 <= V r)%R /\
  (V x * V y * (1 - pow10 (1 - prec ctx)) <= V r
   <= V x * V y * (1 + pow10 (1 - prec ctx)))%R.
Proof.
  intros Hwf Hx Hy Vx Vy E.
  set (d := mkDec (_int x * _int y) (_exp x + _exp y)) in *.
  assert (Hd : 0 < _int d) by (cbn [d _int]; nia).
  assert (Vd : V d = (V x * V y)%R) by apply V_mul.
  assert (Vd1 : (1 <= V d)%R) by (rewrite Vd; nra).
  assert (Har : Emin ctx <= adjusted d).
  { apply adjusted_ge; auto. destruct Hwf as [_ HE].
    apply Rle_trans with (pow10 0); [apply pow10_le; lia|]. now rewrite pow10_0. }
  pose proof (fix_rel ctx d r Hwf Hd Har E) as HR. apply Rabs_le_inv in HR.
  assert (V1 : (1 <= V r)%R).
  { rewrite <- pow10_0, <- (V_unit 0).
    apply (fix_faithful ctx d r (mkDec 1 0) Hwf ltac:(lia) E
             (repr_unit ctx 0 Hwf ltac:(lia))).
    now rewrite V_unit, pow10_0. }
  split; [apply V_pos_inv; lra|]. split; [exact V1|].
  rewrite <- Vd. lra.
Qed.

(** The error of a power built by squaring and multiplying: each of the at
    most [2 n - 1] roundings moves it by one unit in the last place of the
    working precision. *)
Lemma pow_uint_rel ctx a :
  wf_context ctx -> 2 <= prec ctx -> 0 < _int a -> (1 <= V a)%R ->
  forall n r, pow_uint ctx a n = Ok r ->
  0 < _int r /\ (1 <= V r)%R /\
  (V a ^ Pos.to_nat n * (1 - pow10 (1 - prec ctx)) ^ (2 * Pos.to_nat n - 1) <= V r
   <= V a ^ Pos.to_nat n * (1 + pow10 (1 - prec ctx)) ^ (2 * Pos.to_nat n - 1))%R.
Proof.
  intros Hwf Hp Ha Va.
  assert (Hu : (0 < pow10 (1 - prec ctx) <= / 10)%R).
  { split; [apply pow10_pos|apply pow10_tenth; lia]. }
  set (u := pow10 (1 - prec ctx)) in *.
  induction n as [n IH|n IH|]; intros r E; cbn [pow_uint] in E.
  - destruct (pow_uint ctx a n) as [r0|] eqn:E0; [|discriminate]. cbn [and_then] in E.
    destruct (_fix ctx (mkDec (_int r0 * _int r0) (_exp r0 + _exp r0))) as [s|] eqn:E1;
      [|discriminate].
    cbn [and_then] in E.
    destruct (IH r0 eq_refl) as (H0 & V0 & [L0 U0]).
    destruct (pow_step ctx r0 r0 s Hwf H0 H0 V0 V0 E1) as (H1 & V1 & [L1 U1]).
    destruct (pow_step ctx s a r Hwf H1 Ha V1 Va E) as (H2 & V2 & [L2 U2]).
    fold u in L1, U1, L2, U2.
    split; [exact H2|]. split; [exact V2|].
    pose proof (Pos2Nat.is_pos n) as HP.
    rewrite Pos2Nat.inj_xI.
    replace (2 * S (2 * Pos.to_nat n) - 1)%nat
      with ((2 * Pos.to_nat n - 1) + (2 * Pos.to_nat n - 1) + 3)%nat by lia.
    replace (S (2 * Pos.to_nat n)) with (Pos.to_nat n + Pos.to_nat n + 1)%nat by lia.
    rewrite !pow_add, !pow_1. cbn [pow].
    destruct (pow_bernoulli_low u (2 * Pos.to_nat n - 1) ltac:(lra)) as [_ HQ].
    assert (HPm : (1 <= (1 + u) ^ (2 * Pos.to_nat n - 1))%R) by (apply pow_R1_Rle; lra).
    assert (HX : (1 <= V a ^ Pos.to_nat n)%R) by (apply pow_R1_Rle; lra).
    set (X := (V a ^ Pos.to_nat n)%R) in *.
    set (Q := ((1 - u) ^ (2 * Pos.to_nat n - 1))%R) in *.
    set (P := ((1 + u) ^ (2 * Pos.to_nat n - 1))%R) in *.
    set (x := V a) in *. set (v0 := V r0) in *. set (v1 := V s) in *. set (v := V r) in *.
    clearbody X Q P x v0 v1 v u.
    assert (A1 : (0 <= X * Q)%R) by (apply Rmult_le_pos; lra).
    assert (A2 : (X * Q * (X * Q) <= v0 * v0)%R) by (apply Rmult_le_compat; lra).
    assert (A3 : (v0 * v0 <= X * P * (X * P))%R) by (apply Rmult_le_compat; lra).
    assert (A4 : (0 <= X * Q * (X * Q))%R) by (apply Rmult_le_pos; lra).
    assert (B1 : (X * Q * (X * Q) * (1 - u) <= v1)%R).
    { eapply Rle_trans; [|exact L1]. apply Rmult_le_compat_r; lra. }
    assert (B2 : (v1 <= X * P * (X * P) * (1 + u))%R).
    { eapply Rle_trans; [exact U1|]. apply Rmult_le_compat_r; lra. }
    assert (A5 : (0 <= X * Q * (X * Q) * (1 - u))%R) by (apply Rmult_le_pos; lra).
    assert (C1 : (X * Q * (X * Q) * (1 - u) * x * (1 - u) <= v)%R).
    { eapply Rle_trans; [|exact L2]. apply Rmult_le_compat_r; [lra|].
      apply Rmult_le_compat_r; lra. }
    assert (C2 : (v <= X * P * (X * P) * (1 + u) * x * (1 + u))%R).
    { eapply Rle_trans; [exact U2|]. apply Rmult_le_compat_r; [lra|].
      apply Rmult_le_compat_r; lra. }
    assert (A6 : (0 <= X * Q * (X * Q) * (1 - u) * x * (1 - u))%R)
      by (repeat apply Rmult_le_pos; lra).
    assert (A7 : (0 <= X * P * (X * P) * (1 + u) * x * (1 + u))%R)
      by (repeat apply Rmult_le_pos; lra).
    split.
    + eapply Rle_trans; [|exact C1].
      replace (X * X * x * (Q * Q * ((1 - u) * ((1 - u) * ((1 - u) * 1)))))%R
        with (X * Q * (X * Q) * (1 - u) * x * (1 - u) * (1 - u))%R by ring.
      rewrite <- (Rmult_1_r (X * Q * (X * Q) * (1 - u) * x * (1 - u))%R) at 2.
      apply Rmult_le_compat_l; lra.
    + eapply Rle_trans; [exact C2|].
      replace (X * X * x * (P * P * ((1 + u) * ((1 + u) * ((1 + u) * 1)))))%R
        with (X * P * (X * P) * (1 + u) * x * (1 + u) * (1 + u))%R by ring.
      rewrite <- (Rmult_1_r (X * P * (X * P) * (1 + u) * x * (1 + u))%R) at 1.
      apply Rmult_le_compat_l; lra.
  - destruct (pow_uint ctx a n) as [r0|] eqn:E0; [|discriminate]. cbn [and_then] in E.
    destruct (IH r0 eq_refl) as (H0 & V0 & [L0 U0]).
    destruct (pow_step ctx r0 r0 r Hwf H0 H0 V0 V0 E) as (H1 & V1 & [L1 U1]).
    fold u in L1, U1.
    split; [exact H1|]. split; [exact V1|].
    pose proof (Pos2Nat.is_pos n) as HP.
    rewrite Pos2Nat.inj_xO.
    replace (2 * (2 * Pos.to_nat n) - 1)%nat
      with ((2 * Pos.to_nat n - 1) + (2 * Pos.to_nat n - 1) + 1)%nat by lia.
    replace (2 * Pos.to_nat n)%nat with (Pos.to_nat n + Pos.to_nat n)%nat at 1 4 by lia.
    rewrite !pow_add, !pow_1.
    destruct (pow_bernoulli_low u (2 * Pos.to_nat n - 1) ltac:(lra)) as [_ HQ].
    assert (HPm : (1 <= (1 + u) ^ (2 * Pos.to_nat n - 1))%R) by (apply pow_R1_Rle; lra).
    assert (HX : (1 <= V a ^ Pos.to_nat n)%R) by (apply pow_R1_Rle; lra).
    set (X := (V a ^ Pos.to_nat n)%R) in *.
    set (Q := ((1 - u) ^ (2 * Pos.to_nat n - 1))%R) in *.
    set (P := ((1 + u) ^ (2 * Pos.to_nat n - 1))%R) in *.
    set (v0 := V r0) in *. set (v := V r) in *.
    clearbody X Q P v0 v u.
    assert (A1 : (0 <= X * Q)%R) by (apply Rmult_le_pos; lra).
    assert (A2 : (X * Q * (X * Q) <= v0 * v0)%R) by (apply Rmult_le_compat; lra).
    assert (A3 : (v0 * v0 <= X * P * (X * P))%R) by (apply Rmult_le_compat; lra).
    split.
    + eapply Rle_trans; [|exact L1].
      replace (X * X * (Q * Q * (1 - u)))%R with (X * Q * (X * Q) * (1 - u))%R by ring.
      apply Rmult_le_compat_r; lra.
    + eapply Rle_trans; [exact U1|].
      replace (X * X * (P * P * (1 + u)))%R with (X * P * (X * P) * (1 + u))%R by ring.
      apply Rmult_le_compat_r; lra.
  - inversion E; subst r. split; [exact Ha|]. split; [exact Va|].
    change (Pos.to_nat 1) with 1%nat. change (2 * 1 - 1)%nat with 1%nat.
    rewrite !pow_1. pose proof Va. split; nra.
Qed.

Section RelativeErrors.

Variable ctx : Context.
Hypothesis Hwf : wf_context ctx.
Hypothesis Hprec2 : 2 <= prec ctx.

Lemma rel_err_small : (rel_err ctx <= 2 / 10)%R.
Proof.
  unfold rel_err. assert (pow10 (1 - prec ctx) <= / 10)%R by (apply pow10_tenth; lia). lra.
Qed.

Lemma fix_rel_err d r :
  0 < _int d -> (pow10 (Emin ctx) <= V d)%R -> _fix ctx d = Ok r ->
  (Rabs (V r - V d) <= rel_err ctx * V d)%R /\ 0 < _int r.
Proof.
  intros Hd Hn Hf.
  assert (Ha : Emin ctx <= adjusted d) by (apply adjusted_ge; auto).
  pose proof (fix_rel ctx d r Hwf Hd Ha Hf) as H.
  pose proof (V_pos d Hd) as Hv. pose proof (pow10_pos (1 - prec ctx)) as Hp.
  assert (pow10 (1 - prec ctx) <= / 10)%R by (apply pow10_tenth; lia).
  split.
  - unfold rel_err. nra.
  - apply V_pos_inv. apply Rabs_le_inv in H. nra.
Qed.

Lemma mul_rel a b r :
  0 < _int a -> 0 < _int b -> (pow10 (Emin ctx) <= V a * V b)%R ->
  Decimal_mul a b ctx = (ctx, Ok r) ->
  (Rabs (V r - V a * V b) <= rel_err ctx * (V a * V b))%R /\ 0 < _int r.
Proof.
  intros Ha Hb Hn E. unfold Decimal_mul, with_context in E. inversion E as [E'].
  rewrite <- V_mul in *. apply fix_rel_err; auto. cbn [_int]. nia.
Qed.

Lemma pow_rel c n r :
  0 < c -> 0 <= n -> Decimal_pow (Decimal_of_int c) n ctx = (ctx, Ok r) ->
  (Rabs (V r - IZR (c ^ n)) <= rel_err ctx * IZR (c ^ n))%R /\ 0 < _int r.
Proof.
  intros Hc Hn E. unfold Decimal_pow, with_context in E.
  pose proof (pow10_pos (1 - prec ctx)) as Hw.
  destruct (Z.eqb_spec n 0) as [->|Hn0].
  { inversion E. cbn [_int]. split; [|lia].
    rewrite V_unit, pow10_0, Z.pow_0_r, Rminus_diag, Rabs_R0. unfold rel_err. lra. }
  set (cw := pow_context ctx n) in *.
  assert (Hwfw : wf_context cw) by (now apply pow_context_wf).
  pose proof (ndigits_pos n) as Hnd.
  assert (Hcw : prec cw = prec ctx + ndigits n + 2) by reflexivity.
  assert (Ha : 0 < _int (Decimal_of_int c)) by (cbn; lia).
  assert (Hva : (1 <= V (Decimal_of_int c))%R) by (rewrite V_of_int; apply IZR_le; lia).
  destruct (pow_uint cw (Decimal_of_int c) (Z.to_pos n)) as [r0|e] eqn:E0;
    [|cbn [and_then] in E; discriminate].
  cbn [and_then] in E. inversion E as [E'].
  destruct (pow_uint_rel cw (Decimal_of_int c) Hwfw ltac:(lia) Ha Hva _ _ E0)
    as (Hr0 & Vr0 & B0).
  rewrite V_of_int, pow_IZR, positive_nat_Z, Z2Pos.id in B0 by lia.
  assert (HT : (1 <= IZR (c ^ n))%R).
  { apply IZR_le. assert (0 < c ^ n) by (apply Z.pow_pos_nonneg; lia). lia. }
  assert (Har : Emin ctx <= adjusted r0).
  { apply adjusted_ge; auto. destruct Hwf as [_ HE].
    apply Rle_trans with (pow10 0); [apply pow10_le; lia|]. rewrite pow10_0. exact Vr0. }
  pose proof (fix_rel ctx r0 r Hwf Hr0 Har E') as HR.
  apply Rabs_le_inv in HR.
  (* the guard digits *)
  set (u := pow10 (1 - prec cw)) in *.
  set (m := (2 * Pos.to_nat (Z.to_pos n) - 1)%nat) in *.
  assert (Hu0 : (0 < u)%R) by apply pow10_pos.
  assert (Hnu : (IZR n * u <= pow10 (1 - prec ctx) / 100)%R).
  { unfold u. rewrite Hcw.
    replace (1 - (prec ctx + ndigits n + 2)) with ((1 - prec ctx) + (-2 + - ndigits n)) by lia.
    rewrite !pow10_add, pow10_opp.
    pose proof (ndigits_bounds n ltac:(lia)) as [_ NU]. apply IZR_lt in NU.
    rewrite <- pow10_IZR in NU by lia.
    pose proof (pow10_pos (ndigits n)) as Hpn.
    assert (H2 : pow10 (-2) = (/ 100)%R).
    { unfold pow10. simpl. f_equal. lra. }
    rewrite H2.
    assert (Hq : (IZR n * / pow10 (ndigits n) <= 1)%R).
    { apply Rmult_le_reg_r with (pow10 (ndigits n)); auto.
      rewrite Rmult_assoc, Rinv_l by lra. lra. }
    replace (IZR n * (pow10 (1 - prec ctx) * (/ 100 * / pow10 (ndigits n))))%R
      with (pow10 (1 - prec ctx) / 100 * (IZR n * / pow10 (ndigits n)))%R by (field; lra).
    rewrite <- (Rmult_1_r (pow10 (1 - prec ctx) / 100)) at 2.
    apply Rmult_le_compat_l; lra. }
  assert (Hm : (INR m <= 2 * IZR n)%R).
  { unfold m. rewrite INR_IZR_INZ. rewrite <- mult_IZR. apply IZR_le.
    pose proof (Pos2Nat.is_pos (Z.to_pos n)).
    rewrite Nat2Z.inj_sub, Nat2Z.inj_mul, positive_nat_Z, Z2Pos.id by lia. lia. }
  assert (Hw10 : (pow10 (1 - prec ctx) <= / 10)%R) by (apply pow10_tenth; lia).
  set (w := pow10 (1 - prec ctx)) in *.
  pose proof (pos_INR m) as Hm0.
  assert (Hmu : (INR m * u <= 2 * w / 100)%R).
  { apply Rle_trans with (2 * IZR n * u)%R; [apply Rmult_le_compat_r; lra|lra]. }
  assert (Hmu0 : (0 <= INR m * u)%R) by (apply Rmult_le_pos; lra).
  pose proof (pow_bernoulli_up u m ltac:(lra) ltac:(lra)) as HU.
  assert (Hu1 : (u <= 1)%R).
  { unfold u. rewrite <- pow10_0. apply pow10_le. lia. }
  destruct (pow_bernoulli_low u m ltac:(lra)) as [HL HL'].
  unfold rel_err. fold w.
  assert (Hvr : (0 < V r)%R -> 0 < _int r) by apply V_pos_inv.
  set (T := IZR (c ^ n)) in *. set (v0 := V r0) in *. set (v := V r) in *.
  set (Pm := ((1 + u) ^ m)%R) in *. set (Qm := ((1 - u) ^ m)%R) in *.
  clearbody T v0 v Pm Qm u w. destruct B0 as [B1 B2].
  assert (Hup : (v0 <= T * (1 + 4 * w / 100))%R).
  { eapply Rle_trans; [exact B2|]. apply Rmult_le_compat_l; lra. }
  assert (Hlo : (T * (1 - 2 * w / 100) <= v0)%R).
  { eapply Rle_trans; [|exact B1]. apply Rmult_le_compat_l; lra. }
  assert (Hww : (0 <= w * w <= w / 10)%R) by nra.
  assert (HTw : (0 <= T * w)%R) by nra.
  assert (HTww : (0 <= T * (w * w) <= T * (w / 10))%R).
  { split; [apply Rmult_le_pos; lra|apply Rmult_le_compat_l; lra]. }
  assert (V1 : (v <= T * (1 + 2 * w))%R).
  { apply Rle_trans with (v0 * (1 + w))%R; [lra|].
    apply Rle_trans with (T * (1 + 4 * w / 100) * (1 + w))%R;
      [apply Rmult_le_compat_r; lra|].
    replace (T * (1 + 4 * w / 100) * (1 + w))%R
      with (T + T * w * (104 / 100) + T * (w * w) * (4 / 100))%R by field.
    lra. }
  assert (V2 : (T * (1 - 2 * w) <= v)%R).
  { apply Rle_trans with (v0 * (1 - w))%R; [|lra].
    apply Rle_trans with (T * (1 - 2 * w / 100) * (1 - w))%R;
      [|apply Rmult_le_compat_r; lra].
    replace (T * (1 - 2 * w / 100) * (1 - w))%R
      with (T - T * w * (102 / 100) + T * (w * w) * (2 / 100))%R by field.
    lra. }
  split.
  - apply Rabs_le. split; lra.
  - apply Hvr. assert (0 < T * (1 - 2 * w))%R by (apply Rmult_lt_0_compat; lra). lra.
Qed.

Lemma add_rel a b r :
  0 <= _int a -> 0 <= _int b -> (pow10 (Emin ctx) <= V a + V b)%R ->
  Decimal_add a b ctx = (ctx, Ok r) ->
  (Rabs (V r - (V a + V b)) <= rel_err ctx * (V a + V b))%R /\ 0 < _int r.
Proof.
  intros Ha Hb Hn E.
  destruct (add_pre ctx a b ltac:(lia) Ha Hb) as (d & Ed & Pd & Vd).
  rewrite Ed in E. inversion E as [E']. rewrite <- Vd in *.
  apply fix_rel_err; auto. apply V_pos_inv.
  pose proof (pow10_pos (Emin ctx)). lra.
Qed.

Lemma div_rel a b r :
  0 < _int a -> 0 < _int b -> (pow10 (Emin ctx + 1) <= V a / V b)%R ->
  Decimal_div a b ctx = (ctx, Ok r) ->
  (Rabs (V r - V a / V b) <= rel_err ctx * (V a / V b))%R /\ 0 < _int r.
Proof.
  intros Ha Hb Hn E. unfold Decimal_div, with_context in E.
  destruct (Z.eqb_spec (_int b) 0) as [?|_]; [lia|]. inversion E as [E'].
  destruct (div_raw_spec ctx a b Hwf Ha Hb) as (Pd & [Vd|(Nd & Ad)]).
  - rewrite <- Vd in *. apply fix_rel_err; auto.
    eapply Rle_trans; [|exact Hn]. apply pow10_le. lia.
  - set (d := div_raw ctx a b) in *.
    pose proof (V_pos d Pd) as Hv.
    assert (Hx : (0 < V a / V b)%R).
    { pose proof (pow10_pos (Emin ctx + 1)). lra. }
    assert (He : (pow10 (_exp d) <= pow10 (- prec ctx) * V d)%R).
    { pose proof (V_adjusted d Pd) as [HL _].
      assert (pow10 (_exp d) = pow10 (- prec ctx) * pow10 (prec ctx + _exp d))%R.
      { rewrite <- pow10_add. f_equal. lia. }
      assert (pow10 (prec ctx + _exp d) <= pow10 (adjusted d))%R
        by (apply pow10_le; unfold adjusted; lia).
      pose proof (pow10_pos (- prec ctx)). nra. }
    assert (Ht : (pow10 (- prec ctx) <= / 10)%R) by (apply pow10_tenth; lia).
    pose proof (pow10_pos (- prec ctx)) as Hpp.
    assert (Hadj : Emin ctx <= adjusted d).
    { apply adjusted_ge; auto.
      apply Rabs_def2 in Ad. destruct Ad as [A1 A2].
      rewrite pow10_succ in Hn. pose proof (pow10_pos (Emin ctx)). nra. }
    destruct (sticky_rel ctx d (V a / V b)%R r Hwf Pd Nd Ad Hadj E') as [H _].
    split; [exact H|].
    apply V_pos_inv. apply Rabs_le_inv in H. pose proof rel_err_small. nra.
Qed.

End RelativeErrors.

(** ** The square root of two *)

Lemma sqrt_raw_two_near ctx :
  wf_context ctx ->
  exists n, sqrt_raw ctx (Decimal_of_int 2) = mkDec n (- prec ctx) /\
            14 * 10 ^ (prec ctx - 1) <= n <= 15 * 10 ^ (prec ctx - 1) /\
            (n - 1) * (n - 1) < 2 * (10 ^ prec ctx * 10 ^ prec ctx) < (n + 1) * (n + 1).
Proof.
  intros [Hp HE]. unfold sqrt_raw, Decimal_of_int. cbn [_int _exp].
  change (Z.odd 0) with false. cbv iota.
  change (ndigits 2) with 1. change ((1 + 1) / 2) with 1. change (0 / 2) with 0.
  replace (prec ctx + 1 - 1) with (prec ctx) by lia.
  destruct (Z.leb_spec 0 (prec ctx)) as [_|?]; [|lia].
  assert (H100 : 100 ^ prec ctx = 10 ^ prec ctx * 10 ^ prec ctx).
  { change 100 with (10 * 10). now rewrite Z.pow_mul_l. }
  set (c := 2 * 100 ^ prec ctx). set (n := Z.sqrt c).
  pose proof (Zpow10_gt0 (prec ctx - 1) ltac:(lia)) as Hpp.
  assert (HT : 10 ^ prec ctx = 10 * 10 ^ (prec ctx - 1)).
  { replace (prec ctx) with (Z.succ (prec ctx - 1)) at 1 by lia.
    rewrite Z.pow_succ_r by lia. reflexivity. }
  assert (Hc : c = 2 * (10 ^ prec ctx * 10 ^ prec ctx)) by (unfold c; now rewrite H100).
  assert (Hc0 : 0 <= c) by nia.
  pose proof (Z.sqrt_spec c Hc0) as [S1 S2]. fold n in S1, S2.
  assert (Hn0 : 0 <= n) by apply Z.sqrt_nonneg.
  assert (Hne : n * n <> c).
  { unfold c. rewrite <- (Z2Nat.id (prec ctx)) by lia. apply two_not_square. }
  assert (Hne' : (n * n =? c) = false) by now apply Z.eqb_neq.
  rewrite Hne'. cbn [andb].
  exists (if n mod 5 =? 0 then n + 1 else n). split; [f_equal; lia|].
  rewrite <- Hc.
  assert (14 * 10 ^ (prec ctx - 1) <= n < 15 * 10 ^ (prec ctx - 1)) by nia.
  unfold Z.succ in S2.
  destruct (n mod 5 =? 0); (split; [lia|nia]).
Qed.

Lemma sqrt2_sq : (sqrt 2 * sqrt 2 = 2)%R.
Proof. apply sqrt_sqrt. lra. Qed.

Lemma sqrt2_pos : (0 < sqrt 2)%R.
Proof. apply sqrt_lt_R0. lra. Qed.

Lemma sqrt_two_rel ctx root :
  wf_context ctx -> 2 <= prec ctx ->
  Decimal_sqrt (Decimal_of_int 2) ctx = (ctx, Ok root) ->
  (Rabs (V root - sqrt 2) <= rel_err ctx * sqrt 2)%R /\ 0 < _int root.
Proof.
  intros Hwf Hp E. pose proof Hwf as [_ HE].
  unfold Decimal_sqrt, with_context in E.
  change (_int (Decimal_of_int 2) =? 0) with false in E. cbv iota in E.
  set (ctx' := {| prec := prec ctx; rounding := ROUND_HALF_EVEN;
                  Emin := Emin ctx; Emax := Emax ctx |}) in *.
  assert (Hwf' : wf_context ctx') by exact Hwf.
  destruct (sqrt_raw_two_near ctx Hwf) as (n & En & Hn & Hsq).
  rewrite En in E. inversion E as [E']. clear E.
  pose proof (Zpow10_gt0 (prec ctx - 1) ltac:(lia)) as Hpp.
  assert (HT : 10 ^ prec ctx = 10 * 10 ^ (prec ctx - 1)).
  { replace (prec ctx) with (Z.succ (prec ctx - 1)) at 1 by lia.
    rewrite Z.pow_succ_r by lia. reflexivity. }
  set (d := mkDec n (- prec ctx)) in *.
  assert (Pd : 0 < _int d) by (cbn; lia).
  assert (Nd : ndigits (_int d) = prec ctx + 1).
  { apply ndigits_unique; [|lia]. cbn [_int d].
    replace (prec ctx + 1 - 1) with (prec ctx) by lia.
    rewrite (Z.pow_add_r 10 (prec ctx) 1) by lia. change (10 ^ 1) with 10. lia. }
  assert (Ad : (Rabs (V d - sqrt 2) < pow10 (_exp d))%R).
  { unfold V. cbn [_int _exp d].
    pose proof (pow10_pos (- prec ctx)) as Hm.
    assert (Hinv : (pow10 (prec ctx) * pow10 (- prec ctx) = 1)%R).
    { rewrite <- pow10_add. replace (prec ctx + - prec ctx) with 0 by lia. apply pow10_0. }
    pose proof (pow10_pos (prec ctx)) as HTp.
    pose proof sqrt2_sq as Hs. pose proof sqrt2_pos as Hs0.
    destruct Hsq as [Q1 Q2].
    apply IZR_lt in Q1, Q2.
    rewrite !mult_IZR in Q1, Q2. rewrite minus_IZR in Q1. rewrite plus_IZR in Q2.
    rewrite <- !pow10_IZR in Q1, Q2 by lia.
    assert (Hn1 : (1 <= IZR n)%R) by (apply IZR_le; lia).
    set (T := pow10 (prec ctx)) in *. set (t := pow10 (- prec ctx)) in *.
    set (x := IZR n) in *. set (s := sqrt 2) in *.
    assert (L1 : (x - 1 < s * T)%R).
    { destruct (Rlt_le_dec (x - 1) (s * T)) as [?|G]; [assumption|exfalso].
      assert ((s * T) * (s * T) <= (x - 1) * (x - 1))%R by (apply Rmult_le_compat; nra).
      nra. }
    assert (L2 : (s * T < x + 1)%R).
    { destruct (Rlt_le_dec (s * T) (x + 1)) as [?|G]; [assumption|exfalso].
      assert ((x + 1) * (x + 1) <= (s * T) * (s * T))%R by (apply Rmult_le_compat; nra).
      nra. }
    assert (Hx : ((x * t - s) * T = x - s * T)%R).
    { replace ((x * t - s) * T)%R with (x * (T * t) - s * T)%R by ring.
      rewrite Hinv. ring. }
    assert (Ht : (t * T = 1)%R) by (rewrite Rmult_comm; exact Hinv).
    apply Rabs_def1.
    - apply Rmult_lt_reg_r with T; [exact HTp|]. rewrite Hx, Ht. lra.
    - apply Rmult_lt_reg_r with T; [exact HTp|].
      replace (- t * T)%R with (- (t * T))%R by ring. rewrite Hx, Ht. lra. }
  assert (Hadj : Emin ctx' <= adjusted d).
  { unfold adjusted. rewrite Nd. cbn [_exp d Emin ctx']. lia. }
  destruct (sticky_rel ctx' d (sqrt 2) root Hwf' Pd ltac:(rewrite Nd; cbn; lia) Ad Hadj E')
    as [H _].
  change (rel_err ctx') with (rel_err ctx) in H.
  split; [exact H|].
  apply V_pos_inv. apply Rabs_le_inv in H.
  pose proof (rel_err_small ctx Hp). pose proof sqrt2_pos. nra.
Qed.

(** ** Composition of relative errors *)

Section Approx.

Variable ctx : Context.
Hypothesis Hprec2 : 2 <= prec ctx.

Lemma approx_refl x : approx ctx 0 x x.
Proof. unfold approx. lra. Qed.

Lemma approx_of_abs xh x :
  (Rabs (xh - x) <= rel_err ctx * x)%R -> approx ctx 1 xh x.
Proof. intros H. apply Rabs_le_inv in H. unfold approx. lra. Qed.

Lemma approx_abs a xh x :
  approx ctx a xh x -> (Rabs (xh - x) <= a * rel_err ctx * x)%R.
Proof. intros [H1 H2]. apply Rabs_le. lra. Qed.

Lemma approx_weaken a b xh x :
  (0 <= x)%R -> (a <= b)%R -> approx ctx a xh x -> approx ctx b xh x.
Proof.
  intros Hx Hab [H1 H2]. pose proof (rel_err_pos ctx) as Hd. unfold approx.
  assert (0 <= x * rel_err ctx)%R by nra.
  assert (x * rel_err ctx * a <= x * rel_err ctx * b)%R by (apply Rmult_le_compat_l; lra).
  split; lra.
Qed.

Lemma approx_add a xh x yh y :
  approx ctx a xh x -> approx ctx a yh y -> approx ctx a (xh + yh) (x + y).
Proof. intros [H1 H2] [H3 H4]. unfold approx. lra. Qed.

Lemma approx_mul a b xh x yh y :
  (0 <= x)%R -> (0 <= y)%R -> (0 <= a)%R -> (0 <= b)%R ->
  (a * rel_err ctx <= 1)%R -> (b * rel_err ctx <= 1)%R -> (a * b * rel_err ctx <= 1)%R ->
  approx ctx a xh x -> approx ctx b yh y -> approx ctx (a + b + 1) (xh * yh) (x * y).
Proof.
  intros Hx Hy Ha Hb Had Hbd Habd [H1 H2] [H3 H4].
  pose proof (rel_err_pos ctx) as Hd. unfold approx.
  set (d := rel_err ctx) in *. clearbody d.
  assert (0 <= x * (1 - a * d))%R by nra.
  assert (0 <= y * (1 - b * d))%R by nra.
  assert (U : (xh * yh <= x * (1 + a * d) * (y * (1 + b * d)))%R)
    by (apply Rmult_le_compat; lra).
  assert (L : (x * (1 - a * d) * (y * (1 - b * d)) <= xh * yh)%R)
    by (apply Rmult_le_compat; lra).
  assert (0 <= x * y)%R by nra.
  assert (a * b * d * d <= d)%R.
  { apply Rle_trans with (1 * d)%R; [apply Rmult_le_compat_r; lra|lra]. }
  assert (0 <= a * b * d * d)%R by (repeat apply Rmult_le_pos; lra).
  split.
  - eapply Rle_trans; [|exact L].
    replace (x * (1 - a * d) * (y * (1 - b * d)))%R
      with (x * y * (1 - (a + b) * d + a * b * d * d))%R by ring.
    apply Rmult_le_compat_l; lra.
  - eapply Rle_trans; [exact U|].
    replace (x * (1 + a * d) * (y * (1 + b * d)))%R
      with (x * y * (1 + (a + b) * d + a * b * d * d))%R by ring.
    apply Rmult_le_compat_l; lra.
Qed.

Lemma approx_round a r yh y :
  (0 <= y)%R -> (0 <= a)%R -> (a * rel_err ctx <= 1)%R ->
  approx ctx a yh y -> (Rabs (r - yh) <= rel_err ctx * yh)%R -> approx ctx (a + 2) r y.
Proof.
  intros Hy Ha Had Hyh Hr.
  pose proof (rel_err_pos ctx) as Hd. pose proof (rel_err_small ctx Hprec2) as Hs.
  destruct Hyh as [H2 H3]. apply Rabs_le_inv in Hr. unfold approx.
  set (d := rel_err ctx) in *. clearbody d.
  assert (0 <= y * (1 - a * d))%R by nra.
  assert (0 <= yh)%R by lra.
  assert (a * d * d <= d)%R.
  { apply Rle_trans with (1 * d)%R; [apply Rmult_le_compat_r; lra|lra]. }
  assert (0 <= a * d * d)%R by (repeat apply Rmult_le_pos; lra).
  split.
  - apply Rle_trans with (y * (1 - a * d) * (1 - d))%R.
    + replace (y * (1 - a * d) * (1 - d))%R
        with (y * (1 - (a + 1) * d + a * d * d))%R by ring.
      apply Rmult_le_compat_l; lra.
    + apply Rle_trans with (yh * (1 - d))%R; [|lra].
      apply Rmult_le_compat_r; lra.
  - apply Rle_trans with (y * (1 + a * d) * (1 + d))%R.
    + apply Rle_trans with (yh * (1 + d))%R; [lra|].
      apply Rmult_le_compat_r; lra.
    + replace (y * (1 + a * d) * (1 + d))%R
        with (y * (1 + (a + 1) * d + a * d * d))%R by ring.
      apply Rmult_le_compat_l; lra.
Qed.

Lemma approx_inv b yh y :
  (0 < y)%R -> (0 <= b)%R -> (2 * b * rel_err ctx <= 1)%R ->
  approx ctx b yh y -> approx ctx (2 * b) (/ yh) (/ y) /\ (0 < yh)%R.
Proof.
  intros Hy Hb Hbd [H1 H2]. pose proof (rel_err_pos ctx) as Hd. unfold approx.
  set (d := rel_err ctx) in *. clearbody d.
  assert (Hyh : (0 < yh)%R) by nra.
  split; [|exact Hyh].
  assert (Hiy : (0 < / y)%R) by now apply Rinv_0_lt_compat.
  assert (Hiyh : (0 < / yh)%R) by now apply Rinv_0_lt_compat.
  assert (E1 : (y * / y = 1)%R) by (apply Rinv_r; lra).
  assert (E2 : (yh * / yh = 1)%R) by (apply Rinv_r; lra).
  assert (Hz : (0 <= b * d)%R) by (apply Rmult_le_pos; lra).
  replace (2 * b * d)%R with (2 * (b * d))%R in * by ring.
  set (z := (b * d)%R) in *. clearbody z.
  assert (Hyz : (0 <= y * z)%R) by (apply Rmult_le_pos; lra).
  assert (Hyzz : (0 <= y * z * z)%R) by (apply Rmult_le_pos; lra).
  assert (Hpos : (0 < yh * y)%R) by (apply Rmult_lt_0_compat; lra).
  split.
  - apply Rmult_le_reg_l with (yh * y)%R; [exact Hpos|].
    replace (yh * y * (/ y * (1 - 2 * z)))%R
      with ((y * / y) * (yh * (1 - 2 * z)))%R by ring.
    replace (yh * y * / yh)%R with ((yh * / yh) * y)%R by ring.
    rewrite E1, E2.
    assert (yh * (1 - 2 * z) <= y * (1 + z) * (1 - 2 * z))%R
      by (apply Rmult_le_compat_r; lra).
    replace (y * (1 + z) * (1 - 2 * z))%R with (y - y * z - 2 * (y * z * z))%R in H by ring.
    lra.
  - apply Rmult_le_reg_l with (yh * y)%R; [exact Hpos|].
    replace (yh * y * (/ y * (1 + 2 * z)))%R
      with ((y * / y) * (yh * (1 + 2 * z)))%R by ring.
    replace (yh * y * / yh)%R with ((yh * / yh) * y)%R by ring.
    rewrite E1, E2.
    assert (y * (1 - z) * (1 + 2 * z) <= yh * (1 + 2 * z))%R
      by (apply Rmult_le_compat_r; lra).
    replace (y * (1 - z) * (1 + 2 * z))%R with (y + y * z - 2 * (y * z * z))%R in H by ring.
    assert (2 * (y * z * z) <= y * z)%R.
    { replace (2 * (y * z * z))%R with (y * z * (2 * z))%R by ring.
      apply Rle_trans with (y * z * 1)%R; [apply Rmult_le_compat_l; lra|lra]. }
    lra.
Qed.

Lemma approx_div a b xh x yh y :
  (0 <= x)%R -> (0 < y)%R -> (0 <= a)%R -> (0 <= b)%R ->
  (a * rel_err ctx <= 1)%R -> (2 * b * rel_err ctx <= 1)%R -> (a * (2 * b) * rel_err ctx <= 1)%R ->
  approx ctx a xh x -> approx ctx b yh y ->
  approx ctx (a + 2 * b + 1) (xh / yh) (x / y).
Proof.
  intros Hx Hy Ha Hb Had Hbd Habd Hxh Hyh.
  destruct (approx_inv b yh y Hy Hb Hbd Hyh) as [Hi _].
  unfold Rdiv.
  apply approx_mul; auto; try lra.
  left. now apply Rinv_0_lt_compat.
Qed.

End Approx.

(** ** The terms of the exact series *)

(** No term is less than [10^-10] times the one before:
    [1103 D_k <= N_k 10^(10k)]. *)
Lemma term_growth (n : nat) :
  1103 * denominator_int (Z.of_nat n) <= numerator_int (Z.of_nat n) * 10 ^ (10 * Z.of_nat n).
Proof.
  induction n as [|n IH].
  - vm_compute. discriminate.
  - rewrite Nat2Z.inj_succ. unfold Z.succ.
    set (z := Z.of_nat n) in *. assert (Hz : 0 <= z) by (unfold z; lia).
    unfold numerator_int, denominator_int in *.
    rewrite factorial_4_succ, factorial_succ by lia.
    replace (10 * (z + 1)) with (10 * z + 10) by lia.
    replace (4 * (z + 1)) with (4 * z + 4) by lia.
    rewrite !Z.pow_add_r, Z.pow_mul_l by lia.
    pose proof (factorial_pos (4 * z)) as Ha. pose proof (factorial_pos z) as Hf.
    assert (Hw : 0 < 396 ^ (4 * z)) by (apply Z.pow_pos_nonneg; lia).
    assert (HT : 0 < 10 ^ (10 * z)) by (apply Z.pow_pos_nonneg; lia).
    assert (Hf4 : 0 < factorial z ^ 4) by (apply Z.pow_pos_nonneg; lia).
    set (a := factorial (4 * z)) in *. set (f4 := factorial z ^ 4) in *.
    set (w := 396 ^ (4 * z)) in *. set (T := 10 ^ (10 * z)) in *.
    clearbody a f4 w T.
    set (M := (z + 1) ^ 4).
    assert (HM : 0 < M) by (unfold M; apply Z.pow_pos_nonneg; lia).
    set (Pi4 := (4 * z + 4) * (4 * z + 3) * (4 * z + 2) * (4 * z + 1)).
    assert (HP : 24 * M <= Pi4).
    { unfold M, Pi4.
      replace ((z + 1) ^ 4) with ((z + 1) * (z + 1) * ((z + 1) * (z + 1))) by ring.
      assert (12 * ((z + 1) * (z + 1)) <= (4 * z + 4) * (4 * z + 3)) by nia.
      assert (2 * ((z + 1) * (z + 1)) <= (4 * z + 2) * (4 * z + 1)) by nia.
      assert (0 <= (z + 1) * (z + 1)) by nia.
      replace (24 * ((z + 1) * (z + 1) * ((z + 1) * (z + 1))))
        with (12 * ((z + 1) * (z + 1)) * (2 * ((z + 1) * (z + 1)))) by ring.
      replace ((4 * z + 4) * (4 * z + 3) * (4 * z + 2) * (4 * z + 1))
        with ((4 * z + 4) * (4 * z + 3) * ((4 * z + 2) * (4 * z + 1))) by ring.
      apply Z.mul_le_mono_nonneg; lia. }
    clearbody M Pi4.
    change (10 ^ 10) with 10000000000. change (396 ^ 4) with 24591257856.
    set (X := a * (1103 + 26390 * z) * T) in *.
    set (Y := 1103 * (f4 * w)) in *.
    assert (HY : 0 <= Y) by (unfold Y; nia).
    assert (HXX : X <= a * (1103 + 26390 * (z + 1)) * T).
    { unfold X. apply Z.mul_le_mono_nonneg_r; [lia|].
      apply Z.mul_le_mono_nonneg_l; lia. }
    set (X' := a * (1103 + 26390 * (z + 1)) * T) in *.
    replace (1103 * (M * f4 * (w * 24591257856))) with (24591257856 * (M * Y))
      by (unfold Y; ring).
    replace (Pi4 * a * (1103 + 26390 * (z + 1)) * (T * 10000000000))
      with (10000000000 * (Pi4 * X')) by (unfold X'; ring).
    clearbody X X' Y.
    assert (H1 : M * Y <= M * X') by (apply Z.mul_le_mono_nonneg_l; lia).
    assert (H2 : 24 * M * X' <= Pi4 * X') by (apply Z.mul_le_mono_nonneg_r; lia).
    assert (H3 : 0 <= M * Y) by (apply Z.mul_nonneg_nonneg; lia).
    lia.
Qed.

Lemma term_pos k : (0 < term k)%R.
Proof.
  unfold term. apply Rdiv_lt_0_compat; apply IZR_lt;
    [apply numerator_int_pos|apply denominator_int_pos]; lia.
Qed.

Lemma term_0 : term 0 = 1103%R.
Proof.
  unfold term. change (numerator_int (Z.of_nat 0)) with 1103.
  change (denominator_int (Z.of_nat 0)) with 1. lra.
Qed.

Lemma term_upper k : (term k <= 1103 * pow10 (- (6 * Z.of_nat k)))%R.
Proof.
  unfold term. set (z := Z.of_nat k). assert (Hz : 0 <= z) by (unfold z; lia).
  pose proof (term_decay k) as H. fold z in H.
  pose proof (denominator_int_pos z Hz) as HD. apply IZR_lt in HD.
  apply IZR_le in H. rewrite !mult_IZR, <- pow10_IZR in H by lia.
  pose proof (pow10_pos (6 * z)) as HT. pose proof (pow10_pos (- (6 * z))) as Ht.
  assert (Hinv : (pow10 (6 * z) * pow10 (- (6 * z)) = 1)%R).
  { rewrite <- pow10_add. replace (6 * z + - (6 * z)) with 0 by lia. apply pow10_0. }
  apply Rmult_le_reg_r with (IZR (denominator_int z) * pow10 (6 * z))%R.
  { apply Rmult_lt_0_compat; lra. }
  replace (IZR (numerator_int z) / IZR (denominator_int z) *
           (IZR (denominator_int z) * pow10 (6 * z)))%R
    with (IZR (numerator_int z) * pow10 (6 * z))%R by (field; lra).
  replace (1103 * pow10 (- (6 * z)) * (IZR (denominator_int z) * pow10 (6 * z)))%R
    with (1103 * IZR (denominator_int z) * (pow10 (6 * z) * pow10 (- (6 * z))))%R by ring.
  rewrite Hinv. lra.
Qed.

Lemma term_lower k : (1103 * pow10 (- (10 * Z.of_nat k)) <= term k)%R.
Proof.
  unfold term. set (z := Z.of_nat k). assert (Hz : 0 <= z) by (unfold z; lia).
  pose proof (term_growth k) as H. fold z in H.
  pose proof (denominator_int_pos z Hz) as HD. apply IZR_lt in HD.
  apply IZR_le in H. rewrite !mult_IZR, <- pow10_IZR in H by lia.
  pose proof (pow10_pos (10 * z)) as HT. pose proof (pow10_pos (- (10 * z))) as Ht.
  assert (Hinv : (pow10 (10 * z) * pow10 (- (10 * z)) = 1)%R).
  { rewrite <- pow10_add. replace (10 * z + - (10 * z)) with 0 by lia. apply pow10_0. }
  apply Rmult_le_reg_r with (IZR (denominator_int z) * pow10 (10 * z))%R.
  { apply Rmult_lt_0_compat; lra. }
  replace (IZR (numerator_int z) / IZR (denominator_int z) *
           (IZR (denominator_int z) * pow10 (10 * z)))%R
    with (IZR (numerator_int z) * pow10 (10 * z))%R by (field; lra).
  replace (1103 * pow10 (- (10 * z)) * (IZR (denominator_int z) * pow10 (10 * z)))%R
    with (1103 * IZR (denominator_int z) * (pow10 (10 * z) * pow10 (- (10 * z))))%R by ring.
  rewrite Hinv. lra.
Qed.

Lemma series_S n : series (S n) = (series n + term n)%R.
Proof. reflexivity. Qed.

Lemma series_nonneg n : (0 <= series n)%R.
Proof.
  induction n as [|n IH]; [cbn; lra|]. rewrite series_S. pose proof (term_pos n). lra.
Qed.

Lemma series_mono m n : (m <= n)%nat -> (series m <= series n)%R.
Proof.
  induction 1 as [|n H IH]; [lra|]. rewrite series_S. pose proof (term_pos n). lra.
Qed.

Lemma series_ge n : (1 <= n)%nat -> (1103 <= series n)%R.
Proof.
  intros H. apply Rle_trans with (series 1); [|now apply series_mono].
  cbn [series]. rewrite term_0. lra.
Qed.

Lemma term_1 : (term 1 <= 26832 / 1000000000)%R.
Proof.
  unfold term.
  replace (numerator_int (Z.of_nat 1)) with 659832 by (vm_compute; reflexivity).
  replace (denominator_int (Z.of_nat 1)) with 24591257856 by (vm_compute; reflexivity).
  lra.
Qed.

(** All the terms after the first come to less than [0.00002684]. *)
Lemma series_le n : (series n <= 1103 + 2684 / 100000000)%R.
Proof.
  assert (H : forall m, (series (2 + m) + 2206 * pow10 (- (6 * Z.of_nat (2 + m)))
                         <= 1103 + 2684 / 100000000)%R).
  { induction m as [|m IH].
    - cbn [series Nat.add]. rewrite term_0. pose proof term_1.
      change (- (6 * Z.of_nat 2)) with (- (12)).
      rewrite pow10_opp, pow10_IZR by lia. change (10 ^ 12) with 1000000000000. lra.
    - replace (2 + S m)%nat with (S (2 + m)) by lia. rewrite series_S.
      pose proof (term_upper (2 + m)) as Ht.
      rewrite Nat2Z.inj_succ. unfold Z.succ.
      replace (- (6 * (Z.of_nat (2 + m) + 1))) with (- (6 * Z.of_nat (2 + m)) + -6) by lia.
      rewrite pow10_add. set (t := pow10 (- (6 * Z.of_nat (2 + m)))) in *.
      assert (0 < t)%R by apply pow10_pos.
      change (-6) with (- (6)). rewrite pow10_opp, (pow10_IZR 6) by lia.
      change (10 ^ 6) with 1000000.
      lra. }
  destruct (le_lt_dec 2 n) as [Hn|Hn].
  - specialize (H (n - 2)%nat). replace (2 + (n - 2))%nat with n in H by lia.
    pose proof (pow10_pos (- (6 * Z.of_nat n))). lra.
  - apply Rle_trans with (series 2); [apply series_mono; lia|].
    specialize (H O). pose proof (pow10_pos (- (6 * Z.of_nat (2 + 0)))).
    change (2 + 0)%nat with 2%nat in *. lra.
Qed.

(** ** The rounding errors of a call *)

Lemma bind_inv {A B} (m : M A) (g : A -> M B) ctx ctx' b :
  readonly m -> bind m g ctx = (ctx', Ok b) ->
  exists a, m ctx = (ctx, Ok a) /\ g a ctx = (ctx', Ok b).
Proof.
  intros Hm E. unfold bind in E. pose proof (Hm ctx) as Hc.
  destruct (m ctx) as [c [a|e]]; cbn [fst] in Hc; subst c.
  - now exists a.
  - discriminate.
Qed.

Lemma pow_ge_1 d n : (0 <= d)%R -> (1 <= (1 + d) ^ n)%R.
Proof. intros Hd. apply pow_R1_Rle. lra. Qed.

Section Accuracy.

Variable ctx : Context.
Hypothesis Hprec : 10 <= prec ctx.
Hypothesis Hemin : Emin ctx = -999999.
Hypothesis Hemax : Emax ctx = 999999.

Lemma acc_wf : wf_context ctx.
Proof. apply ctx_wf; auto. lia. Qed.

Lemma delta_small : (rel_err ctx <= 2 / 1000000000)%R.
Proof.
  unfold rel_err.
  assert (pow10 (1 - prec ctx) <= pow10 (- (9)))%R by (apply pow10_le; lia).
  rewrite pow10_opp, (pow10_IZR 9) in H by lia. change (10 ^ 9) with 1000000000 in H.
  lra.
Qed.

Lemma Emin_below e : -999999 <= e -> (pow10 (Emin ctx) <= pow10 e)%R.
Proof. intros H. apply pow10_le. lia. Qed.

Lemma Emin_below_1 x : (1 / 1000000 <= x)%R -> (pow10 (Emin ctx + 1) <= x)%R.
Proof.
  intros H. apply Rle_trans with (pow10 (- (6))); [apply pow10_le; lia|].
  rewrite pow10_opp, (pow10_IZR 6) by lia. change (10 ^ 6) with 1000000. lra.
Qed.

Lemma Emin_below_0 x : (1 / 1000000 <= x)%R -> (pow10 (Emin ctx) <= x)%R.
Proof.
  intros H. apply Rle_trans with (pow10 (Emin ctx + 1)); [apply pow10_le; lia|].
  now apply Emin_below_1.
Qed.

Lemma approx_lower_half a xh x :
  (0 <= x)%R -> (0 <= a <= 1000000)%R -> approx ctx a xh x -> (x / 2 <= xh <= 2 * x)%R.
Proof.
  intros Hx Ha [H1 H2]. pose proof delta_small as Hd. pose proof (rel_err_pos ctx) as Hp.
  set (d := rel_err ctx) in *. clearbody d.
  assert (a * d <= 1000000 * (2 / 1000000000))%R by (apply Rmult_le_compat; lra).
  assert (0 <= a * d)%R by (apply Rmult_le_pos; lra).
  assert (0 <= x * (a * d))%R by (apply Rmult_le_pos; lra).
  assert (x * (a * d) <= x * (1 / 2))%R by (apply Rmult_le_compat_l; lra).
  lra.
Qed.

Lemma small_prod a : (0 <= a <= 1000000)%R -> (a * rel_err ctx <= 1 / 100)%R.
Proof.
  intros Ha. pose proof delta_small as Hd. pose proof (rel_err_pos ctx) as Hp.
  assert (a * rel_err ctx <= 1000000 * (2 / 1000000000))%R by (apply Rmult_le_compat; lra).
  lra.
Qed.

Lemma small_prod1 a : (0 <= a <= 1000000)%R -> (a * rel_err ctx <= 1)%R.
Proof. intros Ha. pose proof (small_prod a Ha). lra. Qed.

(** One turn of the loop: the term is computed with a relative error of at
    most 14 units, and the sum takes one more rounding. *)
Lemma loop_body_approx k S S' :
  0 <= k < 30000 -> 0 <= _int S -> loop_body k S ctx = (ctx, Ok S') ->
  exists t, approx ctx 14 (V t) (term (Z.to_nat k)) /\ 0 < _int t /\
    (Rabs (V S' - (V S + V t)) <= rel_err ctx * (V S + V t))%R /\ 0 < _int S' /\
    Decimal_add S t ctx = (ctx, Ok S').
Proof.
  intros Hk HS E. pose proof acc_wf as Hwf. assert (Hp2 : 2 <= prec ctx) by lia.
  pose proof (rel_err_pos ctx) as Hd. pose proof delta_small as Hds.
  unfold loop_body in E.
  apply bind_inv in E; [|apply readonly_with_context]. destruct E as (N & EN & E).
  apply bind_inv in E; [|apply readonly_with_context]. destruct E as (Fp & EF & E).
  apply bind_inv in E; [|apply readonly_with_context]. destruct E as (W & EW & E).
  apply bind_inv in E; [|apply readonly_with_context]. destruct E as (Dn & ED & E).
  apply bind_inv in E; [|apply readonly_with_context]. destruct E as (t & ET & E).
  pose proof (factorial_pos (4 * k)) as Hf4k. pose proof (factorial_pos k) as Hfk.
  set (a := factorial (4 * k)) in *. set (f := factorial k) in *.
  assert (Hf4 : 0 < f ^ 4) by (apply Z.pow_pos_nonneg; lia).
  assert (Hw : 0 < 396 ^ (4 * k)) by (apply Z.pow_pos_nonneg; lia).
  (* the numerator *)
  destruct (mul_rel ctx Hwf Hp2 (Decimal_of_int a) (Decimal_of_int (1103 + 26390 * k)) N)
    as [RN PN]; try exact EN.
  { unfold Decimal_of_int. cbn [_int]. lia. }
  { unfold Decimal_of_int. cbn [_int]. lia. }
  { rewrite !V_of_int, <- mult_IZR. apply Rle_trans with (IZR 1).
    - apply Rle_trans with (pow10 0); [apply pow10_le; lia|rewrite pow10_0; lra].
    - apply IZR_le. nia. }
  rewrite !V_of_int, <- mult_IZR in RN. fold (numerator_int k) in RN.
  change (a * (1103 + 26390 * k)) with (numerator_int k) in RN.
  apply approx_of_abs in RN.
  (* the two powers *)
  destruct (pow_rel ctx Hwf Hp2 f 4 Fp ltac:(lia) ltac:(lia) EF) as [RF PF].
  destruct (pow_rel ctx Hwf Hp2 396 (4 * k) W ltac:(lia) ltac:(lia) EW) as [RW PW].
  apply approx_of_abs in RF, RW.
  assert (HF1 : (1 <= IZR (f ^ 4))%R) by (apply IZR_le; lia).
  assert (HW1 : (1 <= IZR (396 ^ (4 * k)))%R) by (apply IZR_le; lia).
  (* the denominator *)
  assert (AD0 : approx ctx (1 + 1 + 1) (V Fp * V W) (IZR (f ^ 4) * IZR (396 ^ (4 * k)))).
  { apply approx_mul; auto; lra. }
  rewrite <- mult_IZR in AD0. change (f ^ 4 * 396 ^ (4 * k)) with (denominator_int k) in AD0.
  pose proof (denominator_int_pos k ltac:(lia)) as HD. pose proof (numerator_int_pos k ltac:(lia)) as HN.
  assert (HD1 : (1 <= IZR (denominator_int k))%R) by (apply IZR_le; lia).
  assert (HN1 : (1 <= IZR (numerator_int k))%R) by (apply IZR_le; lia).
  destruct (mul_rel ctx Hwf Hp2 Fp W Dn PF PW) as [RD PD]; try exact ED.
  { apply Emin_below_0. apply approx_lower_half in AD0; lra. }
  assert (AD : approx ctx (1 + 1 + 1 + 2) (V Dn) (IZR (denominator_int k))).
  { apply approx_round with (V Fp * V W)%R; auto; lra. }
  (* the quotient *)
  set (x := (IZR (numerator_int k) / IZR (denominator_int k))%R) in *.
  assert (Hx : term (Z.to_nat k) = x).
  { unfold term, x. now rewrite Z2Nat.id by lia. }
  assert (Hxl : (pow10 (- 299991) <= x / 2)%R).
  { pose proof (term_lower (Z.to_nat k)) as Hl. rewrite Hx, Z2Nat.id in Hl by lia.
    assert (pow10 (- 299990) <= pow10 (- (10 * k)))%R by (apply pow10_le; lia).
    assert (pow10 (- 299990) = 10 * pow10 (- 299991))%R.
    { replace (- 299990) with (- 299991 + 1) by lia. apply pow10_succ. }
    pose proof (pow10_pos (- 299991)). pose proof (pow10_pos (- (10 * k))). lra. }
  assert (Hx0 : (0 < x)%R) by (pose proof (pow10_pos (- 299991)); lra).
  assert (AQ : approx ctx (1 + 2 * (1 + 1 + 1 + 2) + 1) (V N / V Dn) x).
  { unfold x. apply approx_div; auto; lra. }
  destruct (div_rel ctx Hwf Hp2 N Dn t PN PD) as [RT PT]; try exact ET.
  { apply approx_lower_half in AQ; [|lra|lra].
    apply Rle_trans with (pow10 (- 299991)); [apply pow10_le; lia|lra]. }
  assert (AT : approx ctx (1 + 2 * (1 + 1 + 1 + 2) + 1 + 2) (V t) x).
  { apply approx_round with (V N / V Dn)%R; auto; lra. }
  exists t. rewrite Hx. split.
  { eapply approx_weaken; [lra| |exact AT]. lra. }
  split; [exact PT|].
  assert (HA : (Rabs (V S' - (V S + V t)) <= rel_err ctx * (V S + V t))%R /\ 0 < _int S').
  { apply add_rel; auto; try lia.
    pose proof (V_nonneg S HS).
    apply approx_lower_half in AT; [|lra|lra].
    apply Rle_trans with (pow10 (- 299991)); [apply pow10_le; lia|lra]. }
  destruct HA as [HA1 HA2]. split; [exact HA1|]. split; [exact HA2|exact E].
Qed.

(** The loop: the sum after [n] more turns carries the error of the terms
    and one rounding for each turn. *)
Lemma loop_approx n : forall (k : nat) acc acc' (j : nat),
  Z.of_nat k + Z.of_nat n <= 30000 -> 0 <= _int acc ->
  for_range n (Z.of_nat k) loop_body acc ctx = (ctx, Ok acc') ->
  (series k * ((1 - 14 * rel_err ctx) * (1 - rel_err ctx) ^ j) <= V acc
     <= series k * ((1 + 14 * rel_err ctx) * (1 + rel_err ctx) ^ j))%R ->
  (series (k + n) * ((1 - 14 * rel_err ctx) * (1 - rel_err ctx) ^ (j + n)) <= V acc'
     <= series (k + n) * ((1 + 14 * rel_err ctx) * (1 + rel_err ctx) ^ (j + n)))%R /\
  0 <= _int acc'.
Proof.
  pose proof (rel_err_pos ctx) as Hd. pose proof delta_small as Hds.
  induction n as [|n IH]; intros k acc acc' j Hk HS E Inv.
  - cbn [for_range] in E. unfold ret in E. inversion E; subst acc'.
    rewrite !Nat.add_0_r. auto.
  - rewrite for_range_S in E.
    apply bind_inv in E; [|apply readonly_loop_body]. destruct E as (acc1 & E1 & E).
    destruct (loop_body_approx (Z.of_nat k) acc acc1 ltac:(lia) HS E1)
      as (t & At & Pt & R1 & P1 & _).
    rewrite Nat2Z.id in At.
    replace (Z.of_nat k + 1) with (Z.of_nat (S k)) in E by lia.
    replace (k + S n)%nat with (S k + n)%nat by lia.
    replace (j + S n)%nat with (S j + n)%nat by lia.
    apply (IH (S k) acc1 acc' (S j)); [lia|lia|exact E|].
    rewrite series_S. cbn [pow].
    pose proof (series_nonneg k) as Hs. pose proof (term_pos k) as Hx.
    pose proof (pow_ge_1 (rel_err ctx) j ltac:(lra)) as HP.
    destruct (pow_bernoulli_low (rel_err ctx) j ltac:(lra)) as [_ HQ].
    destruct At as [At1 At2]. destruct Inv as [I1 I2]. apply Rabs_le_inv in R1.
    set (d := rel_err ctx) in *. clearbody d.
    set (Pj := ((1 + d) ^ j)%R) in *. set (Qj := ((1 - d) ^ j)%R) in *. clearbody Pj Qj.
    set (s := series k) in *. set (x := term k) in *. clearbody s x.
    set (vs := V acc) in *. set (vt := V t) in *. set (v1 := V acc1) in *. clearbody vs vt v1.
    set (U := (1 + 14 * d)%R) in *. set (L := (1 - 14 * d)%R) in *.
    assert (HU : (1 <= U)%R) by (unfold U; lra).
    assert (HL : (0 <= L <= 1)%R) by (unfold L; lra).
    clearbody U L.
    split.
    + (* lower *)
      assert (B1 : (x * L * Qj <= x * L)%R).
      { rewrite <- (Rmult_1_r (x * L)) at 2. apply Rmult_le_compat_l; [|lra].
        apply Rmult_le_pos; lra. }
      assert (B2 : (0 <= s * (L * Qj) + x * L * Qj)%R).
      { apply Rplus_le_le_0_compat; repeat apply Rmult_le_pos; lra. }
      assert (B3 : ((s * (L * Qj) + x * L * Qj) * (1 - d) <= (vs + vt) * (1 - d))%R)
        by (apply Rmult_le_compat_r; lra).
      replace ((s + x) * (L * ((1 - d) * Qj)))%R
        with ((s * (L * Qj) + x * L * Qj) * (1 - d))%R by ring.
      lra.
    + assert (B1 : (x * U <= x * U * Pj)%R).
      { rewrite <- (Rmult_1_r (x * U)) at 1. apply Rmult_le_compat_l; [|lra].
        apply Rmult_le_pos; lra. }
      assert (B2 : (0 <= vs + vt)%R).
      { assert (0 <= s * (L * Qj))%R by (repeat apply Rmult_le_pos; lra).
        assert (0 <= x * L)%R by (apply Rmult_le_pos; lra). lra. }
      assert (B3 : ((vs + vt) * (1 + d) <= (s * (U * Pj) + x * U * Pj) * (1 + d))%R)
        by (apply Rmult_le_compat_r; lra).
      replace ((s + x) * (U * ((1 + d) * Pj)))%R
        with ((s * (U * Pj) + x * U * Pj) * (1 + d))%R by ring.
      lra.
Qed.

(** The whole sum. *)
Lemma sum_approx it S :
  1 <= it <= 30000 ->
  for_range (Z.to_nat it) 0 loop_body (Decimal_of_int 0) ctx = (ctx, Ok S) ->
  approx ctx (2 * IZR it + 15) (V S) (series (Z.to_nat it)) /\ 0 <= _int S.
Proof.
  intros Hit E. pose proof (rel_err_pos ctx) as Hd. pose proof delta_small as Hds.
  destruct (loop_approx (Z.to_nat it) O (Decimal_of_int 0) S O) as [[B1 B2] PS].
  { lia. } { cbn. lia. } { exact E. }
  { cbn [series]. rewrite V_of_int. lra. }
  split; [|exact PS].
  cbn [Nat.add] in B1, B2.
  set (n := Z.to_nat it) in *.
  assert (Hn : INR n = IZR it).
  { unfold n. rewrite INR_IZR_INZ, Z2Nat.id by lia. reflexivity. }
  assert (HN : (1 <= IZR it <= 30000)%R) by (split; apply IZR_le; lia).
  pose proof (series_nonneg n) as Hs.
  assert (H2n : (2 * INR n * rel_err ctx <= 1)%R).
  { rewrite Hn. assert (IZR it * rel_err ctx <= 30000 * (2 / 1000000000))%R
      by (apply Rmult_le_compat; lra). lra. }
  pose proof (pow_bernoulli_up (rel_err ctx) n ltac:(lra) H2n) as HU.
  destruct (pow_bernoulli_low (rel_err ctx) n ltac:(lra)) as [HL1 HL2].
  rewrite Hn in HU, HL1. unfold approx.
  set (d := rel_err ctx) in *. clearbody d.
  set (Pn := ((1 + d) ^ n)%R) in *. set (Qn := ((1 - d) ^ n)%R) in *. clearbody Pn Qn.
  set (s := series n) in *. clearbody s. set (N := IZR it) in *. clearbody N.
  assert (HNd : (0 <= N * d)%R) by (apply Rmult_le_pos; lra).
  assert (HNdd : (N * d * d <= 30000 * (2 / 1000000000) * d)%R).
  { apply Rmult_le_compat_r; [lra|]. apply Rmult_le_compat; lra. }
  assert (HNdd0 : (0 <= N * d * d)%R) by (apply Rmult_le_pos; lra).
  split.
  - eapply Rle_trans; [|exact B1]. apply Rmult_le_compat_l; [exact Hs|].
    apply Rle_trans with ((1 - 14 * d) * (1 - N * d))%R.
    + replace ((1 - 14 * d) * (1 - N * d))%R
        with (1 - (N + 14) * d + 14 * (N * d * d))%R by ring.
      lra.
    + apply Rmult_le_compat_l; lra.
  - eapply Rle_trans; [exact B2|]. apply Rmult_le_compat_l; [exact Hs|].
    apply Rle_trans with ((1 + 14 * d) * (1 + 2 * N * d))%R.
    + apply Rmult_le_compat_l; lra.
    + replace ((1 + 14 * d) * (1 + 2 * N * d))%R
        with (1 + (2 * N + 14) * d + 28 * (N * d * d))%R by ring.
      lra.
Qed.

Lemma sqrt2_bounds : (14 / 10 <= sqrt 2 <= 15 / 10)%R.
Proof. pose proof sqrt2_sq. pose proof sqrt2_pos. split; nra. Qed.

(** The value of [pi_approx]: the docstring's formula cut after
    [iterations] terms, with a relative error of at most
    [4 * iterations + 53] units. *)
Lemma pi_approx_accuracy it a :
  1 <= it <= 30000 -> pi_approx_of it ctx = (ctx, Ok a) ->
  approx ctx (4 * IZR it + 53) (V a) (ramanujan it) /\ 0 < _int a.
Proof.
  intros Hit E. pose proof acc_wf as Hwf. assert (Hp2 : 2 <= prec ctx) by lia.
  pose proof (rel_err_pos ctx) as Hd. pose proof delta_small as Hds.
  pose proof sqrt2_bounds as Hs2.
  assert (HN : (1 <= IZR it <= 30000)%R) by (split; apply IZR_le; lia).
  unfold pi_approx_of in E.
  apply bind_inv in E; [|apply readonly_with_context]. destruct E as (root & ER & E).
  apply bind_inv in E; [|apply readonly_with_context]. destruct E as (tw & ETW & E).
  apply bind_inv in E; [|apply readonly_with_context]. destruct E as (C & EC & E).
  apply bind_inv in E; [|apply readonly_for_range]. destruct E as (sm & ES & E).
  apply bind_inv in E; [|apply readonly_with_context]. destruct E as (x & EX & E).
  (* the constant *)
  destruct (sqrt_two_rel ctx root Hwf Hp2 ER) as [RR PR]. apply approx_of_abs in RR.
  assert (A2R : approx ctx (0 + 1 + 1) (V (Decimal_of_int 2) * V root) (2 * sqrt 2)).
  { rewrite V_of_int. apply approx_mul; auto; try lra. apply approx_refl. }
  destruct (mul_rel ctx Hwf Hp2 (Decimal_of_int 2) root tw) as [RTW PTW]; auto.
  { cbn. lia. }
  { apply Emin_below_0. apply approx_lower_half in A2R; lra. }
  assert (ATW : approx ctx (0 + 1 + 1 + 2) (V tw) (2 * sqrt 2)).
  { apply approx_round with (V (Decimal_of_int 2) * V root)%R; auto; lra. }
  assert (AQ : approx ctx (0 + 1 + 1 + 2 + 2 * 0 + 1) (V tw / V (Decimal_of_int 9801))
                 (2 * sqrt 2 / 9801)).
  { rewrite V_of_int. apply approx_div; auto; try lra. apply approx_refl. }
  destruct (div_rel ctx Hwf Hp2 tw (Decimal_of_int 9801) C) as [RC PC]; auto.
  { cbn. lia. }
  { apply Emin_below_1. apply approx_lower_half in AQ; lra. }
  assert (AC : approx ctx 7 (V C) (2 * sqrt 2 / 9801)).
  { apply approx_weaken with (0 + 1 + 1 + 2 + 2 * 0 + 1 + 2)%R; [lra|lra|].
    apply approx_round with (V tw / V (Decimal_of_int 9801))%R; auto; lra. }
  (* the sum *)
  destruct (sum_approx it sm Hit ES) as [AS PS].
  pose proof (series_ge (Z.to_nat it) ltac:(lia)) as Hs1.
  pose proof (series_le (Z.to_nat it)) as Hs3.
  set (s := series (Z.to_nat it)) in *.
  assert (PS' : 0 < _int sm).
  { apply V_pos_inv. apply approx_lower_half in AS; lra. }
  (* one over pi *)
  assert (HCS : (0 <= 7 * (2 * IZR it + 15) <= 1000000)%R) by lra.
  assert (AX0 : approx ctx (7 + (2 * IZR it + 15) + 1) (V C * V sm) (2 * sqrt 2 / 9801 * s)).
  { apply approx_mul; auto; try lra; try (apply small_prod1; lra). }
  assert (Hc : (28 / 100000 <= 2 * sqrt 2 / 9801 <= 31 / 100000)%R) by lra.
  assert (Hcs : (3 / 10 <= 2 * sqrt 2 / 9801 * s <= 4 / 10)%R) by nra.
  destruct (mul_rel ctx Hwf Hp2 C sm x PC PS') as [RX PX]; auto.
  { apply Emin_below_0. apply approx_lower_half in AX0; lra. }
  assert (AX : approx ctx (7 + (2 * IZR it + 15) + 1 + 2) (V x) (2 * sqrt 2 / 9801 * s)).
  { apply approx_round with (V C * V sm)%R; auto; try lra. apply small_prod1; lra. }
  (* the reciprocal *)
  assert (AI : approx ctx (0 + 2 * (7 + (2 * IZR it + 15) + 1 + 2) + 1)
                 (V (Decimal_of_int 1) / V x) (1 / (2 * sqrt 2 / 9801 * s))).
  { apply approx_div; auto; try lra; try (apply small_prod1; lra).
    rewrite V_of_int. apply approx_refl. }
  assert (Hr : (1 / (2 * sqrt 2 / 9801 * s) = ramanujan it)%R).
  { unfold ramanujan. fold s. field. lra. }
  rewrite Hr in AI.
  assert (Hrb : (2 <= ramanujan it <= 4)%R).
  { rewrite <- Hr. split.
    - apply Rmult_le_reg_r with (2 * sqrt 2 / 9801 * s)%R; [lra|].
      replace (1 / (2 * sqrt 2 / 9801 * s) * (2 * sqrt 2 / 9801 * s))%R with 1%R
        by (field; lra). lra.
    - apply Rmult_le_reg_r with (2 * sqrt 2 / 9801 * s)%R; [lra|].
      replace (1 / (2 * sqrt 2 / 9801 * s) * (2 * sqrt 2 / 9801 * s))%R with 1%R
        by (field; lra). lra. }
  destruct (div_rel ctx Hwf Hp2 (Decimal_of_int 1) x a) as [RA PA]; auto.
  { cbn. lia. }
  { apply Emin_below_1. apply approx_lower_half in AI; lra. }
  split; [|exact PA].
  apply approx_weaken with (0 + 2 * (7 + (2 * IZR it + 15) + 1 + 2) + 1 + 2)%R; [lra|lra|].
  apply approx_round with (V (Decimal_of_int 1) / V x)%R; auto; try lra.
  apply small_prod1. lra.
Qed.

End Accuracy.

(** ** The returned value and the exact formula *)

Lemma sqrt2_tight :
  (141421356237 / 100000000000 <= sqrt 2 <= 141421356238 / 100000000000)%R.
Proof.
  pose proof sqrt2_sq as Hs. pose proof sqrt2_pos as Hp.
  split.
  - destruct (Rle_lt_dec (141421356237 / 100000000000) (sqrt 2)) as [?|G]; [assumption|].
    exfalso.
    assert (sqrt 2 * sqrt 2 <= 141421356237 / 100000000000 * (141421356237 / 100000000000))%R
      by (apply Rmult_le_compat; lra).
    lra.
  - destruct (Rle_lt_dec (sqrt 2) (141421356238 / 100000000000)) as [?|G]; [assumption|].
    exfalso.
    assert (141421356238 / 100000000000 * (141421356238 / 100000000000) <= sqrt 2 * sqrt 2)%R
      by (apply Rmult_le_compat; lra).
    lra.
Qed.

(** Whatever the number of terms, the exact formula gives a value between
    [3.1415926535] and [3.1415927301]. *)
Lemma ramanujan_bounds it :
  1 <= it ->
  (31415926535 / 10000000000 <= ramanujan it <= 31415927301 / 10000000000)%R.
Proof.
  intros Hit. unfold ramanujan.
  pose proof (series_ge (Z.to_nat it) ltac:(lia)) as H1.
  pose proof (series_le (Z.to_nat it)) as H2.
  pose proof sqrt2_tight as [H3 H4].
  set (s := series (Z.to_nat it)) in *. clearbody s.
  set (w := sqrt 2) in *. clearbody w.
  assert (Hws : (0 < 2 * w * s)%R) by nra.
  assert (L : (2 * (141421356237 / 100000000000) * 1103 <= 2 * w * s)%R).
  { apply Rmult_le_compat; lra. }
  assert (U : (2 * w * s <= 2 * (141421356238 / 100000000000) * (1103 + 2684 / 100000000))%R).
  { apply Rmult_le_compat; lra. }
  split.
  - apply Rmult_le_reg_r with (2 * w * s)%R; [exact Hws|].
    replace (9801 / (2 * w * s) * (2 * w * s))%R with 9801%R by (field; lra).
    apply Rle_trans with (31415926535 / 10000000000 *
      (2 * (141421356238 / 100000000000) * (1103 + 2684 / 100000000)))%R; [|lra].
    apply Rmult_le_compat_l; lra.
  - apply Rmult_le_reg_r with (2 * w * s)%R; [exact Hws|].
    replace (9801 / (2 * w * s) * (2 * w * s))%R with 9801%R by (field; lra).
    apply Rle_trans with (31415927301 / 10000000000 *
      (2 * (141421356237 / 100000000000) * 1103))%R; [lra|].
    apply Rmult_le_compat_l; lra.
Qed.

Lemma readonly_run {A} (m : M A) ctx a :
  readonly m -> snd (m ctx) = Ok a -> m ctx = (ctx, Ok a).
Proof. intros Hm E. rewrite (readonly_eq m ctx Hm). now rewrite E. Qed.

(** The value returned for [1 <= iterations <= 30000]: a decimal of exponent
    [-precision] within [0.501] units of its last place of the exact
    formula. *)
Lemma compute_accuracy q it p :
  1 <= it <= 30000 -> 0 <= p <= MAX_PREC - 10 ->
  exists r, compute q it p = Ok r /\ _exp r = - p /\ 0 <= _int r /\
    (Rabs (V r - ramanujan it) <= 501 / 1000 * pow10 (- p))%R.
Proof.
  intros Hit Hp. destruct (compute_ok q it p Hit Hp) as (r & E & X).
  exists r. split; [exact E|]. split; [exact X|].
  rewrite compute_unfold, prec_range in E by lia.
  set (ctx := call_context q p) in *.
  assert (Hprec : 10 <= prec ctx) by (cbn; lia).
  assert (Hwf : wf_context ctx) by (apply (acc_wf ctx); auto).
  apply readonly_run in E; [|apply readonly_after_setprec].
  unfold after_setprec in E.
  apply bind_inv in E; [|apply readonly_pi_approx_of]. destruct E as (a & Ea & E).
  apply bind_inv in E; [|apply readonly_1e_minus]. destruct E as (qm & Eq & E).
  unfold Decimal_1e_minus in Eq. destruct (Z.ltb_spec p 0); [lia|].
  inversion Eq; subst qm. clear Eq.
  destruct (pi_approx_accuracy ctx Hprec eq_refl eq_refl it a Hit Ea) as [Aa Pa].
  assert (Pa0 : 0 <= _int a) by lia.
  pose proof (quantize_inv ctx a p r Hwf Pa0 E) as Hr.
  change (rounding ctx) with ROUND_HALF_EVEN in Hr.
  destruct (rescale_half_even a (- p) Pa0) as [Hq _]. rewrite <- Hr in Hq.
  destruct (rescale_near a (- p) ROUND_HALF_EVEN Pa0) as [Pr _]. rewrite <- Hr in Pr.
  split; [exact Pr|].
  apply approx_abs in Aa.
  pose proof (ramanujan_bounds it ltac:(lia)) as HA.
  assert (Hd : rel_err ctx = (2 / 1000000000 * pow10 (- p))%R).
  { assert (Hpe : prec ctx = p + 10) by reflexivity.
    unfold rel_err. replace (1 - prec ctx) with (- p + - (9)) by lia.
    rewrite pow10_add, (pow10_opp 9), (pow10_IZR 9) by lia.
    change (10 ^ 9) with 1000000000. field. }
  rewrite Hd in Aa. pose proof (pow10_pos (- p)) as Ht.
  assert (HN : (1 <= IZR it <= 30000)%R) by (split; apply IZR_le; lia).
  set (A := ramanujan it) in *. clearbody A.
  set (t := pow10 (- p)) in *. clearbody t. set (N := IZR it) in *. clearbody N.
  assert (Hb : ((4 * N + 53) * (2 / 1000000000 * t) * A <= t / 1000)%R).
  { apply Rle_trans with ((4 * 30000 + 53) * (2 / 1000000000 * t) * (32 / 10))%R; [|lra].
    apply Rmult_le_compat; try lra.
    - apply Rmult_le_pos; lra.
    - apply Rmult_le_compat_r; lra. }
  apply Rabs_le_inv in Aa. assert (Hq' : (Rabs (V r - V a) <= t / 2)%R) by lra.
  apply Rabs_le_inv in Hq'. apply Rabs_le. lra.
Qed.

(** ** Digits of the returned value *)

(** The leading digits of a decimal read off from its value. *)
Lemma grid_digits r p j n :
  _exp r = - p -> 0 <= j <= p ->
  (IZR n * pow10 (- j) <= V r < (IZR n + 1) * pow10 (- j))%R ->
  _int r / 10 ^ (p - j) = n.
Proof.
  intros He Hj [H1 H2]. unfold V in *. rewrite He in *.
  assert (Hs : pow10 (- j) = (IZR (10 ^ (p - j)) * pow10 (- p))%R).
  { rewrite <- pow10_IZR, <- pow10_add by lia. f_equal. lia. }
  rewrite Hs in H1, H2. pose proof (pow10_pos (- p)) as Hp.
  pose proof (Zpow10_gt0 (p - j) ltac:(lia)) as HT.
  set (T := 10 ^ (p - j)) in *. clearbody T.
  assert (L : n * T <= _int r).
  { apply le_IZR. rewrite mult_IZR. apply Rmult_le_reg_r with (pow10 (- p)); [exact Hp|lra]. }
  assert (U : _int r < (n + 1) * T).
  { apply lt_IZR. rewrite mult_IZR, plus_IZR.
    apply Rmult_lt_reg_r with (pow10 (- p)); [exact Hp|lra]. }
  symmetry. apply Z.div_unique with (_int r - n * T); lia.
Qed.

Lemma pow10_neg_le p j : j <= p -> (pow10 (- p) <= pow10 (- j))%R.
Proof. intros H. apply pow10_le. lia. Qed.

Lemma pow10_neg_const k : 0 <= k -> pow10 (- k) = (/ IZR (10 ^ k))%R.
Proof. intros Hk. now rewrite pow10_opp, pow10_IZR. Qed.

(** A returned value has [precision + 1] digits, the first of them [3]. *)
Lemma compute_leading q it p :
  1 <= it <= 30000 -> 0 <= p <= MAX_PREC - 10 ->
  exists r, compute q it p = Ok r /\ _exp r = - p /\
            3 * 10 ^ p <= _int r < 4 * 10 ^ p.
Proof.
  intros Hit Hp. destruct (compute_accuracy q it p Hit Hp) as (r & E & X & Pr & Hacc).
  exists r. split; [exact E|]. split; [exact X|].
  pose proof (ramanujan_bounds it ltac:(lia)) as HA.
  apply Rabs_le_inv in Hacc. unfold V in Hacc. rewrite X in Hacc.
  pose proof (pow10_pos (- p)) as Ht. pose proof (pow10_pos p) as HT.
  assert (Hinv : (pow10 (- p) * pow10 p = 1)%R).
  { rewrite <- pow10_add. replace (- p + p) with 0 by lia. apply pow10_0. }
  assert (H1 : (1 <= pow10 p)%R).
  { rewrite <- pow10_0. apply pow10_le. lia. }
  pose proof (Zpow10_gt0 p ltac:(lia)) as HTz.
  rewrite (pow10_IZR p) in * by lia.
  set (A := ramanujan it) in *. clearbody A.
  set (t := pow10 (- p)) in *. clearbody t.
  set (c := IZR (_int r)) in *. set (T := IZR (10 ^ p)) in *.
  assert (HcT : (c = c * t * T)%R) by (rewrite Rmult_assoc, Hinv; ring).
  assert (L : (A * T - 501 / 1000 <= c)%R).
  { rewrite HcT.
    replace (A * T - 501 / 1000)%R with ((A - 501 / 1000 * t) * T)%R
      by (rewrite Rmult_minus_distr_r, (Rmult_assoc _ t T), Hinv; ring).
    apply Rmult_le_compat_r; lra. }
  assert (U : (c <= A * T + 501 / 1000)%R).
  { rewrite HcT.
    replace (A * T + 501 / 1000)%R with ((A + 501 / 1000 * t) * T)%R
      by (rewrite Rmult_plus_distr_r, (Rmult_assoc _ t T), Hinv; ring).
    apply Rmult_le_compat_r; lra. }
  assert (LA : (3 * T + 1 / 10 <= A * T)%R) by nra.
  assert (UA : (A * T <= 4 * T - 8 / 10)%R) by nra.
  split.
  - assert (3 * 10 ^ p - 1 < _int r); [|lia].
    apply lt_IZR. rewrite minus_IZR, mult_IZR. fold T c. lra.
  - apply lt_IZR. rewrite mult_IZR. fold T c. lra.
Qed.

(** The returned value is within [0.501] units of its last place of the
    docstring's formula cut after [iterations] terms,
    [9801 / (2 sqrt(2) sum)], for every [1 <= iterations <= 30000] and every
    precision that the setter of [prec] accepts: the ten guard digits absorb
    the rounding errors of the whole computation. *)
Theorem result_within_half_unit q it p :
  1 <= it <= 30000 -> 0 <= p <= MAX_PREC - 10 ->
  exists r, compute q it p = Ok r /\ _exp r = - p /\
    (Rabs (V r - ramanujan it) <= 501 / 1000 * pow10 (- p))%R.
Proof.
  intros Hit Hp. destruct (compute_accuracy q it p Hit Hp) as (r & E & X & _ & H).
  now exists r.
Qed.

Lemma result_within_half_unit_witness :
  1 <= 2 <= 30000 /\ 0 <= 25 <= MAX_PREC - 10 /\
  exists r, compute 28 2 25 = Ok r /\ _exp r = - 25 /\
    (Rabs (V r - ramanujan 2) <= 501 / 1000 * pow10 (- 25))%R.
Proof.
  split; [lia|]. split; [unfold MAX_PREC; lia|].
  apply (result_within_half_unit 28 2 25); unfold MAX_PREC; lia.
Defined.

(** Pi to ten places, [3.1415926536]. *)
Lemma rescale_pi_10 p :
  0 <= p <= 7 ->
  _rescale (mkDec 31415926536 (-10)) (- p) ROUND_HALF_EVEN
  = mkDec (nth (Z.to_nat p) [3; 31; 314; 3142; 31416; 314159; 3141593; 31415927] 0) (- p).
Proof.
  intros Hp.
  assert (H : p = 0 \/ p = 1 \/ p = 2 \/ p = 3 \/ p = 4 \/ p = 5 \/ p = 6 \/ p = 7) by lia.
  repeat destruct H as [->|H]; try subst p; vm_compute; reflexivity.
Qed.

(** The coefficient of a decimal near a grid point. *)
Lemma nearest_coefficient c p m A :
  0 <= p ->
  (Rabs (IZR c * pow10 (- p) - A) <= 501 / 1000 * pow10 (- p))%R ->
  ((IZR m - 49 / 100) * pow10 (- p) <= A <= (IZR m + 49 / 100) * pow10 (- p))%R ->
  c = m.
Proof.
  intros Hp H [L U]. apply Rabs_le_inv in H.
  pose proof (pow10_pos (- p)) as Ht.
  set (t := pow10 (- p)) in *. clearbody t.
  assert (H1 : ((IZR c - IZR m) * t < 1 * t)%R) by lra.
  assert (H2 : ((IZR m - IZR c) * t < 1 * t)%R) by lra.
  apply Rmult_lt_reg_r in H1, H2; try exact Ht.
  rewrite <- minus_IZR in H1, H2. apply lt_IZR in H1, H2. lia.
Qed.

Lemma compute_low_precision q it p :
  1 <= it <= 30000 -> 0 <= p <= 7 ->
  compute q it p = Ok (_rescale (mkDec 31415926536 (-10)) (- p) ROUND_HALF_EVEN).
Proof.
  intros Hit Hp.
  destruct (compute_accuracy q it p Hit ltac:(unfold MAX_PREC; lia)) as (r & E & X & Pr & H).
  rewrite E. f_equal. rewrite rescale_pi_10 by lia.
  destruct r as [c e]. cbn [_int _exp] in *. subst e. f_equal.
  pose proof (ramanujan_bounds it ltac:(lia)) as HA.
  unfold V in H. cbn [_int _exp] in H.
  apply (nearest_coefficient c p _ (ramanujan it)); [lia|exact H|].
  set (A := ramanujan it) in *. clearbody A. clear H E.
  assert (Hc : p = 0 \/ p = 1 \/ p = 2 \/ p = 3 \/ p = 4 \/ p = 5 \/ p = 6 \/ p = 7) by lia.
  destruct Hc as [->|[->|[->|[->|[->|[->|[->| ->]]]]]]];
    rewrite pow10_neg_const by lia;
    match goal with
    | |- context [nth ?a ?l ?d] =>
        let v := eval vm_compute in (nth a l d) in change (nth a l d) with v
    end;
    [ change (10 ^ 0) with 1 | change (10 ^ 1) with 10 | change (10 ^ 2) with 100
    | change (10 ^ 3) with 1000 | change (10 ^ 4) with 10000
    | change (10 ^ 5) with 100000 | change (10 ^ 6) with 1000000
    | change (10 ^ 7) with 10000000 ];
    lra.
Qed.

(** Up to seven places the number of iterations makes no difference: for
    [0 <= precision <= 7] and every [1 <= iterations <= 30000] the function
    returns pi correctly rounded, that is [3.1415926536] rounded half-even to
    [precision] places. *)
Theorem seven_places_from_any_iterations q it p :
  1 <= it <= 30000 -> 0 <= p <= 7 ->
  compute q it p = Ok (_rescale (mkDec 31415926536 (-10)) (- p) ROUND_HALF_EVEN).
Proof. apply compute_low_precision. Qed.

Lemma seven_places_from_any_iterations_witness :
  1 <= 1 <= 30000 /\ 0 <= 7 <= 7 /\
  compute 28 1 7 = Ok (_rescale (mkDec 31415926536 (-10)) (- 7) ROUND_HALF_EVEN).
Proof.
  split; [lia|]. split; [lia|]. apply (seven_places_from_any_iterations 28 1 7); lia.
Defined.

(** From seven places on, the first six fractional digits of the returned
    value are [141592], whatever the number of iterations. *)
Theorem six_digits_from_any_iterations q it p :
  1 <= it <= 30000 -> 7 <= p <= MAX_PREC - 10 ->
  exists r, compute q it p = Ok r /\ _exp r = - p /\
            _int r / 10 ^ (p - 6) = 3141592.
Proof.
  intros Hit Hp. destruct (compute_accuracy q it p Hit ltac:(lia)) as (r & E & X & Pr & H).
  exists r. split; [exact E|]. split; [exact X|].
  apply (grid_digits r p 6 3141592 X ltac:(lia)).
  pose proof (ramanujan_bounds it ltac:(lia)) as HA. apply Rabs_le_inv in H.
  assert (Ht : (pow10 (- p) <= pow10 (- (7)))%R) by (apply pow10_le; lia).
  pose proof (pow10_pos (- p)) as Ht0.
  rewrite (pow10_neg_const 7) in Ht by lia. rewrite (pow10_neg_const 6) by lia.
  change (10 ^ 7) with 10000000 in Ht. change (10 ^ 6) with 1000000.
  lra.
Qed.

Lemma six_digits_from_any_iterations_witness :
  1 <= 3 <= 30000 /\ 7 <= 40 <= MAX_PREC - 10 /\
  exists r, compute 28 3 40 = Ok r /\ _exp r = - 40 /\
            _int r / 10 ^ (40 - 6) = 3141592.
Proof.
  split; [lia|]. split; [unfold MAX_PREC; lia|].
  apply (six_digits_from_any_iterations 28 3 40); unfold MAX_PREC; lia.
Defined.

Lemma ramanujan_1_lower : (31415927299 / 10000000000 <= ramanujan 1)%R.
Proof.
  unfold ramanujan. change (Z.to_nat 1) with 1%nat. cbn [series]. rewrite term_0.
  pose proof sqrt2_tight as [H3 H4].
  set (w := sqrt 2) in *. clearbody w.
  apply Rmult_le_reg_r with (2 * w * (0 + 1103))%R; [lra|].
  replace (9801 / (2 * w * (0 + 1103)) * (2 * w * (0 + 1103)))%R with 9801%R by (field; lra).
  lra.
Qed.

(** One iteration stops at the seventh place: for every precision of eight
    places or more the value returned for [iterations = 1] begins
    [3.1415927], while the known digits of pi begin [3.1415926]. *)
Theorem one_iteration_seventh_place q p :
  8 <= p <= MAX_PREC - 10 ->
  exists r, compute q 1 p = Ok r /\ _exp r = - p /\
            _int r / 10 ^ (p - 7) = 31415927 /\
            known_digits / 10 ^ (100 - 7) = 31415926.
Proof.
  intros Hp. destruct (compute_accuracy q 1 p ltac:(lia) ltac:(lia)) as (r & E & X & Pr & H).
  exists r. split; [exact E|]. split; [exact X|]. split; [|vm_compute; reflexivity].
  apply (grid_digits r p 7 31415927 X ltac:(lia)).
  pose proof (ramanujan_bounds 1 ltac:(lia)) as [_ HA]. pose proof ramanujan_1_lower as HL.
  apply Rabs_le_inv in H.
  assert (Ht : (pow10 (- p) <= pow10 (- (8)))%R) by (apply pow10_le; lia).
  pose proof (pow10_pos (- p)) as Ht0.
  rewrite (pow10_neg_const 8) in Ht by lia. rewrite (pow10_neg_const 7) by lia.
  change (10 ^ 8) with 100000000 in Ht. change (10 ^ 7) with 10000000.
  lra.
Qed.

Lemma one_iteration_seventh_place_witness :
  8 <= 30 <= MAX_PREC - 10 /\
  exists r, compute 28 1 30 = Ok r /\ _exp r = - 30 /\
            _int r / 10 ^ (30 - 7) = 31415927 /\
            known_digits / 10 ^ (100 - 7) = 31415926.
Proof.
  split; [unfold MAX_PREC; lia|].
  apply (one_iteration_seventh_place 28 30); unfold MAX_PREC; lia.
Defined.

(** With 100000 iterations or more the call raises [Overflow], and the
    precision of the thread's context stays changed. *)
Theorem overflow_from_100000_iterations q it p :
  100000 <= it -> -6 <= p <= MAX_PREC - 10 ->
  calculate_pi_ramanujan it p (thread_context q) = (call_context q p, Raise Overflow).
Proof.
  intros Hit Hp. pose proof (compute_overflows q it p Hit Hp) as H.
  unfold compute in H. rewrite calculate_unfold in *.
  rewrite prec_range in * by lia. cbn [snd] in H. now rewrite H.
Qed.

Lemma overflow_from_100000_iterations_witness :
  100000 <= 100000 /\ -6 <= 50 <= MAX_PREC - 10 /\
  calculate_pi_ramanujan 100000 50 (thread_context 28)
  = (call_context 28 50, Raise Overflow).
Proof.
  split; [lia|]. split; [unfold MAX_PREC; lia|].
  apply (overflow_from_100000_iterations 28 100000 50); unfold MAX_PREC; lia.
Defined.

(** Whatever the call comes to once the setter has accepted the working
    precision, a value or an exception, the precision of the context is
    [precision + 10] afterwards, and its rounding mode and exponent limits are
    those from before the call.  When the setter itself raises, [ValueError]
    for a working precision outside [1 .. MAX_PREC] and [OverflowError] for
    one outside [-2^63 .. 2^63 - 1], the context is untouched. *)
Theorem context_after_any_call ctx it p :
  (1 <= p + 10 <= MAX_PREC ->
   prec (fst (calculate_pi_ramanujan it p ctx)) = p + 10 /\
   rounding (fst (calculate_pi_ramanujan it p ctx)) = rounding ctx /\
   Emin (fst (calculate_pi_ramanujan it p ctx)) = Emin ctx /\
   Emax (fst (calculate_pi_ramanujan it p ctx)) = Emax ctx) /\
  (p + 10 < 1 \/ MAX_PREC < p + 10 -> - 2 ^ 63 <= p + 10 < 2 ^ 63 ->
   calculate_pi_ramanujan it p ctx = (ctx, Raise ValueError)) /\
  (p + 10 < - 2 ^ 63 \/ 2 ^ 63 <= p + 10 ->
   calculate_pi_ramanujan it p ctx = (ctx, Raise OverflowError)).
Proof.
  rewrite calculate_unfold. split; [|split].
  - intros H. rewrite prec_range by lia. cbn. auto.
  - intros H1 H2. rewrite prec_out_of_range by lia.
    destruct (Z.ltb_spec (p + 10) SSIZE_MIN) as [L|L]; [unfold SSIZE_MIN in L; lia|].
    destruct (Z.ltb_spec SSIZE_MAX (p + 10)) as [U|U]; [unfold SSIZE_MAX in U; lia|].
    reflexivity.
  - intros H. rewrite prec_out_of_range by (unfold MAX_PREC; lia).
    destruct (Z.ltb_spec (p + 10) SSIZE_MIN) as [L|L]; [reflexivity|].
    destruct (Z.ltb_spec SSIZE_MAX (p + 10)) as [U|U]; [reflexivity|].
    unfold SSIZE_MIN, SSIZE_MAX in *. lia.
Qed.

(** The result does not depend on the precision that the thread's context
    had before the call. *)
Theorem result_independent_of_ambient_precision q q' it p :
  compute q it p = compute q' it p.
Proof. rewrite !compute_unfold. reflexivity. Qed.

(** ** The interactive caller *)

Lemma known_pi_length : Z.of_nat (String.length known_pi_str) = 102.
Proof. reflexivity. Qed.

(** The known value as the program cuts it: the first [min(p, 100)]
    fractional digits, cut off and not rounded. *)
Lemma known_pi_prefix p :
  1 <= p ->
  Decimal_of_str
    (slice_to known_pi_str (Z.min (Z.of_nat (String.length known_pi_str)) (p + 2)))
  = Ok (mkDec (known_digits / 10 ^ (100 - Z.min p 100)) (- Z.min p 100)).
Proof.
  intros Hp. rewrite known_pi_length.
  destruct (Z_lt_le_dec p 100) as [Hlt|Hge].
  - rewrite (Z.min_r 102 (p + 2)), (Z.min_l p 100) by lia.
    set (n := Z.to_nat p). assert (Hn : p = Z.of_nat n) by (unfold n; lia).
    clearbody n. subst p.
    do 100 (destruct n as [|n]; [try lia; vm_compute; reflexivity|]).
    lia.
  - rewrite (Z.min_l 102 (p + 2)), (Z.min_r p 100) by lia.
    vm_compute. reflexivity.
Qed.

Lemma ndigits_exact c n : 0 <= n -> 10 ^ n <= c < 10 ^ (n + 1) -> ndigits c = n + 1.
Proof.
  intros Hn Hc. apply ndigits_unique; [|lia].
  replace (n + 1 - 1) with n by lia. exact Hc.
Qed.

Lemma normalize_aligned cr ck p j P :
  0 <= j <= p -> P = p + 10 ->
  10 ^ p <= cr < 10 ^ (p + 1) -> 10 ^ j <= ck < 10 ^ (j + 1) ->
  _normalize (mkDec cr (- p)) (mkDec ck (- j)) P
  = (mkDec cr (- p), mkDec (ck * 10 ^ (p - j)) (- p)).
Proof.
  intros Hj HP Hr Hk. unfold _normalize. cbn [_int _exp].
  rewrite (ndigits_exact cr p), (ndigits_exact ck j) by lia.
  destruct (Z.ltb_spec (- p) (- j)) as [Hlt|Hge].
  - destruct (Z.ltb_spec (p + 1 + - p - 1) (- j + Z.min (-1) (j + 1 - P - 2))) as [?|_]; [lia|].
    cbn [_int _exp]. replace (- j - - p) with (p - j) by lia. reflexivity.
  - assert (j = p) by lia. subst j.
    destruct (Z.ltb_spec (p + 1 + - p - 1) (- p + Z.min (-1) (p + 1 - P - 2))) as [?|_]; [lia|].
    cbn [_int _exp]. replace (- p - - p) with 0 by lia. replace (p - p) with 0 by lia.
    change (10 ^ 0) with 1. rewrite !Z.mul_1_r. reflexivity.
Qed.

(** The reported error is exact: with [precision + 1] digits on either side
    the difference needs no rounding at [precision + 10] digits. *)
Lemma sub_abs_exact ctx r k p j :
  prec ctx = p + 10 -> Emin ctx = -999999 -> Emax ctx = 999999 ->
  0 <= j <= p ->
  _exp r = - p -> 10 ^ p <= _int r < 10 ^ (p + 1) ->
  _exp k = - j -> 10 ^ j <= _int k < 10 ^ (j + 1) ->
  (difference <- Decimal_sub r k ;; Decimal_abs difference) ctx
  = (ctx, Ok (mkDec (Z.abs (_int r - _int k * 10 ^ (p - j))) (- p))).
Proof.
  intros HP Hmin Hmax Hj Er Hr Ek Hk.
  destruct r as [cr er]. destruct k as [ck ek]. cbn [_int _exp] in *. subst er ek.
  pose proof (Zpow10_gt0 p ltac:(lia)) as HTp. pose proof (Zpow10_gt0 j ltac:(lia)) as HTj.
  pose proof (Zpow10_gt0 (p - j) ltac:(lia)) as HTd.
  assert (Hsplit : 10 ^ (j + 1) * 10 ^ (p - j) = 10 ^ (p + 1)).
  { rewrite <- Z.pow_add_r by lia. f_equal. lia. }
  assert (Hk' : 0 < ck * 10 ^ (p - j) < 10 ^ (p + 1)) by nia.
  assert (Hfix : forall s d, 0 < d < 10 ^ (p + 1) ->
            _fix (context_for_sign s ctx) (mkDec d (- p)) = Ok (mkDec d (- p))).
  { intros s d Hd. apply fix_id; cbn [_int _exp prec context_for_sign]; try lia.
    - rewrite HP. apply Z.le_trans with (p + 1); [|lia]. apply ndigits_le; lia.
    - unfold Etiny. cbn [prec Emin context_for_sign]. lia.
    - unfold adjusted. cbn [_int _exp Emax context_for_sign].
      assert (ndigits d <= p + 1) by (apply ndigits_le; lia). lia. }
  assert (Hfix0 : forall d, 0 < d < 10 ^ (p + 1) ->
            _fix ctx (mkDec d (- p)) = Ok (mkDec d (- p))).
  { intros d Hd. apply fix_id; cbn [_int _exp]; try lia.
    - rewrite HP. apply Z.le_trans with (p + 1); [|lia]. apply ndigits_le; lia.
    - unfold Etiny. lia.
    - unfold adjusted. cbn [_int _exp].
      assert (ndigits d <= p + 1) by (apply ndigits_le; lia). lia. }
  assert (Hz : forall c0, _fix c0 (mkDec 0 (Z.min (- p) (- j)))
               = Ok (mkDec 0 (Z.min (Z.max (- p) (Etiny c0)) (Emax c0)))).
  { intros c0. rewrite fix_zero by reflexivity. cbn [_exp].
    now rewrite (Z.min_l (- p) (- j)) by lia. }
  unfold bind, Decimal_sub, Decimal_abs, with_context. cbn [_int _exp].
  destruct (Z.eqb_spec cr 0) as [?|_]; [lia|].
  destruct (Z.eqb_spec ck 0) as [?|_]; [lia|]. cbn [andb].
  rewrite (normalize_aligned cr ck p j (prec ctx)) by (auto; lia).
  cbn [_int _exp].
  destruct (Z.eqb_spec cr (ck * 10 ^ (p - j))) as [Heq|Hne].
  - unfold fix_signed. rewrite Hz.
    cbn [snd]. rewrite fix_zero by reflexivity. cbn [_exp].
    unfold Etiny. cbn [prec Emin Emax context_for_sign]. rewrite Hmin, Hmax, HP.
    f_equal. f_equal. rewrite Heq, Z.sub_diag. cbn [Z.abs]. f_equal. lia.
  - destruct (Z.ltb_spec cr (ck * 10 ^ (p - j))) as [Hlt|Hge].
    + unfold fix_signed. rewrite Hfix by lia. cbn [snd]. rewrite Hfix0 by lia.
      f_equal. f_equal. f_equal. lia.
    + unfold fix_signed. rewrite Hfix by lia. cbn [snd]. rewrite Hfix0 by lia.
      f_equal. f_equal. f_equal. lia.
Qed.

Lemma known_digits_bounds : 3 * 10 ^ 100 <= known_digits < 4 * 10 ^ 100.
Proof. split; [apply Z.leb_le|apply Z.ltb_lt]; vm_compute; reflexivity. Qed.

Lemma known_prefix_bounds j :
  0 <= j <= 100 -> 3 * 10 ^ j <= known_digits / 10 ^ (100 - j) < 4 * 10 ^ j.
Proof.
  intros Hj. pose proof known_digits_bounds as [L U].
  pose proof (Zpow10_gt0 (100 - j) ltac:(lia)) as HT.
  assert (Hs : 10 ^ 100 = 10 ^ j * 10 ^ (100 - j)).
  { rewrite <- Z.pow_add_r by lia. f_equal. lia. }
  rewrite Hs in L, U. set (T := 10 ^ (100 - j)) in *. clearbody T.
  set (J := 10 ^ j) in *. clearbody J.
  split.
  - apply Z.div_le_lower_bound; lia.
  - apply Z.div_lt_upper_bound; lia.
Qed.

Lemma calculate_compute q it p :
  1 <= p + 10 <= MAX_PREC ->
  calculate_pi_ramanujan it p (thread_context q) = (call_context q p, compute q it p).
Proof.
  intros Hp. unfold compute. rewrite calculate_unfold, prec_range by lia. reflexivity.
Qed.

Lemma pow10_le_next p : 0 <= p -> 4 * 10 ^ p <= 10 ^ (p + 1).
Proof. intros Hp. rewrite Z.pow_add_r by lia. pose proof (Zpow10_gt0 p Hp). lia. Qed.

(** The lines that follow a call that has returned. *)
Lemma report_ok q it p r :
  1 <= p <= MAX_PREC - 10 -> _exp r = - p -> 3 * 10 ^ p <= _int r < 4 * 10 ^ p ->
  report it p r (call_context q p)
  = (call_context q p,
     [Text (newline ++ "--- Results ---"); ResultsFor it p; CalculatedPi r;
      KnownPi (mkDec (known_digits / 10 ^ (100 - Z.min p 100)) (- Z.min p 100));
      AbsoluteError
        (mkDec (Z.abs (_int r - known_digits / 10 ^ (100 - Z.min p 100)
                                * 10 ^ (p - Z.min p 100))) (- p))],
     Normal).
Proof.
  intros Hp Er Hr. unfold report. rewrite known_pi_prefix by lia.
  set (j := Z.min p 100). assert (Hj : 0 <= j <= 100 /\ j <= p) by (unfold j; lia).
  pose proof (known_prefix_bounds j ltac:(lia)) as Hk.
  pose proof (pow10_le_next p ltac:(lia)). pose proof (pow10_le_next j ltac:(lia)).
  pose proof (Zpow10_gt0 p ltac:(lia)). pose proof (Zpow10_gt0 j ltac:(lia)).
  rewrite (sub_abs_exact (call_context q p) r
             (mkDec (known_digits / 10 ^ (100 - j)) (- j)) p j);
    try reflexivity; cbn [_int _exp]; lia.
Qed.

(** A run with valid input, up to 30000 iterations: the program prints the
    value that the function returns, the known digits cut off (not rounded)
    after [min(precision, 100)] places, and their distance, which is exact;
    it leaves the precision of the context at [precision + 10]. *)
Theorem main_reports q it p stdin :
  1 <= it <= 30000 -> 1 <= p <= MAX_PREC - 10 ->
  exists r k e,
    main (Some it :: Some p :: stdin) (thread_context q)
    = (call_context q p,
       (banner ++ [prompt_iterations; prompt_precision;
                   Text (newline ++ "--- Results ---"); ResultsFor it p;
                   CalculatedPi r; KnownPi k; AbsoluteError e], Completed)) /\
    compute q it p = Ok r /\
    k = mkDec (known_digits / 10 ^ (100 - Z.min p 100)) (- Z.min p 100) /\
    _exp e = - p /\ V e = Rabs (V r - V k).
Proof.
  intros Hit Hp. destruct (compute_leading q it p Hit ltac:(lia)) as (r & E & X & Hr).
  set (j := Z.min p 100). assert (Hj : 0 <= j <= 100 /\ j <= p) by (unfold j; lia).
  exists r, (mkDec (known_digits / 10 ^ (100 - j)) (- j)),
    (mkDec (Z.abs (_int r - known_digits / 10 ^ (100 - j) * 10 ^ (p - j))) (- p)).
  split; [|split; [exact E|split; [reflexivity|split; [reflexivity|]]]].
  - unfold main, try_block.
    destruct (Z.ltb_spec it 1) as [?|_]; [lia|].
    destruct (Z.ltb_spec p 1) as [?|_]; [lia|].
    rewrite calculate_compute, E by lia.
    rewrite (report_ok q it p r Hp X Hr). reflexivity.
  - unfold V. cbn [_int _exp]. rewrite X.
    assert (Hs : pow10 (- j) = (IZR (10 ^ (p - j)) * pow10 (- p))%R).
    { rewrite <- pow10_IZR, <- pow10_add by lia. f_equal. lia. }
    rewrite Hs, abs_IZR, minus_IZR, mult_IZR.
    pose proof (pow10_pos (- p)) as Ht.
    rewrite <- (Rabs_pos_eq (pow10 (- p))) at 1 by lra.
    rewrite <- Rabs_mult. f_equal. ring.
Qed.

Lemma main_reports_witness :
  1 <= 2 <= 30000 /\ 1 <= 4 <= MAX_PREC - 10 /\
  exists r k e,
    main [Some 2; Some 4] (thread_context 28)
    = (call_context 28 4,
       (banner ++ [prompt_iterations; prompt_precision;
                   Text (newline ++ "--- Results ---"); ResultsFor 2 4;
                   CalculatedPi r; KnownPi k; AbsoluteError e], Completed)) /\
    compute 28 2 4 = Ok r /\
    k = mkDec (known_digits / 10 ^ (100 - Z.min 4 100)) (- Z.min 4 100) /\
    _exp e = - 4 /\ V e = Rabs (V r - V k).
Proof.
  split; [lia|]. split; [unfold MAX_PREC; lia|].
  apply (main_reports 28 2 4 []); unfold MAX_PREC; lia.
Defined.

Lemma fix_signed_raises ctx s d e : fix_signed ctx s d = Raise e -> e = Overflow.
Proof.
  unfold fix_signed. destruct (_fix (context_for_sign s ctx) d) eqn:E; [discriminate|].
  intros H. inversion H; subst. eapply fix_raises; eassumption.
Qed.

Lemma sub_abs_outcome a b ctx :
  (exists e, (difference <- Decimal_sub a b ;; Decimal_abs difference) ctx = (ctx, Ok e)) \/
  (difference <- Decimal_sub a b ;; Decimal_abs difference) ctx = (ctx, Raise Overflow).
Proof.
  unfold bind. destruct (Decimal_sub a b ctx) as [c [x|e]] eqn:E.
  - unfold Decimal_sub, with_context in E. inversion E; subst c.
    unfold Decimal_abs, with_context. destruct (_fix ctx (snd x)) as [y|e] eqn:F.
    + left. now exists y.
    + right. now rewrite (fix_raises _ _ _ F).
  - right. unfold Decimal_sub, with_context in E. inversion E as [[Hc He]]. clear E.
    f_equal. f_equal. revert He.
    repeat match goal with
           | |- context [if ?b then _ else _] => destruct b
           | |- context [let '(_, _) := ?x in _] => destruct x
           end; apply fix_signed_raises.
Qed.

(** The lines after the call, whatever value the call has returned: the
    known value always parses, and the subtraction can only overflow. *)
Lemma report_cases it p r ctx :
  1 <= p ->
  let head := [Text (newline ++ "--- Results ---"); ResultsFor it p; CalculatedPi r;
               KnownPi (mkDec (known_digits / 10 ^ (100 - Z.min p 100)) (- Z.min p 100))] in
  (exists e, report it p r ctx = (ctx, head ++ [AbsoluteError e], Normal)) \/
  report it p r ctx = (ctx, head, Raised (Exn Overflow)).
Proof.
  intros Hp head. unfold report. rewrite known_pi_prefix by lia.
  destruct (sub_abs_outcome r (mkDec (known_digits / 10 ^ (100 - Z.min p 100))
                                    (- Z.min p 100)) ctx) as [(e & ->)| ->].
  - left. now exists e.
  - right. reflexivity.
Qed.

Lemma compute_cases q it p :
  1 <= it -> 1 <= p <= MAX_PREC - 10 ->
  compute q it p = Raise Overflow \/ exists r, compute q it p = Ok r.
Proof.
  intros Hit Hp. rewrite compute_unfold, prec_range by lia.
  destruct (after_setprec_outcome (call_context q p) ltac:(cbn; lia) eq_refl eq_refl
              it p Hit ltac:(lia) eq_refl) as (res & E & O).
  rewrite E. cbn [snd]. destruct O as [->|(r & -> & _)]; [now left|right; now exists r].
Qed.

(** Every way in which a run of the program can go. *)
Lemma main_cases stdin q :
  let ctx := thread_context q in
  let m := main stdin ctx in
  (stdin = [] /\
   m = (ctx, (banner ++ [prompt_iterations; UnexpectedError EOFError], Completed))) \/
  (exists rest, stdin = None :: rest /\
   m = (ctx, (banner ++ [prompt_iterations; invalid_input], Completed))) \/
  (exists it rest, stdin = Some it :: rest /\ it < 1 /\
   m = (ctx, (banner ++ [prompt_iterations;
                         Text "Number of iterations must be at least 1."], SystemExit))) \/
  (exists it, stdin = [Some it] /\ 1 <= it /\
   m = (ctx, (banner ++ [prompt_iterations; prompt_precision;
                         UnexpectedError EOFError], Completed))) \/
  (exists it rest, stdin = Some it :: None :: rest /\ 1 <= it /\
   m = (ctx, (banner ++ [prompt_iterations; prompt_precision; invalid_input],
              Completed))) \/
  (exists it p rest, stdin = Some it :: Some p :: rest /\ 1 <= it /\ p < 1 /\
   m = (ctx, (banner ++ [prompt_iterations; prompt_precision;
                         Text "Precision must be at least 1."], SystemExit))) \/
  (exists it p rest, stdin = Some it :: Some p :: rest /\ 1 <= it /\
   MAX_PREC - 10 < p /\ p + 10 < 2 ^ 63 /\
   m = (ctx, (banner ++ [prompt_iterations; prompt_precision; invalid_input],
              Completed))) \/
  (exists it p rest, stdin = Some it :: Some p :: rest /\ 1 <= it /\
   1 <= p <= MAX_PREC - 10 /\ compute q it p = Raise Overflow /\
   m = (call_context q p,
        (banner ++ [prompt_iterations; prompt_precision;
                    UnexpectedError (Exn Overflow)], Completed))) \/
  (exists it p rest r, stdin = Some it :: Some p :: rest /\ 1 <= it /\
   1 <= p <= MAX_PREC - 10 /\ compute q it p = Ok r /\
   m = (call_context q p,
        (banner ++ [prompt_iterations; prompt_precision;
                    Text (newline ++ "--- Results ---"); ResultsFor it p; CalculatedPi r;
                    KnownPi (mkDec (known_digits / 10 ^ (100 - Z.min p 100))
                                   (- Z.min p 100));
                    UnexpectedError (Exn Overflow)], Completed))) \/
  (exists it p rest r e, stdin = Some it :: Some p :: rest /\ 1 <= it /\
   1 <= p <= MAX_PREC - 10 /\ compute q it p = Ok r /\
   m = (call_context q p,
        (banner ++ [prompt_iterations; prompt_precision;
                    Text (newline ++ "--- Results ---"); ResultsFor it p; CalculatedPi r;
                    KnownPi (mkDec (known_digits / 10 ^ (100 - Z.min p 100))
                                   (- Z.min p 100));
                    AbsoluteError e], Completed))) \/
  (exists it p rest, stdin = Some it :: Some p :: rest /\ 1 <= it /\
   2 ^ 63 <= p + 10 /\
   m = (ctx, (banner ++ [prompt_iterations; prompt_precision;
                         UnexpectedError (Exn OverflowError)], Completed))).
Proof.
  intros ctx m. subst m. unfold main, try_block.
  destruct stdin as [|[it|] rest].
  - left. split; reflexivity.
  - destruct (Z.ltb_spec it 1) as [Hit|Hit].
    + right. right. left. exists it, rest. repeat split; auto.
    + destruct rest as [|[p|] rest].
      * do 3 right. left. exists it. repeat split; auto.
      * destruct (Z.ltb_spec p 1) as [Hp|Hp].
        { do 5 right. left. exists it, p, rest. repeat split; auto. }
        destruct (Z_le_gt_dec p (MAX_PREC - 10)) as [Hm|Hm].
        -- unfold ctx. rewrite calculate_compute by lia.
           destruct (compute_cases q it p Hit ltac:(lia)) as [E|(r & E)]; rewrite E.
           ++ do 7 right. left. exists it, p, rest. repeat split; auto.
           ++ destruct (report_cases it p r (call_context q p) Hp) as [(e & ->)| ->].
              ** do 9 right. left. exists it, p, rest, r, e. repeat split; auto.
              ** do 8 right. left. exists it, p, rest, r. repeat split; auto.
        -- rewrite calculate_unfold, prec_out_of_range by lia.
           destruct (Z.ltb_spec (p + 10) SSIZE_MIN) as [L|_];
             [unfold SSIZE_MIN in L; lia|]. cbn [orb].
           destruct (Z.ltb_spec SSIZE_MAX (p + 10)) as [U|U]; unfold SSIZE_MAX in U.
           ++ do 10 right. exists it, p, rest.
              split; [reflexivity|]. split; [exact Hit|]. split; [lia|]. reflexivity.
           ++ do 6 right. left. exists it, p, rest.
              split; [reflexivity|]. split; [exact Hit|]. split; [lia|]. split; [lia|].
              reflexivity.
      * do 4 right. left. exists it, rest. repeat split; auto.
  - right. left. exists rest. split; reflexivity.
Qed.

(** ** What a run of the program shows *)

Ltac run_cases stdin q :=
  let Hc := fresh "Hc" in
  pose proof (main_cases stdin q) as Hc; cbv zeta in Hc;
  destruct Hc as
    [ (-> & Hm)
    | [ (rest & -> & Hm)
    | [ (it & rest & -> & Hit & Hm)
    | [ (it & -> & Hit & Hm)
    | [ (it & rest & -> & Hit & Hm)
    | [ (it & p & rest & -> & Hit & Hp & Hm)
    | [ (it & p & rest & -> & Hit & Hp & Hp2 & Hm)
    | [ (it & p & rest & -> & Hit & Hp & Hcomp & Hm)
    | [ (it & p & rest & r & -> & Hit & Hp & Hcomp & Hm)
    | [ (it & p & rest & r & err & -> & Hit & Hp & Hcomp & Hm)
    | (it & p & rest & -> & Hit & Hp & Hm) ]]]]]]]]]];
  rewrite Hm; clear Hm; cbn [fst snd].

(** The context after a run.  The program touches it only through the
    function: it is as it was when the run began, unless both inputs were
    integers of at least 1 with [precision + 10 <= MAX_PREC]; then its
    precision is [precision + 10], and its rounding mode and exponent limits
    are as they were. *)
Theorem main_context_after_run stdin q :
  fst (main stdin (thread_context q)) = thread_context q \/
  exists it p rest, stdin = Some it :: Some p :: rest /\ 1 <= it /\
    1 <= p <= MAX_PREC - 10 /\
    prec (fst (main stdin (thread_context q))) = p + 10 /\
    rounding (fst (main stdin (thread_context q))) = rounding (thread_context q) /\
    Emin (fst (main stdin (thread_context q))) = Emin (thread_context q) /\
    Emax (fst (main stdin (thread_context q))) = Emax (thread_context q).
Proof.
  run_cases stdin q; try (left; reflexivity);
    right; exists it, p, rest; repeat split; auto; lia.
Qed.

(** The program ends by [exit()] exactly when it has read an integer below 1
    as the number of iterations, or, after a valid number of iterations, as
    the precision. *)
Theorem main_exits_iff_input_below_one stdin q :
  snd (snd (main stdin (thread_context q))) = SystemExit <->
  ((exists it rest, stdin = Some it :: rest /\ it < 1) \/
   (exists it p rest, stdin = Some it :: Some p :: rest /\ 1 <= it /\ p < 1)).
Proof.
  run_cases stdin q; split; intros H;
    try discriminate; try reflexivity;
    try (left; exists it, rest; split; [reflexivity|lia]);
    try (right; exists it, p, rest; split; [reflexivity|lia]);
    destruct H as [(it' & rest' & Hs & Hlt)|(it' & p' & rest' & Hs & H1 & H2)];
    try discriminate; inversion Hs; subst; unfold MAX_PREC in *; lia.
Qed.

Ltac flatten_lines H :=
  unfold banner, invalid_input, prompt_iterations, prompt_precision in H;
  cbn [app In String.append newline] in H.

Ltac flatten_goal :=
  unfold banner, invalid_input, prompt_iterations, prompt_precision;
  cbn [app In String.append newline].

(** The line [Invalid input. Please enter integer numbers ...] is printed
    exactly when a line of input is no integer, or when both are integers of
    at least 1 and [precision + 10] is above [MAX_PREC] and below [2^63]: the
    [ValueError] of the setter of [prec] is taken by the handler meant for
    [int]. *)
Theorem invalid_input_shown_iff stdin q :
  In invalid_input (fst (snd (main stdin (thread_context q)))) <->
  ((exists rest, stdin = None :: rest) \/
   (exists it rest, stdin = Some it :: None :: rest /\ 1 <= it) \/
   (exists it p rest, stdin = Some it :: Some p :: rest /\ 1 <= it /\
                      MAX_PREC - 10 < p /\ p + 10 < 2 ^ 63)).
Proof.
  run_cases stdin q; split; intros H.
  all: try (flatten_lines H; repeat destruct H as [H|H]; discriminate || contradiction).
  all: try (flatten_goal; tauto).
  all: try (left; eexists; reflexivity).
  all: try (right; left; exists it, rest; split; [reflexivity|lia]).
  all: try (right; right; exists it, p, rest; split; [reflexivity|lia]).
  all: destruct H as [(rest' & Hs)|[(it' & rest' & Hs & H1)|(it' & p' & rest' & Hs & H1 & H2)]];
    try discriminate; inversion Hs; subst; unfold MAX_PREC in *; lia.
Qed.

(** What a run can show as an unexpected error: [Overflow] from the
    arithmetic; the [OverflowError] of the setter of [prec], when both inputs
    are integers of at least 1 and [precision + 10] is [2^63] or more; and
    [EOFError], when the input ends early.  The checks on the input keep
    [DivisionByZero] and [InvalidOperation] away, and [ValueError] goes to the
    other handler. *)
Theorem unexpected_error_cases stdin q e :
  In (UnexpectedError e) (fst (snd (main stdin (thread_context q)))) ->
  e = Exn Overflow \/
  (e = Exn OverflowError /\
   exists it p rest, stdin = Some it :: Some p :: rest /\ 1 <= it /\ 2 ^ 63 <= p + 10) \/
  (e = EOFError /\ (List.length stdin < 2)%nat).
Proof.
  run_cases stdin q; intros H; flatten_lines H;
    repeat destruct H as [H|H]; try discriminate; try contradiction;
    inversion H; subst; auto.
  all: try (right; right; split; [reflexivity|cbn; lia]).
  right. left. split; auto. exists it, p, rest. auto.
Qed.

Lemma unexpected_error_cases_witness :
  In (UnexpectedError (Exn Overflow))
     (fst (snd (main [Some 100000; Some 1] (thread_context 28)))) /\
  (Exn Overflow = Exn Overflow \/
   (Exn Overflow = Exn OverflowError /\
    exists it p rest, [Some 100000; Some 1] = Some it :: Some p :: rest /\
                      1 <= it /\ 2 ^ 63 <= p + 10) \/
   (Exn Overflow = EOFError /\
    (List.length [Some 100000%Z; Some 1%Z] < 2)%nat)).
Proof.
  assert (H : In (UnexpectedError (Exn Overflow))
                 (fst (snd (main [Some 100000; Some 1] (thread_context 28))))).
  { unfold main, try_block. cbn [Z.ltb Z.compare Pos.compare Pos.compare_cont].
    rewrite calculate_compute by (unfold MAX_PREC; lia).
    rewrite compute_overflows by (unfold MAX_PREC; lia).
    cbn [fst snd]. apply in_or_app. right. cbn. tauto. }
  split; [exact H|].
  exact (unexpected_error_cases [Some 100000; Some 1] 28 (Exn Overflow) H).
Defined.

(** With 100000 iterations or more the program shows [Overflow] as an
    unexpected error, prints no result, and leaves the precision changed. *)
Theorem main_overflow q it p stdin :
  100000 <= it -> 1 <= p <= MAX_PREC - 10 ->
  main (Some it :: Some p :: stdin) (thread_context q)
  = (call_context q p,
     (banner ++ [prompt_iterations; prompt_precision; UnexpectedError (Exn Overflow)],
      Completed)).
Proof.
  intros Hit Hp. unfold main, try_block.
  destruct (Z.ltb_spec it 1) as [?|_]; [lia|].
  destruct (Z.ltb_spec p 1) as [?|_]; [lia|].
  rewrite calculate_compute, compute_overflows by lia. reflexivity.
Qed.

Lemma main_overflow_witness :
  100000 <= 100000 /\ 1 <= 50 <= MAX_PREC - 10 /\
  main [Some 100000; Some 50] (thread_context 28)
  = (call_context 28 50,
     (banner ++ [prompt_iterations; prompt_precision; UnexpectedError (Exn Overflow)],
      Completed)).
Proof.
  split; [lia|]. split; [unfold MAX_PREC; lia|].
  apply (main_overflow 28 100000 50 []); unfold MAX_PREC; lia.
Defined.

(** The known value is cut off, not rounded: for [precision >= 1] the text
    [known_pi_str[:min(len(known_pi_str), precision + 2)]] converts to the
    first [min(precision, 100)] fractional digits of the known digits; beyond
    100 places there is nothing more to compare with. *)
Theorem known_value_is_cut_off p :
  1 <= p ->
  Decimal_of_str
    (slice_to known_pi_str (Z.min (Z.of_nat (String.length known_pi_str)) (p + 2)))
  = Ok (mkDec (known_digits / 10 ^ (100 - Z.min p 100)) (- Z.min p 100)).
Proof. apply known_pi_prefix. Qed.

Lemma known_value_is_cut_off_witness :
  1 <= 4 /\
  Decimal_of_str
    (slice_to known_pi_str (Z.min (Z.of_nat (String.length known_pi_str)) (4 + 2)))
  = Ok (mkDec (known_digits / 10 ^ (100 - Z.min 4 100)) (- Z.min 4 100)).
Proof. split; [lia|]. apply (known_value_is_cut_off 4). lia. Defined.

(** Up to seven places the program compares pi correctly rounded with pi cut
    off: for precisions 3, 4, 6 and 7 it reports an absolute error of one
    unit in the last place, for 1, 2 and 5 an error of zero, whatever the
    number of iterations. *)
Theorem main_low_precision q it p stdin :
  1 <= it <= 30000 -> 1 <= p <= 7 ->
  main (Some it :: Some p :: stdin) (thread_context q)
  = (call_context q p,
     (banner ++ [prompt_iterations; prompt_precision;
                 Text (newline ++ "--- Results ---"); ResultsFor it p;
                 CalculatedPi (_rescale (mkDec 31415926536 (-10)) (- p) ROUND_HALF_EVEN);
                 KnownPi (mkDec (known_digits / 10 ^ (100 - p)) (- p));
                 AbsoluteError
                   (mkDec (if (p =? 3) || (p =? 4) || (p =? 6) || (p =? 7) then 1 else 0)
                          (- p))],
      Completed)).
Proof.
  intros Hit Hp. unfold main, try_block.
  destruct (Z.ltb_spec it 1) as [?|_]; [lia|].
  destruct (Z.ltb_spec p 1) as [?|_]; [lia|].
  rewrite calculate_compute by (unfold MAX_PREC; lia).
  rewrite compute_low_precision by lia.
  assert (Hc : p = 1 \/ p = 2 \/ p = 3 \/ p = 4 \/ p = 5 \/ p = 6 \/ p = 7) by lia.
  destruct Hc as [->|[->|[->|[->|[->|[->| ->]]]]]];
    (rewrite report_ok; [reflexivity|unfold MAX_PREC; lia|reflexivity|vm_compute; split; congruence]).
Qed.

Lemma main_low_precision_witness :
  1 <= 1 <= 30000 /\ 1 <= 4 <= 7 /\
  main [Some 1; Some 4] (thread_context 28)
  = (call_context 28 4,
     (banner ++ [prompt_iterations; prompt_precision;
                 Text (newline ++ "--- Results ---"); ResultsFor 1 4;
                 CalculatedPi (_rescale (mkDec 31415926536 (-10)) (- 4) ROUND_HALF_EVEN);
                 KnownPi (mkDec (known_digits / 10 ^ (100 - 4)) (- 4));
                 AbsoluteError
                   (mkDec (if (4 =? 3) || (4 =? 4) || (4 =? 6) || (4 =? 7) then 1 else 0)
                          (- 4))],
      Completed)).
Proof.
  split; [lia|]. split; [lia|]. apply (main_low_precision 28 1 4 []); lia.
Defined.

(** ** Terms that no longer change the sum *)

(** A sum between 1103 and 1104 absorbs a term of less than half a unit of
    its last place: the addition returns the sum itself, written with all
    [prec] digits. *)
Lemma add_absorbs ctx acc t :
  wf_context ctx -> rounding ctx = ROUND_HALF_EVEN -> 4 <= prec ctx ->
  Etiny ctx <= 4 - prec ctx -> 3 < Emax ctx ->
  0 < _int acc < 10 ^ prec ctx -> (1103 <= V acc < 1104)%R ->
  0 < _int t -> (2 * V t < pow10 (4 - prec ctx))%R ->
  Decimal_add acc t ctx
  = (ctx, Ok (mkDec (_int acc * 10 ^ (_exp acc - (4 - prec ctx))) (4 - prec ctx))).
Proof.
  intros Hwf Hhe Hp4 Htiny Hmax Hc Hv Ht Hsmall. pose proof Hwf as [Hp HE].
  set (P := prec ctx) in *. set (g := 4 - P) in *.
  destruct acc as [cs es]. destruct t as [ct et]. cbn [_int _exp] in *.
  unfold V in Hv, Hsmall. cbn [_int _exp] in Hv, Hsmall.
  (* the exponents *)
  assert (Hes : g <= es).
  { destruct (Z_le_gt_dec g es) as [?|Hlt]; [assumption|exfalso].
    assert (IZR cs < pow10 P)%R by (rewrite pow10_IZR by lia; apply IZR_lt; lia).
    assert (pow10 P * pow10 es <= 1000)%R.
    { rewrite <- pow10_add. apply Rle_trans with (pow10 3); [apply pow10_le; unfold g in *; lia|].
      rewrite (pow10_IZR 3) by lia. change (10 ^ 3) with 1000. lra. }
    pose proof (pow10_pos es). nra. }
  assert (Het : et < g).
  { apply pow10_lt_inv. assert (1 <= IZR ct)%R by (apply IZR_le; lia).
    pose proof (pow10_pos et). nra. }
  set (T := 10 ^ (g - et)). assert (HT : 0 < T) by (apply Zpow10_gt0; lia).
  set (cs' := cs * 10 ^ (es - g)).
  assert (Hcs' : cs * 10 ^ (es - et) = cs' * T).
  { unfold cs', T. rewrite <- Z.mul_assoc, <- Z.pow_add_r by lia. do 2 f_equal. lia. }
  assert (HVs : (IZR cs * pow10 es = IZR cs' * pow10 g)%R).
  { unfold cs'. rewrite mult_IZR, <- pow10_IZR by lia. rewrite Rmult_assoc, <- pow10_add.
    do 2 f_equal. lia. }
  assert (H2ct : 2 * ct < T).
  { apply lt_IZR. rewrite mult_IZR. unfold T. rewrite <- pow10_IZR by lia.
    apply Rmult_lt_reg_r with (pow10 et); [apply pow10_pos|].
    rewrite <- pow10_add. replace (g - et + et) with g by lia. lra. }
  assert (Hcs'P : 0 < cs' < 10 ^ P).
  { split.
    - unfold cs'. pose proof (Zpow10_gt0 (es - g) ltac:(lia)). nia.
    - apply lt_IZR. rewrite <- pow10_IZR by lia.
      apply Rmult_lt_reg_r with (pow10 g); [apply pow10_pos|].
      rewrite <- pow10_add. replace (P + g) with 4 by (unfold g; lia).
      rewrite (pow10_IZR 4) by lia. change (10 ^ 4) with 10000. lra. }
  (* the exact sum *)
  unfold Decimal_add, with_context. cbn [_int _exp].
  destruct (Z.eqb_spec cs 0) as [?|_]; [lia|].
  destruct (Z.eqb_spec ct 0) as [?|_]; [lia|]. cbn [andb].
  rewrite (Z.min_r es et) by lia.
  replace (et - et) with 0 by lia. change (10 ^ 0) with 1. rewrite Z.mul_1_r, Hcs'.
  set (d := mkDec (cs' * T + ct) et).
  assert (Pd : 0 < _int d) by (cbn; nia).
  assert (Vd : (V d = IZR cs' * pow10 g + IZR ct * pow10 et)%R).
  { unfold V, d. cbn [_int _exp]. rewrite plus_IZR, mult_IZR. unfold T.
    rewrite <- pow10_IZR by lia. rewrite Rmult_plus_distr_r, Rmult_assoc, <- pow10_add.
    do 3 f_equal. lia. }
  assert (Vt0 : (0 < IZR ct * pow10 et)%R).
  { apply Rmult_lt_0_compat; [apply IZR_lt; lia|apply pow10_pos]. }
  assert (Hg1 : (pow10 g <= 1)%R).
  { rewrite <- pow10_0. apply pow10_le. unfold g, P. lia. }
  assert (Hadj : adjusted d = 3).
  { assert (3 <= adjusted d).
    { apply adjusted_ge; auto. rewrite (pow10_IZR 3) by lia. change (10 ^ 3) with 1000. lra. }
    assert (adjusted d < 4).
    { apply adjusted_lt; auto. rewrite (pow10_IZR 4) by lia. change (10 ^ 4) with 10000.
      pose proof (pow10_pos g). lra. }
    lia. }
  assert (Hfe : fix_exp ctx d = g).
  { unfold fix_exp. unfold adjusted in Hadj. unfold g, P in *. lia. }
  destruct (fix_ok ctx d Hwf ltac:(lia) ltac:(lia)) as (r & Er).
  rewrite Er. do 2 f_equal.
  pose proof (fix_inv ctx d r Hwf Pd Er) as Hinv. cbv zeta in Hinv. rewrite Hfe in Hinv.
  cbn [_int _exp d] in Hinv. fold T in Hinv.
  destruct Hinv as [[Hge _]|(_ & m & _ & Hm0 & Hhe' & Hr)]; [lia|].
  destruct (Hhe' Hhe) as [Hnear _].
  assert (Hm : m = cs') by nia.
  subst m. destruct Hr as [[_ ->]|[Hcarry _]]; [reflexivity|fold P in Hcarry; lia].
Qed.

Lemma for_range_app {St} (body : Z -> St -> M St) a : forall b k s ctx,
  for_range (a + b) k body s ctx
  = bind (for_range a k body s) (fun s' => for_range b (k + Z.of_nat a) body s') ctx.
Proof.
  induction a as [|a IH]; intros b k s ctx.
  - cbn [Nat.add for_range]. unfold bind, ret. now rewrite Z.add_0_r.
  - cbn [Nat.add]. rewrite !for_range_S. unfold bind.
    destruct (body k s ctx) as [c [s1|e]]; [|reflexivity].
    rewrite IH. unfold bind. replace (k + 1 + Z.of_nat a) with (k + Z.of_nat (S a)) by lia.
    reflexivity.
Qed.

Section Stationary.

Variable ctx : Context.
Hypothesis Hprec : 10 <= prec ctx.
Hypothesis Hemin : Emin ctx = -999999.
Hypothesis Hemax : Emax ctx = 999999.
Hypothesis Hhe : rounding ctx = ROUND_HALF_EVEN.

(** Once [6 k >= prec], turn [k] of the loop leaves the sum as it is. *)
Lemma turn_absorbed k acc :
  prec ctx <= 6 * k -> k < 30000 ->
  repr ctx acc -> 0 < _int acc -> (1103 <= V acc <= 1103 + 1 / 2)%R ->
  loop_body k acc ctx
  = (ctx, Ok (mkDec (_int acc * 10 ^ (_exp acc - (4 - prec ctx))) (4 - prec ctx))).
Proof.
  intros Hk Hk2 Racc Pacc Vacc.
  pose proof (acc_wf ctx Hprec Hemin Hemax) as Hwf.
  assert (Hp4 : 4 <= prec ctx) by lia.
  destruct (loop_body_ok ctx Hp4 Hemin Hemax k acc ltac:(lia) Racc ltac:(lia)) as (S' & E & _).
  { apply Rle_trans with (pow10 4).
    - rewrite (pow10_IZR 4) by lia. change (10 ^ 4) with 10000. lra.
    - apply pow10_le. lia. }
  rewrite E.
  destruct (loop_body_approx ctx Hprec Hemin Hemax k acc S' ltac:(lia) ltac:(lia) E)
    as (t & At & Pt & _ & _ & Eadd).
  rewrite add_absorbs in Eadd; auto; try (destruct Racc; lia); try lra.
  - unfold Etiny. lia.
  - pose proof (term_upper (Z.to_nat k)) as Hu. rewrite Z2Nat.id in Hu by lia.
    pose proof (term_pos (Z.to_nat k)) as Hpos.
    destruct At as [_ At]. pose proof (delta_small ctx Hprec) as Hd.
    pose proof (rel_err_pos ctx) as Hd0.
    assert (Hpk : (pow10 (- (6 * k)) <= pow10 (- prec ctx))%R) by (apply pow10_le; lia).
    assert (H4 : pow10 (4 - prec ctx) = (10000 * pow10 (- prec ctx))%R).
    { replace (4 - prec ctx) with (4 + - prec ctx) by lia. rewrite pow10_add.
      rewrite (pow10_IZR 4) by lia. reflexivity. }
    rewrite H4. pose proof (pow10_pos (- prec ctx)) as Ht. pose proof (pow10_pos (- (6 * k))).
    set (x := term (Z.to_nat k)) in *. clearbody x.
    set (d := rel_err ctx) in *. clearbody d.
    assert (x * (1 + 14 * d) <= x * 2)%R by (apply Rmult_le_compat_l; lra).
    lra.
Qed.

Lemma turns_absorbed n : forall k acc,
  (1 <= n)%nat -> prec ctx <= 6 * k -> k + Z.of_nat n <= 30000 ->
  repr ctx acc -> 0 < _int acc -> (1103 <= V acc <= 1103 + 1 / 2)%R ->
  for_range n k loop_body acc ctx
  = (ctx, Ok (mkDec (_int acc * 10 ^ (_exp acc - (4 - prec ctx))) (4 - prec ctx))).
Proof.
  pose proof (acc_wf ctx Hprec Hemin Hemax) as Hwf.
  assert (Hp4 : 4 <= prec ctx) by lia.
  induction n as [|n IH]; intros k acc Hn Hk Hkn Racc Pacc Vacc; [lia|].
  rewrite for_range_S.
  pose proof (turn_absorbed k acc Hk ltac:(lia) Racc Pacc Vacc) as E.
  rewrite (bind_ok _ _ _ _ _ E).
  destruct n as [|n]; [reflexivity|].
  set (acc' := mkDec (_int acc * 10 ^ (_exp acc - (4 - prec ctx))) (4 - prec ctx)) in *.
  destruct (loop_body_outcome ctx Hp4 Hemin Hemax k acc ltac:(lia) Racc ltac:(lia))
    as (res & E' & O).
  rewrite E in E'. inversion E'; subst res. clear E'.
  destruct O as [?|(S1 & Heq & R1 & P1 & _)]; [discriminate|].
  inversion Heq; subst S1. clear Heq.
  assert (Hes : 4 - prec ctx <= _exp acc).
  { destruct (Z_le_gt_dec (4 - prec ctx) (_exp acc)) as [?|Hlt]; [assumption|exfalso].
    destruct Racc as [[_ Hc] _].
    assert (IZR (_int acc) < pow10 (prec ctx))%R
      by (rewrite pow10_IZR by lia; apply IZR_lt; lia).
    assert (pow10 (prec ctx) * pow10 (_exp acc) <= 1000)%R.
    { rewrite <- pow10_add. apply Rle_trans with (pow10 3); [apply pow10_le; lia|].
      rewrite (pow10_IZR 3) by lia. change (10 ^ 3) with 1000. lra. }
    pose proof (pow10_pos (_exp acc)). unfold V in Vacc. nra. }
  assert (HV : V acc' = V acc).
  { rewrite (V_scale acc (4 - prec ctx) Hes). reflexivity. }
  rewrite (IH (k + 1) acc'); try lia; auto.
  - unfold acc'. cbn [_int _exp]. rewrite Z.sub_diag. change (10 ^ 0) with 1.
    now rewrite Z.mul_1_r.
  - unfold acc'. cbn [_int]. pose proof (Zpow10_gt0 (_exp acc - (4 - prec ctx)) ltac:(lia)).
    nia.
  - rewrite HV. exact Vacc.
Qed.

(** From [6 (n - 1) >= prec] on, further turns of the loop do not change the
    sum. *)
Lemma sum_stationary n m :
  2 <= n <= m -> m <= 30000 -> prec ctx <= 6 * (n - 1) ->
  exists acc,
    for_range (Z.to_nat n) 0 loop_body (Decimal_of_int 0) ctx = (ctx, Ok acc) /\
    for_range (Z.to_nat m) 0 loop_body (Decimal_of_int 0) ctx = (ctx, Ok acc).
Proof.
  intros Hn Hm Hk.
  pose proof (acc_wf ctx Hprec Hemin Hemax) as Hwf.
  assert (Hp4 : 4 <= prec ctx) by lia.
  set (a := Z.to_nat (n - 1)).
  destruct (loop_ok ctx Hp4 Hemin Hemax a 0 (Decimal_of_int 0)) as (S0 & E0).
  { lia. } { unfold a. lia. } { apply repr_Decimal_0; auto. } { cbn. lia. }
  { rewrite V_of_int. apply Rlt_le. apply pow10_pos. }
  destruct (loop_outcome ctx Hp4 Hemin Hemax a 0 (Decimal_of_int 0)) as (res & E1 & O).
  { lia. } { apply repr_Decimal_0; auto. } { cbn. lia. }
  rewrite E0 in E1. inversion E1; subst res. clear E1.
  destruct O as [?|(S1 & Heq & R0 & P0 & _ & _ & L0)]; [discriminate|].
  inversion Heq; subst S1. clear Heq.
  specialize (L0 ltac:(unfold a; lia) eq_refl).
  assert (Ea : a = Z.to_nat (n - 1)) by reflexivity.
  destruct (sum_approx ctx Hprec Hemin Hemax (n - 1) S0 ltac:(lia)) as [[_ U0] _].
  { rewrite <- Ea. exact E0. }
  assert (HU : (V S0 <= 1103 + 1 / 2)%R).
  { pose proof (series_le (Z.to_nat (n - 1))) as Hs.
    pose proof (series_nonneg (Z.to_nat (n - 1))) as Hs0.
    pose proof (delta_small ctx Hprec) as Hd. pose proof (rel_err_pos ctx) as Hd0.
    assert (HN : (1 <= IZR (n - 1) <= 30000)%R) by (split; apply IZR_le; lia).
    set (s := series (Z.to_nat (n - 1))) in *. clearbody s.
    set (d := rel_err ctx) in *. clearbody d. set (N := IZR (n - 1)) in *. clearbody N.
    assert ((2 * N + 15) * d <= (2 * 30000 + 15) * (2 / 1000000000))%R
      by (apply Rmult_le_compat; lra).
    assert (0 <= (2 * N + 15) * d)%R by (apply Rmult_le_pos; lra).
    assert (s * (1 + (2 * N + 15) * d) <= (1103 + 2684 / 100000000) * (1 + 2 / 10000))%R
      by (apply Rmult_le_compat; lra).
    lra. }
  assert (P0' : 0 < _int S0) by (apply V_pos_inv; lra).
  exists (mkDec (_int S0 * 10 ^ (_exp S0 - (4 - prec ctx))) (4 - prec ctx)).
  split.
  - replace (Z.to_nat n) with (a + 1)%nat by (unfold a; lia).
    rewrite for_range_app, (bind_ok _ _ _ _ _ E0).
    apply turns_absorbed; auto; try lia; lra.
  - replace (Z.to_nat m) with (a + Z.to_nat (m - n + 1))%nat by (unfold a; lia).
    rewrite for_range_app, (bind_ok _ _ _ _ _ E0).
    apply turns_absorbed; auto; try lia; lra.
Qed.

Lemma pi_approx_of_sum :
  exists C, repr ctx C /\ 0 < _int C /\ (28 / 100000 <= V C <= 31 / 100000)%R /\
  forall it,
    pi_approx_of it ctx
    = (sum_val <- for_range (Z.to_nat it) 0 loop_body (Decimal_of_int 0) ;;
       one_over_pi <- Decimal_mul C sum_val ;;
       Decimal_div (Decimal_of_int 1) one_over_pi) ctx.
Proof.
  assert (Hp4 : 4 <= prec ctx) by lia.
  destruct (constant_multiplier_ok ctx Hp4 Hemin Hemax) as (C & EC & RC & PC & VC).
  exists C. split; [exact RC|]. split; [exact PC|]. split; [exact VC|].
  intros it. unfold pi_approx_of.
  unfold bind at 1 2 3. unfold bind at 1 2 in EC.
  destruct (Decimal_sqrt (Decimal_of_int 2) ctx) as [c1 [root|e1]]; [|discriminate].
  destruct (Decimal_mul (Decimal_of_int 2) root c1) as [c2 [tw|e2]]; [|discriminate].
  rewrite EC. reflexivity.
Qed.

Lemma pi_approx_stationary n m :
  2 <= n <= m -> m <= 30000 -> prec ctx <= 6 * (n - 1) ->
  pi_approx_of n ctx = pi_approx_of m ctx.
Proof.
  intros Hn Hm Hk.
  destruct (sum_stationary n m Hn Hm Hk) as (acc & E1 & E2).
  destruct pi_approx_of_sum as (C & _ & _ & _ & HC). rewrite !HC.
  rewrite (bind_ok _ _ _ _ _ E1), (bind_ok _ _ _ _ _ E2). reflexivity.
Qed.

End Stationary.

(** Iterations beyond the precision are wasted: once
    [6 (n - 1) >= precision + 10], every larger number of iterations (up to
    30000) returns the very same decimal, because the further terms are
    below half a unit of the last place of the sum. *)
Theorem further_iterations_change_nothing q n m p :
  2 <= n <= m -> m <= 30000 -> 0 <= p -> p + 10 <= 6 * (n - 1) ->
  compute q n p = compute q m p.
Proof.
  intros Hn Hm Hp Hk. rewrite !compute_unfold.
  rewrite prec_range by (unfold MAX_PREC; lia).
  unfold after_setprec, bind.
  assert (Hpe : prec (call_context q p) = p + 10) by reflexivity.
  assert (H1 : 10 <= prec (call_context q p)) by lia.
  assert (H2 : prec (call_context q p) <= 6 * (n - 1)) by lia.
  rewrite (pi_approx_stationary (call_context q p) H1 eq_refl eq_refl eq_refl n m Hn Hm H2).
  reflexivity.
Qed.

Lemma further_iterations_change_nothing_witness :
  2 <= 5 <= 9 /\ 9 <= 30000 /\ 0 <= 12 /\ 12 + 10 <= 6 * (5 - 1) /\
  compute 28 5 12 = compute 28 9 12.
Proof.
  split; [lia|]. split; [lia|]. split; [lia|]. split; [lia|].
  apply (further_iterations_change_nothing 28 5 9 12); lia.
Defined.

(** ** Correct rounding and its monotonicity *)

Lemma nearest_even_mono g x1 x2 r1 r2 :
  nearest_even g x1 r1 -> nearest_even g x2 r2 -> (x1 <= x2)%R -> (V r1 <= V r2)%R.
Proof.
  intros (m1 & V1 & N1 & T1) (m2 & V2 & N2 & T2) Hx.
  pose proof (pow10_pos g) as Hg. rewrite V1, V2 in *.
  destruct (Z_le_gt_dec m1 m2) as [Hle|Hgt].
  - apply Rmult_le_compat_r; [lra|]. now apply IZR_le.
  - exfalso.
    assert (H1 : (IZR m2 + 1 <= IZR m1)%R) by (rewrite <- plus_IZR; apply IZR_le; lia).
    assert (H1' : ((IZR m2 + 1) * pow10 g <= IZR m1 * pow10 g)%R)
      by (apply Rmult_le_compat_r; lra).
    set (t := pow10 g) in *. clearbody t.
    assert (Ha : (IZR m2 * t + t <= IZR m1 * t)%R) by lra.
    pose proof (Rle_abs (IZR m1 * t - x1)) as A1.
    pose proof (Rle_abs (- (IZR m2 * t - x2))) as A2. rewrite Rabs_Ropp in A2.
    assert (E1 : (2 * Rabs (IZR m1 * t - x1) = t)%R) by lra.
    assert (E2 : (2 * Rabs (IZR m2 * t - x2) = t)%R) by lra.
    specialize (T1 E1). specialize (T2 E2).
    assert (Hm : m1 = m2 + 1).
    { assert (Hle : (IZR m1 * t <= (IZR m2 + 1) * t)%R) by lra.
      apply Rmult_le_reg_r in Hle; [|exact Hg].
      rewrite <- plus_IZR in Hle. apply le_IZR in Hle. lia. }
    subst m1. rewrite Z.even_add in T1. rewrite T2 in T1. discriminate.
Qed.

(** [_fix] rounds a nonzero decimal to the nearest multiple of [10^fix_exp],
    ties to even, under [ROUND_HALF_EVEN]. *)
Lemma fix_nearest ctx d r :
  wf_context ctx -> rounding ctx = ROUND_HALF_EVEN -> 0 < _int d ->
  _fix ctx d = Ok r -> nearest_even (fix_exp ctx d) (V d) r.
Proof.
  intros Hwf Hhe Hd Hf. pose proof (pow10_pos (fix_exp ctx d)) as Hg.
  pose proof (fix_inv ctx d r Hwf Hd Hf) as Hinv. cbv zeta in Hinv.
  destruct Hinv as [[Hge ->]|(Hlt & m' & _ & _ & _ & Hr)].
  - exists (_int d * 10 ^ (_exp d - fix_exp ctx d)). split; [now apply V_scale|].
    rewrite Rminus_diag, Rabs_R0. split; [lra|]. intros H. lra.
  - destruct (fix_value ctx d r Hwf Hd Hf) as (_ & _ & [->|(m & _ & Vr & _ & _ & He)]).
    + exfalso. destruct Hr as [[_ Hr]|[_ Hr]]; apply (f_equal _exp) in Hr;
        cbn [_exp] in Hr; lia.
    + destruct (He Hhe) as [H1 H2]. exists m. auto.
Qed.

Lemma div_raw_sticky ctx a b :
  wf_context ctx -> 0 < _int a -> 0 < _int b ->
  0 < _int (div_raw ctx a b) /\
  (V (div_raw ctx a b) = (V a / V b)%R \/
   (prec ctx + 1 <= ndigits (_int (div_raw ctx a b)) /\
    (Rabs (V (div_raw ctx a b) - V a / V b) < pow10 (_exp (div_raw ctx a b)))%R /\
    _int (div_raw ctx a b) mod 5 <> 0)).
Proof.
  intros [Hp HE] Ha Hb. unfold div_raw.
  destruct (Z.eqb_spec (_int a) 0) as [?|_]; [lia|].
  set (s := ndigits (_int b) - ndigits (_int a) + prec ctx + 1).
  set (ex := _exp a - _exp b - s).
  set (num := if 0 <=? s then _int a * 10 ^ s else _int a).
  set (den := if 0 <=? s then _int b else _int b * 10 ^ (- s)).
  pose proof (ndigits_bounds _ Ha) as [La Ua]. pose proof (ndigits_bounds _ Hb) as [Lb Ub].
  pose proof (ndigits_pos (_int a)) as Na. pose proof (ndigits_pos (_int b)) as Nb.
  pose proof (Zpow10_gt0 (prec ctx) ltac:(lia)) as Hpp.
  assert (Hnd : 0 < den /\ 10 ^ prec ctx * den <= num /\
                (V a / V b = IZR num / IZR den * pow10 ex)%R).
  { assert (Hex : pow10 ex = (pow10 (_exp a) * / pow10 (_exp b) * / pow10 s)%R).
    { unfold ex. rewrite !pow10_sub. unfold Rdiv. reflexivity. }
    pose proof (pow10_pos (_exp a)). pose proof (pow10_pos (_exp b)). pose proof (pow10_pos s).
    assert (Hib : (0 < IZR (_int b))%R) by now apply IZR_lt.
    unfold num, den. destruct (Z.leb_spec 0 s) as [Hs|Hs].
    - split; [lia|]. split.
      + assert (10 ^ ndigits (_int b) * 10 ^ prec ctx = 10 ^ (ndigits (_int a) - 1) * 10 ^ s).
        { rewrite <- !Z.pow_add_r by lia. f_equal. unfold s. lia. }
        pose proof (Zpow10_gt0 s Hs). nia.
      + rewrite Hex, mult_IZR, <- pow10_IZR by lia. unfold V. field. lra.
    - pose proof (Zpow10_gt0 (- s) ltac:(lia)) as Hms.
      split; [nia|]. split.
      + assert (10 ^ ndigits (_int b) * 10 ^ (- s) * 10 ^ prec ctx = 10 ^ (ndigits (_int a) - 1)).
        { rewrite <- !Z.pow_add_r by lia. f_equal. unfold s. lia. }
        nia.
      + rewrite Hex, mult_IZR, <- pow10_IZR by lia.
        replace (pow10 (- s)) with (/ pow10 s)%R
          by (unfold pow10; now rewrite powerRZ_neg'). 
        unfold V. field. lra. }
  destruct Hnd as (Hden & Hbig & HV).
  pose proof (Z.div_mod num den ltac:(lia)) as Hdm.
  pose proof (Z.mod_pos_bound num den Hden) as Hmb.
  set (c0 := num / den) in *. set (rem := num mod den) in *.
  assert (Hc0 : 10 ^ prec ctx <= c0) by nia.
  assert (Hiden : (0 < IZR den)%R) by now apply IZR_lt.
  pose proof (pow10_pos ex) as Hpex.
  destruct (Z.eqb_spec rem 0) as [Hr|Hr].
  - destruct (strip_zeros (Z.to_nat (_exp a - _exp b - ex)) c0 ex) as [c e] eqn:Es.
    pose proof (strip_zeros_value (Z.to_nat (_exp a - _exp b - ex)) c0 ex ltac:(lia)) as [S1 S2].
    rewrite Es in S1, S2. cbn [fst snd] in S1, S2. cbn [_int _exp].
    split; auto. left. unfold V at 1. cbn [_int _exp]. rewrite S2, HV.
    replace num with (den * c0) by lia. rewrite mult_IZR. field. lra.
  - set (c := if c0 mod 5 =? 0 then c0 + 1 else c0).
    assert (Hc : c = c0 \/ c = c0 + 1) by (unfold c; destruct (c0 mod 5 =? 0); auto).
    assert (Hc5 : c mod 5 <> 0).
    { unfold c. destruct (Z.eqb_spec (c0 mod 5) 0) as [H5|H5]; [|exact H5].
      clear - H5. Z.div_mod_to_equations. lia. }
    cbn [_int _exp]. split; [lia|]. right. split; [|split; [|exact Hc5]].
    + apply ndigits_ge; try lia. replace (prec ctx + 1 - 1) with (prec ctx) by lia. lia.
    + unfold V at 1. cbn [_int _exp]. rewrite HV.
      replace (IZR c * pow10 ex - IZR num / IZR den * pow10 ex)%R
        with ((IZR c - IZR num / IZR den) * pow10 ex)%R by ring.
      rewrite Rabs_mult, (Rabs_pos_eq (pow10 ex)) by lra.
      rewrite <- (Rmult_1_l (pow10 ex)) at 2.
      apply Rmult_lt_compat_r; auto.
      assert (H1 : (IZR den * IZR c0 < IZR num)%R)
        by (rewrite <- mult_IZR; apply IZR_lt; lia).
      assert (H2 : (IZR num < IZR den * (IZR c0 + 1))%R)
        by (rewrite <- plus_IZR, <- mult_IZR; apply IZR_lt; lia).
      assert (H3 : (IZR c0 < IZR num / IZR den)%R).
      { apply Rmult_lt_reg_l with (IZR den); auto.
        replace (IZR den * (IZR num / IZR den))%R with (IZR num) by (field; lra). lra. }
      assert (H4 : (IZR num / IZR den < IZR c0 + 1)%R).
      { apply Rmult_lt_reg_l with (IZR den); auto.
        replace (IZR den * (IZR num / IZR den))%R with (IZR num) by (field; lra). lra. }
      apply Rabs_def1; destruct Hc as [-> | ->]; try rewrite plus_IZR; lra.
Qed.
(** Division is correctly rounded: the sticky digit never sits on a tie. *)
Lemma div_nearest ctx a b r :
  wf_context ctx -> rounding ctx = ROUND_HALF_EVEN -> 0 < _int a -> 0 < _int b ->
  Decimal_div a b ctx = (ctx, Ok r) ->
  nearest_even (fix_exp ctx (div_raw ctx a b)) (V a / V b) r.
Proof.
  intros Hwf Hhe Ha Hb E. unfold Decimal_div, with_context in E.
  destruct (Z.eqb_spec (_int b) 0) as [?|_]; [lia|]. inversion E as [E']. clear E.
  destruct (div_raw_sticky ctx a b Hwf Ha Hb) as (Pd & [Vd|(Nd & Ad & H5)]).
  { rewrite <- Vd. now apply fix_nearest. }
  set (d := div_raw ctx a b) in *. set (g := fix_exp ctx d).
  pose proof (fix_inv ctx d r Hwf Pd E') as Hinv. cbv zeta in Hinv. fold g in Hinv.
  assert (Hg : _exp d + 1 <= g) by (unfold g, fix_exp; lia).
  destruct Hinv as [[Hge _]|(_ & m & _ & Hm0 & He & Hr)]; [lia|].
  destruct (He Hhe) as [Hnear _].
  set (k := g - _exp d) in *. assert (Hk : 1 <= k) by (unfold k; lia).
  assert (HT : 10 ^ k = 10 * 10 ^ (k - 1)).
  { replace k with (Z.succ (k - 1)) at 1 by lia. rewrite Z.pow_succ_r by lia. reflexivity. }
  pose proof (Zpow10_gt0 (k - 1) ltac:(lia)) as HT'.
  set (T' := 10 ^ (k - 1)) in *. rewrite HT in Hnear.
  assert (Hstrict : 2 * Z.abs (m * (10 * T') - _int d) + 2 <= 10 * T').
  { set (X := m * T'). replace (m * (10 * T')) with (10 * X) in * by (unfold X; ring).
    clearbody X T'. clear - Hnear H5. Z.div_mod_to_equations. lia. }
  assert (Vr : V r = (IZR m * pow10 g)%R).
  { destruct Hr as [[_ ->]|[Hc ->]]; [reflexivity|].
    unfold V. cbn [_int _exp]. rewrite Hc, pow10_succ, <- !pow10_IZR by (destruct Hwf; lia).
    rewrite <- Rmult_assoc, (Rmult_comm _ 10), <- pow10_succ.
    do 2 f_equal. lia. }
  exists m. split; [exact Vr|].
  assert (Habs : (Rabs (V r - V d) = IZR (Z.abs (m * 10 ^ k - _int d)) * pow10 (_exp d))%R).
  { rewrite Vr. replace g with (_exp d + k) by (unfold k; lia).
    rewrite <- (grid_abs (_int d) (_exp d) m k) by lia. destruct d; reflexivity. }
  rewrite HT in Habs.
  assert (Hlt : (2 * Rabs (V r - V a / V b) < pow10 g)%R).
  { pose proof (Rabs_triang (V r - V d) (V d - V a / V b)) as Htri.
    replace (V r - V d + (V d - V a / V b))%R with (V r - V a / V b)%R in Htri by ring.
    pose proof (pow10_pos (_exp d)) as He0.
    assert (Hgk : pow10 g = (IZR (10 * T') * pow10 (_exp d))%R).
    { rewrite <- HT, <- pow10_IZR, <- pow10_add by lia. f_equal. unfold k. lia. }
    rewrite Hgk. apply IZR_le in Hstrict.
    rewrite plus_IZR, mult_IZR in Hstrict.
    set (z := IZR (Z.abs (m * (10 * T') - _int d))) in *. clearbody z.
    set (e := pow10 (_exp d)) in *. clearbody e.
    assert ((2 * z + 2) * e <= IZR (10 * T') * e)%R by (apply Rmult_le_compat_r; lra).
    lra. }
  split; [lra|]. intros Heq. lra.
Qed.

Section Monotone.

Variable ctx : Context.
Hypothesis Hprec : 10 <= prec ctx.
Hypothesis Hemin : Emin ctx = -999999.
Hypothesis Hemax : Emax ctx = 999999.
Hypothesis Hhe : rounding ctx = ROUND_HALF_EVEN.

Lemma fix_exp_of_adjusted d a :
  0 < _int d -> -1000 <= a -> (pow10 a <= V d < pow10 (a + 1))%R ->
  fix_exp ctx d = a + 1 - prec ctx.
Proof.
  intros Hd Ha [L U].
  assert (a <= adjusted d) by (apply adjusted_ge; auto).
  assert (adjusted d < a + 1) by (apply adjusted_lt; auto).
  unfold fix_exp, adjusted, Etiny in *. lia.
Qed.

(** The sum after at least one turn and at most 30000. *)
Lemma sum_bounds n acc :
  1 <= n <= 30000 ->
  for_range (Z.to_nat n) 0 loop_body (Decimal_of_int 0) ctx = (ctx, Ok acc) ->
  repr ctx acc /\ 0 < _int acc /\ (1103 <= V acc <= 1103 + 1 / 2)%R.
Proof.
  intros Hn E. assert (Hp4 : 4 <= prec ctx) by lia.
  destruct (loop_outcome ctx Hp4 Hemin Hemax (Z.to_nat n) 0 (Decimal_of_int 0))
    as (res & E1 & O).
  { lia. } { apply repr_Decimal_0; auto. } { cbn. lia. }
  rewrite E in E1. inversion E1; subst res. clear E1.
  destruct O as [?|(S1 & Heq & R0 & P0 & _ & _ & L0)]; [discriminate|].
  inversion Heq; subst S1. clear Heq.
  specialize (L0 ltac:(lia) eq_refl).
  destruct (sum_approx ctx Hprec Hemin Hemax n acc Hn E) as [[_ U0] _].
  assert (HU : (V acc <= 1103 + 1 / 2)%R).
  { pose proof (series_le (Z.to_nat n)) as Hs.
    pose proof (series_nonneg (Z.to_nat n)) as Hs0.
    pose proof (delta_small ctx Hprec) as Hd. pose proof (rel_err_pos ctx) as Hd0.
    assert (HN : (1 <= IZR n <= 30000)%R) by (split; apply IZR_le; lia).
    set (s := series (Z.to_nat n)) in *. clearbody s.
    set (d := rel_err ctx) in *. clearbody d. set (N := IZR n) in *. clearbody N.
    assert ((2 * N + 15) * d <= (2 * 30000 + 15) * (2 / 1000000000))%R
      by (apply Rmult_le_compat; lra).
    assert (0 <= (2 * N + 15) * d)%R by (apply Rmult_le_pos; lra).
    assert (s * (1 + (2 * N + 15) * d) <= (1103 + 2684 / 100000000) * (1 + 2 / 10000))%R
      by (apply Rmult_le_compat; lra).
    lra. }
  split; [exact R0|]. split; [apply V_pos_inv; lra|lra].
Qed.

(** More turns of the loop never make the sum smaller. *)
Lemma sums_ordered n m :
  1 <= n <= m -> m <= 30000 ->
  exists acc1 acc2,
    for_range (Z.to_nat n) 0 loop_body (Decimal_of_int 0) ctx = (ctx, Ok acc1) /\
    for_range (Z.to_nat m) 0 loop_body (Decimal_of_int 0) ctx = (ctx, Ok acc2) /\
    (V acc1 <= V acc2)%R.
Proof.
  intros Hn Hm. assert (Hp4 : 4 <= prec ctx) by lia.
  destruct (loop_ok ctx Hp4 Hemin Hemax (Z.to_nat n) 0 (Decimal_of_int 0)) as (S1 & E1).
  { lia. } { lia. } { apply repr_Decimal_0; auto. } { cbn. lia. }
  { rewrite V_of_int. apply Rlt_le. apply pow10_pos. }
  destruct (loop_ok ctx Hp4 Hemin Hemax (Z.to_nat m) 0 (Decimal_of_int 0)) as (S2 & E2).
  { lia. } { lia. } { apply repr_Decimal_0; auto. } { cbn. lia. }
  { rewrite V_of_int. apply Rlt_le. apply pow10_pos. }
  exists S1, S2. split; [exact E1|]. split; [exact E2|].
  destruct (sum_bounds n S1 ltac:(lia) E1) as (R1 & P1 & _).
  replace (Z.to_nat m) with (Z.to_nat n + Z.to_nat (m - n))%nat in E2 by lia.
  rewrite for_range_app, (bind_ok _ _ _ _ _ E1) in E2.
  destruct (loop_outcome ctx Hp4 Hemin Hemax (Z.to_nat (m - n)) (0 + Z.of_nat (Z.to_nat n)) S1)
    as (res & E3 & O); auto; try lia.
  rewrite E2 in E3. inversion E3; subst res. clear E3.
  destruct O as [?|(S' & Heq & _ & _ & _ & L & _)]; [discriminate|].
  inversion Heq; subst S'. exact L.
Qed.

(** A larger sum gives a smaller value of [pi_approx]. *)
Lemma tail_monotone C acc1 acc2 a1 a2 :
  0 < _int C -> (28 / 100000 <= V C <= 31 / 100000)%R ->
  0 < _int acc1 -> (1103 <= V acc1 <= 1103 + 1 / 2)%R ->
  0 < _int acc2 -> (1103 <= V acc2 <= 1103 + 1 / 2)%R ->
  (V acc1 <= V acc2)%R ->
  (one_over_pi <- Decimal_mul C acc1 ;; Decimal_div (Decimal_of_int 1) one_over_pi) ctx
    = (ctx, Ok a1) ->
  (one_over_pi <- Decimal_mul C acc2 ;; Decimal_div (Decimal_of_int 1) one_over_pi) ctx
    = (ctx, Ok a2) ->
  (V a2 <= V a1)%R /\ 0 < _int a1 /\ 0 < _int a2.
Proof.
  intros PC VC P1 V1 P2 V2 H12 E1 E2.
  pose proof (acc_wf ctx Hprec Hemin Hemax) as Hwf. assert (Hp2 : 2 <= prec ctx) by lia.
  apply bind_inv in E1; [|apply readonly_with_context]. destruct E1 as (x1 & X1 & D1).
  apply bind_inv in E2; [|apply readonly_with_context]. destruct E2 as (x2 & X2 & D2).
  assert (Hone : pow10 0 = 1%R) by apply pow10_0.
  assert (Hm1 : pow10 (-1) = (/ 10)%R) by apply pow10_m1.
  assert (Hp1 : pow10 1 = 10%R) by apply pow10_1.
  assert (Hsmall : (pow10 (- prec ctx) <= / 1000000000)%R).
  { apply Rle_trans with (pow10 (- (9))); [apply pow10_le; lia|].
    rewrite pow10_opp, (pow10_IZR 9) by lia. change (10 ^ 9) with 1000000000. lra. }
  pose proof (pow10_pos (- prec ctx)) as Ht.
  (* the product *)
  assert (Hmul : forall acc x, 0 < _int acc -> (1103 <= V acc <= 1103 + 1 / 2)%R ->
            Decimal_mul C acc ctx = (ctx, Ok x) ->
            nearest_even (- prec ctx) (V C * V acc) x /\
            (3 / 10 <= V x <= 35 / 100)%R).
  { intros acc x Pa Va E. unfold Decimal_mul, with_context in E. inversion E as [E']. clear E.
    set (d := mkDec (_int C * _int acc) (_exp C + _exp acc)) in *.
    assert (Pd : 0 < _int d) by (cbn; nia).
    assert (Vd : V d = (V C * V acc)%R) by apply V_mul.
    assert (Vdb : (30884 / 100000 <= V d <= 34209 / 100000)%R) by (rewrite Vd; nra).
    pose proof (fix_nearest ctx d x Hwf Hhe Pd E') as Hn.
    assert (Hfe : fix_exp ctx d = - prec ctx).
    { rewrite (fix_exp_of_adjusted d (-1)); [lia|exact Pd|lia|].
      change (-1 + 1) with 0. rewrite Hm1, Hone. lra. }
    rewrite Hfe in Hn.
    rewrite Vd in Hn. split; [exact Hn|].
    destruct Hn as (m & _ & Hnear & _). rewrite <- Vd in Hnear.
    assert (Hab : (Rabs (V x - V d) <= / 1000000000)%R) by lra.
    apply Rabs_le_inv in Hab. lra. }
  destruct (Hmul acc1 x1 P1 V1 X1) as [N1 B1]. destruct (Hmul acc2 x2 P2 V2 X2) as [N2 B2].
  assert (Hx : (V x1 <= V x2)%R).
  { apply (nearest_even_mono (- prec ctx) (V C * V acc1) (V C * V acc2)); auto.
    apply Rmult_le_compat_l; lra. }
  (* the reciprocal *)
  assert (Hdiv : forall x a, (3 / 10 <= V x <= 35 / 100)%R ->
            Decimal_div (Decimal_of_int 1) x ctx = (ctx, Ok a) ->
            nearest_even (1 - prec ctx) (1 / V x) a /\ 0 < _int a).
  { intros x a Vx E. assert (Px : 0 < _int x) by (apply V_pos_inv; lra).
    assert (P1' : 0 < _int (Decimal_of_int 1)) by (cbn; lia).
    pose proof (div_nearest ctx (Decimal_of_int 1) x a Hwf Hhe P1' Px E) as Hn.
    destruct (div_rel ctx Hwf Hp2 (Decimal_of_int 1) x a P1' Px) as [_ Pa]; auto.
    { rewrite V_of_int. apply Emin_below_1; auto.
      apply Rle_trans with 1%R; [lra|].
      apply Rmult_le_reg_r with (V x); [lra|].
      replace (1 / V x * V x)%R with 1%R by (field; lra). lra. }
    split; [|exact Pa].
    rewrite V_of_int in Hn.
    assert (Hq : (28 / 10 <= 1 / V x <= 34 / 10)%R).
    { split.
      - apply Rmult_le_reg_r with (V x); [lra|].
        replace (1 / V x * V x)%R with 1%R by (field; lra). lra.
      - apply Rmult_le_reg_r with (V x); [lra|].
        replace (1 / V x * V x)%R with 1%R by (field; lra). lra. }
    destruct (div_raw_sticky ctx (Decimal_of_int 1) x Hwf P1' Px) as (Pd & Hd).
    set (d := div_raw ctx (Decimal_of_int 1) x) in *.
    rewrite V_of_int in Hd.
    assert (Vdb : (1 <= V d < 10)%R).
    { destruct Hd as [->|(Nd & Ad & _)]; [lra|].
      assert (He : (pow10 (_exp d) <= pow10 (- prec ctx) * V d)%R).
      { pose proof (V_adjusted d Pd) as [HL _].
        assert (pow10 (_exp d) = pow10 (- prec ctx) * pow10 (prec ctx + _exp d))%R.
        { rewrite <- pow10_add. f_equal. lia. }
        assert (pow10 (prec ctx + _exp d) <= pow10 (adjusted d))%R
          by (apply pow10_le; unfold adjusted; lia).
        nra. }
      apply Rabs_def2 in Ad. pose proof (V_pos d Pd). nra. }
    assert (Hfe : fix_exp ctx d = 1 - prec ctx).
    { rewrite (fix_exp_of_adjusted d 0); [lia|exact Pd|lia|].
      change (0 + 1) with 1. rewrite Hone, Hp1. lra. }
    rewrite Hfe in Hn. exact Hn. }
  destruct (Hdiv x1 a1 B1 D1) as [M1 Q1]. destruct (Hdiv x2 a2 B2 D2) as [M2 Q2].
  split; [|split; [exact Q1|exact Q2]].
  apply (nearest_even_mono (1 - prec ctx) (1 / V x2) (1 / V x1)); auto.
  unfold Rdiv. rewrite !Rmult_1_l. apply Rinv_le_contravar; lra.
Qed.

End Monotone.

(** What a call that returns has computed: the sum, the value of
    [pi_approx] and its quantization. *)
Lemma compute_inv q it p r :
  1 <= it <= 30000 -> 0 <= p <= MAX_PREC - 10 -> compute q it p = Ok r ->
  exists C acc a,
    repr (call_context q p) C /\ 0 < _int C /\ (28 / 100000 <= V C <= 31 / 100000)%R /\
    (forall it', pi_approx_of it' (call_context q p)
       = (sum_val <- for_range (Z.to_nat it') 0 loop_body (Decimal_of_int 0) ;;
          one_over_pi <- Decimal_mul C sum_val ;;
          Decimal_div (Decimal_of_int 1) one_over_pi) (call_context q p)) /\
    for_range (Z.to_nat it) 0 loop_body (Decimal_of_int 0) (call_context q p)
      = (call_context q p, Ok acc) /\
    (one_over_pi <- Decimal_mul C acc ;; Decimal_div (Decimal_of_int 1) one_over_pi)
      (call_context q p) = (call_context q p, Ok a) /\
    (0 <= _int a -> r = _rescale a (- p) ROUND_HALF_EVEN).
Proof.
  intros Hit Hp E. rewrite compute_unfold, prec_range in E by lia.
  set (ctx := call_context q p) in *.
  assert (Hpe : prec ctx = p + 10) by reflexivity.
  assert (Hprec : 10 <= prec ctx) by lia.
  assert (Hwf : wf_context ctx) by (apply (acc_wf ctx); auto).
  apply readonly_run in E; [|apply readonly_after_setprec].
  unfold after_setprec in E.
  apply bind_inv in E; [|apply readonly_pi_approx_of]. destruct E as (a & Ea & E).
  apply bind_inv in E; [|apply readonly_1e_minus]. destruct E as (qm & Eq & E).
  unfold Decimal_1e_minus in Eq. destruct (Z.ltb_spec p 0); [lia|].
  inversion Eq; subst qm. clear Eq.
  destruct (pi_approx_of_sum ctx Hprec eq_refl eq_refl) as (C & RC & PC & VC & HC).
  rewrite HC in Ea.
  apply bind_inv in Ea; [|apply readonly_for_range]. destruct Ea as (acc & Eacc & Ea).
  exists C, acc, a. repeat (split; [assumption|]).
  intros Pa. exact (quantize_inv ctx a p r Hwf Pa E).
Qed.

(** Adding iterations never increases the returned value: for
    [1 <= n <= m <= 30000] the value for [m] iterations is at most the value
    for [n] iterations, digit for digit at the same exponent.  Every
    operation after the sum is correctly rounded, so the order of the sums
    carries through the product, the reciprocal and the final rounding. *)
Theorem more_iterations_never_increase q n m p :
  1 <= n <= m -> m <= 30000 -> 0 <= p <= MAX_PREC - 10 ->
  exists rn rm, compute q n p = Ok rn /\ compute q m p = Ok rm /\
    _exp rn = - p /\ _exp rm = - p /\ _int rm <= _int rn.
Proof.
  intros Hn Hm Hp.
  destruct (compute_ok q n p ltac:(lia) Hp) as (rn & En & Xn).
  destruct (compute_ok q m p ltac:(lia) Hp) as (rm & Em & Xm).
  exists rn, rm. repeat (split; [assumption|]).
  destruct (compute_inv q n p rn ltac:(lia) Hp En)
    as (C & acc1 & a1 & RC & PC & VC & HC & S1 & T1 & Q1).
  destruct (compute_inv q m p rm ltac:(lia) Hp Em)
    as (C' & acc2 & a2 & _ & _ & _ & HC' & S2 & T2 & Q2).
  set (ctx := call_context q p) in *.
  assert (Hpe : prec ctx = p + 10) by reflexivity.
  assert (Hprec : 10 <= prec ctx) by lia.
  assert (HCC : (one_over_pi <- Decimal_mul C acc2 ;;
                 Decimal_div (Decimal_of_int 1) one_over_pi) ctx = (ctx, Ok a2)).
  { pose proof (HC m) as H1. pose proof (HC' m) as H2. rewrite H1 in H2.
    rewrite (bind_ok _ _ _ _ _ S2) in H2. rewrite (bind_ok _ _ _ _ _ S2) in H2.
    rewrite H2. exact T2. }
  destruct (sums_ordered ctx Hprec eq_refl eq_refl n m Hn Hm) as (s1 & s2 & E1 & E2 & Hs).
  rewrite S1 in E1. rewrite S2 in E2. inversion E1; inversion E2; subst s1 s2.
  destruct (sum_bounds ctx Hprec eq_refl eq_refl n acc1 ltac:(lia) S1) as (_ & P1 & B1).
  destruct (sum_bounds ctx Hprec eq_refl eq_refl m acc2 ltac:(lia) S2) as (_ & P2 & B2).
  destruct (tail_monotone ctx Hprec eq_refl eq_refl eq_refl C acc1 acc2 a1 a2
              PC VC P1 B1 P2 B2 Hs T1 HCC) as (Ha & Pa1 & Pa2).
  specialize (Q1 ltac:(lia)). specialize (Q2 ltac:(lia)).
  assert (Hne : forall a r, 0 < _int a -> r = _rescale a (- p) ROUND_HALF_EVEN ->
            nearest_even (- p) (V a) r /\ _exp r = - p).
  { intros a r Pa ->. destruct (rescale_half_even a (- p) ltac:(lia)) as [H1 H2].
    split; [|apply rescale_exp]. exists (_int (_rescale a (- p) ROUND_HALF_EVEN)).
    split; [|split; assumption]. unfold V. now rewrite rescale_exp. }
  destruct (Hne a1 rn Pa1 Q1) as [N1 _]. destruct (Hne a2 rm Pa2 Q2) as [N2 _].
  pose proof (nearest_even_mono (- p) (V a2) (V a1) rm rn N2 N1 Ha) as Hv.
  unfold V in Hv. rewrite Xn, Xm in Hv. now apply grid_le in Hv.
Qed.

Lemma more_iterations_never_increase_witness :
  1 <= 1 <= 2 /\ 2 <= 30000 /\ 0 <= 12 <= MAX_PREC - 10 /\
  exists rn rm, compute 28 1 12 = Ok rn /\ compute 28 2 12 = Ok rm /\
    _exp rn = - 12 /\ _exp rm = - 12 /\ _int rm <= _int rn.
Proof.
  split; [lia|]. split; [lia|]. split; [unfold MAX_PREC; lia|].
  apply (more_iterations_never_increase 28 1 2 12); unfold MAX_PREC; lia.
Defined.
